(** * Anonymization / restoration engine: a shallow embedding

    The development follows [core/anonymizer.py] ([execute_replacement]) and
    [core/deanonymizer.py] ([restore_by_position], [restore_by_context],
    [restore_by_canonical], [run_deanonymize]); the functions around them
    ([run_second_pass] and its helpers, [detect_key_sections],
    [build_replacement_pairs], the paragraph replacement of the DOCX writer)
    follow in a part of their own.

    Modelling choices.
    - A Python [str] is a list of characters [str := list ascii]; the model
      covers documents over the ASCII range ([upper], [strip] and the digit
      class of the token pattern are the ASCII ones).
    - A Python [dict] is an association list in insertion order; assigning
      to an existing key keeps the key's position ([assoc_set]).
    - A Python [set] of strings is represented by its elements in insertion
      order; the order in which a [for] loop visits it depends on the string
      hashes of the interpreter process, so it is a parameter [set_iter] of
      the model.
    - [datetime.now().isoformat()] is the parameter [now].
    - A recorded position is an integer ([Z]): the artifact is read back from
      a file, so step A slices with Python's rule for negative indices
      ([py_slice]); offsets computed by the code itself are naturals.
    - [difflib.SequenceMatcher(...).ratio()] and the float comparisons made on
      its results are the interface [Scoring].
    - The [while True] loop of the substitution runs on fuel; running out of
      fuel ([None]) stands for a loop that never returns. *)

From Stdlib Require Import Ascii String.
From Stdlib Require Import List ZArith Lia Bool Arith.
From Stdlib Require Import Permutation Sorted.
From Stdlib Require Import Numbers.DecimalString.
From Stdlib Require DecimalNat DecimalFacts.
Import ListNotations.

Set Implicit Arguments.

(** ** Python strings *)

Abbreviation str := (list ascii).

Definition chars (s : string) : str := list_ascii_of_string s.

Fixpoint str_eqb (a b : str) : bool :=
  match a, b with
  | [], [] => true
  | x :: a', y :: b' => Ascii.eqb x y && str_eqb a' b'
  | _, _ => false
  end.

(** [s[a:b]] for indices that are known to be non-negative. *)
Definition slice (a b : nat) (s : str) : str := firstn (b - a) (skipn a s).

(** [s[i:j]] for arbitrary integers: a negative index counts from the end. *)
Definition norm_index (len k : Z) : Z :=
  if (k <? 0)%Z then Z.max 0 (k + len) else Z.min k len.

Definition py_slice (s : str) (i j : Z) : str :=
  let len := Z.of_nat (length s) in
  slice (Z.to_nat (norm_index len i)) (Z.to_nat (norm_index len j)) s.

Fixpoint prefixb (p s : str) : bool :=
  match p, s with
  | [], _ => true
  | x :: p', y :: s' => Ascii.eqb x y && prefixb p' s'
  | _ :: _, [] => false
  end.

(** [s.find(sub)]: the lowest index at which [sub] occurs. *)
Fixpoint find0 (sub s : str) : option nat :=
  match s with
  | [] => if prefixb sub [] then Some 0 else None
  | _ :: s' => if prefixb sub s then Some 0 else option_map S (find0 sub s')
  end.

(** [s.find(sub, start)] for [start >= 0]. *)
Definition find (sub s : str) (start : nat) : option nat :=
  if length s <? start then None
  else option_map (Nat.add start) (find0 sub (skipn start s)).

Definition is_space (c : ascii) : bool :=
  let n := nat_of_ascii c in
  ((9 <=? n) && (n <=? 13)) || ((28 <=? n) && (n <=? 32))
  || (n =? 133) || (n =? 160).

Fixpoint lstrip (s : str) : str :=
  match s with
  | [] => []
  | c :: s' => if is_space c then lstrip s' else s
  end.

Definition strip (s : str) : str := rev (lstrip (rev (lstrip s))).

(** [s.upper()] for a string of ASCII characters: the letters [a-z] go to
    [A-Z] and every other ASCII character stays.  (Outside ASCII, Python also
    maps letters such as the sharp s, which becomes two characters; the
    statements about the characters of [upper] are made for ASCII strings.) *)
Definition upper_char (c : ascii) : ascii :=
  let n := nat_of_ascii c in
  if (97 <=? n) && (n <=? 122) then ascii_of_nat (n - 32) else c.

Definition upper (s : str) : str := map upper_char s.

(** [str(n)] for a counter. *)
Definition str_of_nat (n : nat) : str :=
  chars (NilZero.string_of_uint (Nat.to_uint n)).

Definition is_nonempty (s : str) : bool :=
  match s with [] => false | _ => true end.

(** ** Python dicts and sets *)

Fixpoint assoc_get (V : Type) (k : str) (d : list (str * V)) : option V :=
  match d with
  | [] => None
  | (k', v) :: d' => if str_eqb k k' then Some v else assoc_get k d'
  end.

Definition assoc_mem (V : Type) (k : str) (d : list (str * V)) : bool :=
  match assoc_get k d with Some _ => true | None => false end.

(** [d[k] = v]: an existing key keeps its place, a new key goes last. *)
Fixpoint assoc_set (V : Type) (k : str) (v : V) (d : list (str * V))
  : list (str * V) :=
  match d with
  | [] => [(k, v)]
  | (k', v') :: d' =>
      if str_eqb k k' then (k', v) :: d' else (k', v') :: assoc_set k v d'
  end.

(** [d[k]] updated in place by [f] (the key is present in every use). *)
Fixpoint assoc_update (V : Type) (k : str) (f : V -> V) (d : list (str * V))
  : list (str * V) :=
  match d with
  | [] => []
  | (k', v') :: d' =>
      if str_eqb k k' then (k', f v') :: d' else (k', v') :: assoc_update k f d'
  end.

Fixpoint mem_str (x : str) (s : list str) : bool :=
  match s with
  | [] => false
  | y :: s' => str_eqb x y || mem_str x s'
  end.

(** [s.add(x)] on the insertion-ordered representation of a set. *)
Definition set_add (x : str) (s : list str) : list str :=
  if mem_str x s then s else s ++ [x].

(** [s - {x}] *)
Definition set_remove (x : str) (s : list str) : list str :=
  filter (fun y => negb (str_eqb y x)) s.

(** ** Data model *)

Record entity := Entity {
  e_text : option str;
  e_type : option str;
  e_canonical : option str
}.

Record alias_group := AliasGroup {
  ag_canonical : option str;
  ag_type : option str;
  ag_aliases : option (list str)
}.

(** The only key of [pass1_result] that [execute_replacement] reads. *)
Record pass1 := Pass1 { p1_aliases : option (list alias_group) }.

Record group_info := GroupInfo {
  g_type : str;
  g_texts : list str;
  g_aliases : list str
}.

Record placeholder_info := PlaceholderInfo {
  pi_value : option str;
  pi_type : str;
  pi_aliases : list str
}.

Record log_entry := LogEntry {
  placeholder : str;
  original_text : str;
  position : Z;
  context_before : str;
  context_after : str
}.

Record metadata := Metadata {
  created_at : str;
  source_file : str;
  entity_count : nat
}.

Record mapping := Mapping {
  m_metadata : option metadata;
  m_mappings : option (list (str * placeholder_info));
  m_replacement_log : option (list log_entry)
}.

Definition get (A : Type) (o : option A) (default : A) : A :=
  match o with Some x => x | None => default end.

(** ** [execute_replacement], step 1: canonical groups *)

Definition add_text (t : str) (g : group_info) : group_info :=
  GroupInfo (g_type g) (set_add t (g_texts g)) (g_aliases g).

Definition add_alias (a : str) (g : group_info) : group_info :=
  GroupInfo (g_type g) (set_add a (g_texts g)) (g_aliases g ++ [a]).

(** Body of [for entity in entities]. *)
Definition add_entity (canonical_groups : list (str * group_info)) (e : entity)
  : list (str * group_info) :=
  let entity_text := strip (get (e_text e) []) in
  let entity_type := get (e_type e) (chars "unknown") in
  let canonical := strip (get (e_canonical e) []) in
  if negb (is_nonempty entity_text) then canonical_groups
  else
    let group_key := if is_nonempty canonical then canonical else entity_text in
    let groups1 :=
      if assoc_mem group_key canonical_groups then canonical_groups
      else canonical_groups ++ [(group_key, GroupInfo entity_type [] [])] in
    let groups2 := assoc_update group_key (add_text entity_text) groups1 in
    if is_nonempty canonical
    then assoc_update group_key (add_text canonical) groups2
    else groups2.

(** Body of [for alias_group in pass1_result.get("aliases", [])]. *)
Definition add_alias_group (canonical_groups : list (str * group_info))
  (ag : alias_group) : list (str * group_info) :=
  let canonical := get (ag_canonical ag) [] in
  if assoc_mem canonical canonical_groups
  then fold_left (fun gs alias => assoc_update canonical (add_alias alias) gs)
         (get (ag_aliases ag) []) canonical_groups
  else canonical_groups.

Definition build_groups (entities : list entity) (pass1_result : pass1)
  : list (str * group_info) :=
  fold_left add_alias_group (get (p1_aliases pass1_result) [])
    (fold_left add_entity entities []).

(** ** Step 1, continued: numbered placeholders *)

Record assign_state := AssignState {
  type_counters : list (str * nat);
  placeholder_map : list (str * placeholder_info);
  text_to_placeholder : list (str * str)
}.

Definition make_placeholder (entity_type : str) (n : nat) : str :=
  chars "{" ++ (entity_type ++ chars "_" ++ str_of_nat n) ++ chars "}".

(** The counter update and the placeholder string of one group. *)
Definition bump_counter (entity_type : str) (counters : list (str * nat))
  : list (str * nat) :=
  match assoc_get entity_type counters with
  | None => assoc_set entity_type 1 counters
  | Some n => assoc_set entity_type (n + 1) counters
  end.

Definition group_placeholder (counters : list (str * nat)) (info : group_info)
  : str :=
  let entity_type := upper (g_type info) in
  make_placeholder entity_type
    (get (assoc_get entity_type (bump_counter entity_type counters)) 0).

Section Anonymizer.

(** Iteration order of a set, given its elements in insertion order. *)
Variable set_iter : list str -> list str.

(** Body of [for canonical, group_info in canonical_groups.items()]. *)
Definition assign_group (st : assign_state) (kv : str * group_info)
  : assign_state :=
  let '(canonical, info) := kv in
  let entity_type := upper (g_type info) in
  let ph := group_placeholder (type_counters st) info in
  let pmap :=
    assoc_set ph
      (PlaceholderInfo (Some canonical) (g_type info)
         (set_iter (set_remove canonical (g_texts info))))
      (placeholder_map st) in
  let t2p :=
    fold_left (fun m t => assoc_set t ph m) (set_iter (g_texts info))
      (text_to_placeholder st) in
  AssignState (bump_counter entity_type (type_counters st)) pmap t2p.

Definition assign_placeholders (canonical_groups : list (str * group_info))
  : assign_state :=
  fold_left assign_group canonical_groups (AssignState [] [] []).

End Anonymizer.

(** ** Step 2: longest-first substitution *)

(** [sorted(xs, key=key, reverse=True)]: a stable sort, largest key first. *)
Fixpoint insert_desc (A : Type) (key : A -> Z) (x : A) (l : list A) : list A :=
  match l with
  | [] => [x]
  | y :: l' =>
      if (key x <? key y)%Z then y :: insert_desc key x l' else x :: l
  end.

Definition sorted_desc (A : Type) (key : A -> Z) (l : list A) : list A :=
  fold_right (insert_desc key) [] l.

Definition len_key (s : str) : Z := Z.of_nat (length s).

(** One iteration of the body of [while True] after a hit at [pos]. *)
Definition replace_at (entity_text ph : str) (pos : nat)
  (st : str * list log_entry) : str * list log_entry :=
  let '(anonymized_text, replacement_log) := st in
  let context_before := slice (pos - 40) pos anonymized_text in
  let context_after :=
    slice (pos + length entity_text) (pos + length entity_text + 40)
      anonymized_text in
  (firstn pos anonymized_text ++ ph
     ++ skipn (pos + length entity_text) anonymized_text,
   replacement_log
     ++ [LogEntry ph entity_text (Z.of_nat pos) context_before context_after]).

(** The [while True] loop for one literal, from cursor [search_start]. *)
Fixpoint replace_loop (fuel : nat) (entity_text ph : str)
  (st : str * list log_entry) (search_start : nat)
  : option (str * list log_entry) :=
  match fuel with
  | O => None
  | S fuel' =>
      match find entity_text (fst st) search_start with
      | None => Some st
      | Some pos =>
          replace_loop fuel' entity_text ph (replace_at entity_text ph pos st)
            (pos + length ph)
      end
  end.

(** Body of [for entity_text in sorted_texts]. *)
Definition replace_literal (text_to_ph : list (str * str))
  (st : option (str * list log_entry)) (entity_text : str)
  : option (str * list log_entry) :=
  match st with
  | None => None
  | Some s =>
      replace_loop (S (length (fst s))) entity_text
        (get (assoc_get entity_text text_to_ph) []) s 0
  end.

Definition substitute (text_to_ph : list (str * str)) (text : str)
  : option (str * list log_entry) :=
  fold_left (replace_literal text_to_ph)
    (sorted_desc len_key (map fst text_to_ph)) (Some (text, [])).

Definition execute_replacement (set_iter : list str -> list str)
  (now : str) (text : str) (entities : list entity) (pass1_result : pass1)
  (source_filename : str) : option (str * mapping) :=
  let canonical_groups := build_groups entities pass1_result in
  let st := assign_placeholders set_iter canonical_groups in
  match substitute (text_to_placeholder st) text with
  | None => None
  | Some (anonymized_text, replacement_log) =>
      Some (anonymized_text,
            Mapping
              (Some (Metadata now source_filename (length canonical_groups)))
              (Some (placeholder_map st))
              (Some replacement_log))
  end.

(** ** Placeholder tokens: the pattern [\{[A-Z]+_\d+\}] *)

Definition is_upper_letter (c : ascii) : bool :=
  let n := nat_of_ascii c in (65 <=? n) && (n <=? 90).

Definition is_digit (c : ascii) : bool :=
  let n := nat_of_ascii c in (48 <=? n) && (n <=? 57).

Definition lbrace : ascii := "{"%char.
Definition rbrace : ascii := "}"%char.
Definition underscore : ascii := "_"%char.

Fixpoint count_while (p : ascii -> bool) (s : str) : nat :=
  match s with
  | c :: s' => if p c then S (count_while p s') else 0
  | [] => 0
  end.

(** Length of the match of the pattern at the head of [s], if there is one.
    Both repetitions are greedy; the character that follows each of them is
    outside its class, so giving characters back never helps. *)
Definition match_token (s : str) : option nat :=
  match s with
  | c :: r =>
      if Ascii.eqb c lbrace then
        let n1 := count_while is_upper_letter r in
        if n1 =? 0 then None
        else
          match skipn n1 r with
          | u :: r2 =>
              if Ascii.eqb u underscore then
                let n2 := count_while is_digit r2 in
                if n2 =? 0 then None
                else
                  match skipn n2 r2 with
                  | b :: _ =>
                      if Ascii.eqb b rbrace then Some (n1 + n2 + 3) else None
                  | [] => None
                  end
              else None
          | [] => None
          end
      else None
  | [] => None
  end.

(** [re.finditer]: non-overlapping matches, left to right, as
    [(match.start(), match.group())]; [skip] characters of the last match
    are still to be passed over. *)
Fixpoint finditer_from (pos skip : nat) (s : str) : list (nat * str) :=
  match s with
  | [] => []
  | _ :: s' =>
      match skip with
      | S k => finditer_from (S pos) k s'
      | O =>
          match match_token s with
          | Some n => (pos, firstn n s) :: finditer_from (S pos) (n - 1) s'
          | None => finditer_from (S pos) 0 s'
          end
      end
  end.

Definition finditer (s : str) : list (nat * str) := finditer_from 0 0 s.

(** ** [restore_by_position] (step A) *)

(** The window search of one record: [actual_pos], when the placeholder is
    found. *)
Definition find_in_window (text : str) (entry : log_entry) : option nat :=
  let search_start := Z.max 0 (position entry - 50) in
  let search_end :=
    Z.min (Z.of_nat (length text))
      (position entry + Z.of_nat (length (placeholder entry)) + 50) in
  let search_region := py_slice text search_start search_end in
  match find0 (placeholder entry) search_region with
  | Some local_pos => Some (Z.to_nat search_start + local_pos)
  | None => None
  end.

(** Body of [for entry in sorted_log]. *)
Definition position_step (st : str * nat * nat) (entry : log_entry)
  : str * nat * nat :=
  let '(text, matched_count, unmatched_count) := st in
  match find_in_window text entry with
  | Some actual_pos =>
      (firstn actual_pos text ++ original_text entry
         ++ skipn (actual_pos + length (placeholder entry)) text,
       S matched_count, unmatched_count)
  | None => (text, matched_count, S unmatched_count)
  end.

Definition restore_by_position (text : str) (replacement_log : list log_entry)
  : str * nat * nat :=
  let sorted_log := sorted_desc position replacement_log in
  fold_left position_step sorted_log (text, 0, 0).

(** ** [restore_by_context] (step B) *)

(** Similarity scores: [ratio] is [SequenceMatcher(None, a, b).ratio()],
    [mean a b] is [(a + b) / 2], [score_gt a b] is [a > b]. *)
Class Scoring := {
  score : Type;
  ratio : str -> str -> score;
  mean : score -> score -> score;
  score_gt : score -> score -> bool;
  score_zero : score;
  score_half : score
}.

(** What the proofs about the selection need of [>]. *)
Record ScoringOrder (SC : Scoring) : Prop := {
  gt_irrefl : forall a, score_gt a a = false;
  gt_trans : forall a b c,
    score_gt a b = true -> score_gt b c = true -> score_gt a c = true;
  gt_le_trans : forall a b c,
    score_gt a b = true -> score_gt c b = false -> score_gt a c = true
}.

Section Restoration.

Context {SC : Scoring}.

Definition total_score (current_before current_after : str)
  (entry : log_entry) : score :=
  mean (ratio current_before (context_before entry))
       (ratio current_after (context_after entry)).

(** Body of [for entry in replacement_log]. *)
Definition candidate_step (placeholder_text current_before current_after : str)
  (best : score * option log_entry) (entry : log_entry)
  : score * option log_entry :=
  if negb (str_eqb (placeholder entry) placeholder_text) then best
  else
    let total := total_score current_before current_after entry in
    if score_gt total (fst best) then (total, Some entry) else best.

Definition best_candidate (replacement_log : list log_entry)
  (placeholder_text current_before current_after : str)
  : score * option log_entry :=
  fold_left (candidate_step placeholder_text current_before current_after)
    replacement_log (score_zero, None).

Definition current_before_of (text : str) (pos : nat) : str :=
  slice (pos - 40) pos text.

Definition current_after_of (text : str) (pos : nat) (placeholder_text : str)
  : str :=
  slice (pos + length placeholder_text) (pos + length placeholder_text + 40)
    text.

(** Body of [for match in reversed(remaining_placeholders)]. *)
Definition context_step (replacement_log : list log_entry) (st : str * nat)
  (m : nat * str) : str * nat :=
  let '(text, context_matched) := st in
  let '(pos, placeholder_text) := m in
  let current_before := current_before_of text pos in
  let current_after := current_after_of text pos placeholder_text in
  match best_candidate replacement_log placeholder_text
          current_before current_after with
  | (best_score, Some best_entry) =>
      if score_gt best_score score_half then
        (firstn pos text ++ original_text best_entry
           ++ skipn (pos + length placeholder_text) text,
         S context_matched)
      else st
  | (_, None) => st
  end.

Definition restore_by_context (text : str) (replacement_log : list log_entry)
  : str * nat :=
  let remaining_placeholders := finditer text in
  match remaining_placeholders with
  | [] => (text, 0)
  | _ => fold_left (context_step replacement_log)
           (rev remaining_placeholders) (text, 0)
  end.

End Restoration.

(** ** [restore_by_canonical] (step C) *)

(** Body of [for match in reversed(remaining)]. *)
Definition canonical_step (mappings : list (str * placeholder_info))
  (st : str * nat) (m : nat * str) : str * nat :=
  let '(text, fallback_count) := st in
  let '(pos, placeholder_text) := m in
  match assoc_get placeholder_text mappings with
  | Some info =>
      let canonical_name := get (pi_value info) placeholder_text in
      (firstn pos text ++ canonical_name
         ++ skipn (pos + length placeholder_text) text,
       S fallback_count)
  | None => st
  end.

Definition restore_by_canonical (text : str)
  (mappings : list (str * placeholder_info)) : str * nat :=
  fold_left (canonical_step mappings) (rev (finditer text)) (text, 0).

(** ** [run_deanonymize] *)

Record stats := Stats {
  position_matched : nat;
  context_matched : nat;
  fallback_count : nat;
  remaining_placeholders : nat;
  total_in_log : nat
}.

Definition run_deanonymize {SC : Scoring} (text : str) (m : mapping)
  : str * stats :=
  let replacement_log := get (m_replacement_log m) [] in
  let mappings := get (m_mappings m) [] in
  let '(text1, position_matched, position_unmatched) :=
    restore_by_position text replacement_log in
  let '(text2, context_matched) := restore_by_context text1 replacement_log in
  let '(text3, fallback_count) := restore_by_canonical text2 mappings in
  let remaining := length (finditer text3) in
  (text3,
   Stats position_matched context_matched fallback_count remaining
     (length replacement_log)).

(** * Vocabulary of the statements *)

(** Occurrence of [sub] inside [s]. *)
Definition infix (sub s : str) : Prop := exists a b, s = a ++ sub ++ b.

(** The strings the pattern matches. *)
Definition is_token (t : str) : Prop :=
  exists U D,
    t = lbrace :: U ++ underscore :: D ++ [rbrace]
    /\ U <> [] /\ forallb is_upper_letter U = true
    /\ D <> [] /\ forallb is_digit D = true.

(** [l] occurs in [s] at offset [k]. *)
Definition occurs_at (l : str) (k : nat) (s : str) : Prop :=
  k + length l <= length s /\ firstn (length l) (skipn k s) = l.

(** Neither brace is a character of [l]. *)
Definition brace_free (l : str) : bool :=
  negb (existsb (Ascii.eqb lbrace) l) && negb (existsb (Ascii.eqb rbrace) l).

(** [l in s] *)
Definition infixb (l s : str) : bool :=
  match find0 l s with Some _ => true | None => false end.

(** What every placeholder id is by construction: text between braces. *)
Definition shaped (ph : str) : Prop :=
  exists mid, ph = lbrace :: mid ++ [rbrace].

(** The hypothesis under which no literal can survive: no literal has a
    brace, and none occurs inside a placeholder id. *)
Definition literals_safe (flat : list (str * str)) : bool :=
  forallb
    (fun l =>
       brace_free l
       && forallb (fun ph => negb (infixb l ph)) (map snd flat))
    (map fst flat).

(** The pattern matches the whole of [ph]. *)
Definition is_tokenb (ph : str) : bool :=
  match match_token ph with
  | Some n => n =? length ph
  | None => false
  end.

(** Left-to-right replacement of the non-overlapping occurrences of [l] in
    [s], the search resuming after each replaced occurrence. *)
Fixpoint replace_all (fuel : nat) (l ph s : str) : str :=
  match fuel with
  | O => s
  | S fuel' =>
      match find0 l s with
      | None => s
      | Some i =>
          firstn i s ++ ph ++ replace_all fuel' l ph (skipn (i + length l) s)
      end
  end.


(** The list [sorted_texts] of [execute_replacement]. *)
Definition sorted_texts (set_iter : list str -> list str)
  (entities : list entity) (pass1_result : pass1) : list str :=
  sorted_desc len_key
    (map fst (text_to_placeholder
                (assign_placeholders set_iter
                   (build_groups entities pass1_result)))).

(** The text in the state of step A. *)
Definition text_of (st : str * nat * nat) : str := fst (fst st).

(** The loop invariant of [for entry in replacement_log], after the records
    [seen]. *)
Definition best_inv {SC : Scoring}
  (placeholder_text current_before current_after : str)
  (seen : list log_entry) (best : score * option log_entry) : Prop :=
  (forall c, In c seen -> placeholder c = placeholder_text ->
     score_gt (total_score current_before current_after c) (fst best) = false)
  /\ match snd best with
     | None => fst best = score_zero
     | Some e =>
         exists l1 l2,
           seen = l1 ++ e :: l2 /\ placeholder e = placeholder_text
           /\ fst best = total_score current_before current_after e
           /\ score_gt (total_score current_before current_after e)
                score_zero = true
           /\ forall c, In c l1 -> placeholder c = placeholder_text ->
                score_gt (total_score current_before current_after e)
                  (total_score current_before current_after c) = true
     end.

(** A text cut at its matches: each pair is the gap before a token and the
    token; [rebuild f] writes [f t] in place of each token [t]. *)
Fixpoint rebuild (f : str -> str) (segs : list (str * str)) (tail : str) : str :=
  match segs with
  | [] => tail
  | (g, t) :: r => g ++ f t ++ rebuild f r tail
  end.

(** The matches of a text cut at its matches, the text starting at offset
    [pos]. *)
Fixpoint positions_of (pos : nat) (segs : list (str * str)) : list (nat * str) :=
  match segs with
  | [] => []
  | (g, t) :: r =>
      (pos + length g, t) :: positions_of (pos + length g + length t) r
  end.

(** [rebuild same] gives the text back. *)
Definition same (t : str) : str := t.

(** One more character in front of a text cut at its matches. *)
Definition push_char (c : ascii) (segs : list (str * str)) (tail : str)
  : list (str * str) * str :=
  match segs with
  | [] => ([], c :: tail)
  | (g, t) :: r => ((c :: g, t) :: r, tail)
  end.

(** What step C writes in place of a token. *)
Definition canonical_name_of (mappings : list (str * placeholder_info))
  (t : str) : str :=
  match assoc_get t mappings with
  | Some info => get (pi_value info) t
  | None => t
  end.

(** The id of the match is a key of [mappings]. *)
Definition known (mappings : list (str * placeholder_info)) (m : nat * str)
  : bool := assoc_mem (snd m) mappings.

(** One substitution site: the untouched text before it, its log record, and
    whether the original text has been put back. *)
Record seg := Seg { gap : str; entry : log_entry; restored : bool }.

(** What the running text shows at a site. *)
Definition shown (s : seg) : str :=
  if restored s then original_text (entry s) else placeholder (entry s).

(** The running text: gaps and sites in order, then the rest of the
    document. *)
Fixpoint render (segs : list seg) (tail : str) : str :=
  match segs with
  | [] => tail
  | s :: r => gap s ++ shown s ++ render r tail
  end.

(** Every site showing its original text: the document. *)
Definition restore_all (segs : list seg) : list seg :=
  map (fun s => Seg (gap s) (entry s) true) segs.

(** The sites without their state. *)
Definition layout (segs : list seg) : list (str * log_entry) :=
  map (fun s => (gap s, entry s)) segs.

(** Each recorded position lies between the offsets the site has when the
    sites before it show the shorter, respectively the longer, of
    placeholder and original text. *)
Fixpoint bounds_ok (lo hi : nat) (lay : list (str * log_entry)) : Prop :=
  match lay with
  | [] => True
  | (g, e) :: r =>
      (Z.of_nat (lo + length g) <= position e <= Z.of_nat (hi + length g))%Z
      /\ bounds_ok
           (lo + length g
            + Nat.min (length (placeholder e)) (length (original_text e)))
           (hi + length g
            + Nat.max (length (placeholder e)) (length (original_text e)))
           r
  end.

(** The site of a new substitution at offset [pos] of the rendered text. *)
Fixpoint insert_seg (pos : nat) (e : log_entry) (segs : list seg) (tail : str)
  : list seg * str :=
  match segs with
  | [] =>
      ([Seg (firstn pos tail) e false],
       skipn (pos + length (original_text e)) tail)
  | s :: r =>
      if pos + length (original_text e) <=? length (gap s)
      then (Seg (firstn pos (gap s)) e false
              :: Seg (skipn (pos + length (original_text e)) (gap s))
                   (entry s) (restored s)
              :: r,
            tail)
      else
        let '(r', tail') :=
          insert_seg (pos - length (gap s) - length (shown s)) e r tail in
        (s :: r', tail')
  end.

(** The sites already there are unrestored, and [l] is no part of their
    placeholders. *)
Definition insertable (l : str) (segs : list seg) : Prop :=
  Forall (fun s => restored s = false /\ shaped (placeholder (entry s))
                   /\ forall j, ~ occurs_at l j (placeholder (entry s)))
    segs.

(** The running text is the document with some literal occurrences replaced
    by their placeholders, one log record per replaced occurrence, each
    recorded position within its bounds. *)
Definition sub_inv (flat : list (str * str)) (D : str)
  (st : str * list log_entry) : Prop :=
  exists segs tail,
    fst st = render segs tail
    /\ D = render (restore_all segs) tail
    /\ Permutation (map entry segs) (snd st)
    /\ Forall (fun s => restored s = false) segs
    /\ bounds_ok 0 0 (layout segs)
    /\ Forall (fun e => In (original_text e) (map fst flat)
                        /\ In (placeholder e) (map snd flat))
         (map entry segs).

(** The offsets of the sites of a rendered text that starts at offset
    [pos], each with its record. *)
Fixpoint site_offsets (pos : nat) (segs : list seg) : list (nat * log_entry) :=
  match segs with
  | [] => []
  | s :: r =>
      (pos + length (gap s), entry s)
      :: site_offsets (pos + length (gap s) + length (shown s)) r
  end.

(** The placeholders of [sites] stand in [T] side by side: each at its
    offset, which is not before [from], and the next one not before its
    end. *)
Fixpoint side_by_side (from : nat) (sites : list (nat * log_entry)) (T : str)
  : Prop :=
  match sites with
  | [] => True
  | (k, e) :: r =>
      from <= k /\ occurs_at (placeholder e) k T
      /\ side_by_side (k + length (placeholder e)) r T
  end.












(** * Data of the worked examples *)

(** An entity mention as the classifier gives it. *)
Definition ent (t ty c : string) : entity :=
  Entity (Some (chars t)) (Some (chars ty)) (Some (chars c)).

(** Two admissible iteration orders of a set. *)
Definition iter_insertion (l : list str) : list str := l.


(** A stand-in similarity for running the examples: 1 for equal strings,
    0 otherwise, with scores counted in halves (so [score_half] is 1 and the
    mean of two ratios is their sum). *)
Definition toy_scoring : Scoring := {|
  score := nat;
  ratio := fun a b => if str_eqb a b then 2 else 0;
  mean := fun a b => Nat.div (a + b) 2;
  score_gt := fun a b => Nat.ltb b a;
  score_zero := 0;
  score_half := 1
|}.

Definition ex_contact_doc : str :=
  chars "John Smith signed. Contact: john@x.com.".

Definition ex_contact_entities : list entity :=
  [ent "John Smith" "person" ""; ent "john@x.com" "email" ""].

Definition ex_alias_doc : str := chars "Acme Corp (the Seller) agrees.".

Definition ex_alias_entities : list entity :=
  [ent "Acme Corp" "company" ""; ent "Seller" "company" "Acme Corp"].



Definition ex_two_tokens : str := chars "{COMPANY_1} (the {COMPANY_1}) agrees.".

Definition ex_alias_record : log_entry :=
  LogEntry (chars "{COMPANY_1}") (chars "Seller") 17
    (chars "{COMPANY_1} (the ") (chars ") agrees.").

Definition ex_tok : str := chars "{PERSON_1}".

Definition ex_letter : str := chars "Dear {PERSON_1},".

Definition ex_first : log_entry :=
  LogEntry ex_tok (chars "John") 5 (chars "Dear ") (chars ",").

Definition ex_second : log_entry :=
  LogEntry ex_tok (chars "Johnny") 40 (chars "Dear ") (chars ",").

Definition ex_street_entities : list entity :=
  [ent "John Smith" "person" ""; ent "1" "number" ""].

Definition ex_flat : list (str * str) := [(chars "ab", chars "{X_1}")].

Definition ex_blank : entity :=
  Entity (Some (chars "   ")) (Some (chars "person")) None.









Definition ex_corp_group : str * group_info :=
  (chars "Acme Corp",
   GroupInfo (chars "company") [chars "Acme"; chars "Acme Corp"] []).

Definition ex_ltd_group : str * group_info :=
  (chars "Acme Ltd",
   GroupInfo (chars "company") [chars "Acme"; chars "Acme Ltd"] []).

(** * The functions around the engine

    [core/anonymizer.py]: [_split_into_segments], [_build_alias_context],
    [run_second_pass], [_link_aliases]; [core/section_detector.py]:
    [detect_key_sections], [_fallback_extraction]; [core/file_handler.py]:
    [build_replacement_pairs] and the paragraph replacement of
    [apply_replacements_to_docx].

    Further modelling choices.
    - The language model behind [call_llm] is a parameter: [scan_segment]
      gives, for each call of [run_second_pass], the list parsed from the
      answer, or [None] when the call or the parsing raises or the answer is
      not a list.  The de-duplication loop that follows is not protected by a
      [try]: [run_second_pass] returns an [option], [None] when it raises.
    - The keyword list of the section detector is a parameter [KEYWORDS];
      the products [int(total_len * 0.15)] and [int(total_len * 0.90)],
      computed in double precision, are the parameters [front_end_of] and
      [back_start_of].
    - The character class of the sentence splitter is restricted to its
      members in the modelled character range. *)

(** ** More of Python's strings *)

Definition newline : ascii := ascii_of_nat 10.

(** [sep.join(parts)] *)
Fixpoint join (sep : str) (parts : list str) : str :=
  match parts with
  | [] => []
  | p :: rest =>
      match rest with
      | [] => p
      | _ :: _ => p ++ sep ++ join sep rest
      end
  end.

(** [s.split(sep)] for a separator of one character. *)
Fixpoint str_split (sep : ascii) (s : str) : list str :=
  match s with
  | [] => [[]]
  | c :: s' =>
      if Ascii.eqb c sep then [] :: str_split sep s'
      else
        match str_split sep s' with
        | p :: ps => (c :: p) :: ps
        | [] => [[c]]
        end
  end.

(** [s.replace(old, new)] for a non-empty [old]: [skip] characters of the
    last occurrence are still to be passed over. *)
Fixpoint replace_from (old new : str) (skip : nat) (s : str) : str :=
  match s with
  | [] => []
  | c :: s' =>
      match skip with
      | S k => replace_from old new k s'
      | O =>
          if prefixb old s
          then new ++ replace_from old new (length old - 1) s'
          else c :: replace_from old new 0 s'
      end
  end.

(** [s.replace(old, new)]; an empty [old] matches before every character and
    at the end. *)
Definition str_replace (old new s : str) : str :=
  match old with
  | [] => new ++ flat_map (fun c => c :: new) s
  | _ :: _ => replace_from old new 0 s
  end.

(** [enumerate(l)] *)
Definition enumerate (A : Type) (l : list A) : list (nat * A) :=
  combine (seq 0 (length l)) l.

(** ** [_link_aliases] *)

(** Truth value of [entity.get("canonical")]. *)
Definition truthy (o : option str) : bool :=
  match o with
  | Some s => is_nonempty s
  | None => false
  end.

(** [[canonical] + aliases] *)
Definition all_names (ag : alias_group) : list str :=
  get (ag_canonical ag) [] :: get (ag_aliases ag) [].

(** [entity.get("text") in all_names] *)
Definition text_in (text : option str) (names : list str) : bool :=
  match text with
  | Some t => mem_str t names
  | None => false
  end.

(** The loop [for alias_group in pass1_result.get("aliases", [])], left at
    the first group that lists the entity's text. *)
Fixpoint link_in_groups (e : entity) (groups : list alias_group) : entity :=
  match groups with
  | [] => e
  | ag :: rest =>
      if text_in (e_text e) (all_names ag)
      then Entity (e_text e) (e_type e) (Some (get (ag_canonical ag) []))
      else link_in_groups e rest
  end.

(** Body of [for entity in entities]. *)
Definition link_entity (pass1_result : pass1) (e : entity) : entity :=
  if truthy (e_canonical e) then e
  else link_in_groups e (get (p1_aliases pass1_result) []).

(** The entity list after the call (the function updates it in place). *)
Definition _link_aliases (entities : list entity) (pass1_result : pass1)
  : list entity :=
  map (link_entity pass1_result) entities.

(** ** [_build_alias_context] *)

(** Body of [for alias_group in pass1_result.get("aliases", [])]. *)
Definition alias_line (ag : alias_group) : str :=
  let canonical := get (ag_canonical ag) [] in
  let aliases := get (ag_aliases ag) [] in
  let entity_type := get (ag_type ag) [] in
  let alias_str :=
    match aliases with
    | [] => chars "none"
    | _ :: _ => join (chars ", ") aliases
    end in
  chars "- " ++ canonical ++ chars " (type: " ++ entity_type ++ chars ") = "
    ++ alias_str.

Definition _build_alias_context (pass1_result : pass1) : str :=
  let lines := map alias_line (get (p1_aliases pass1_result) []) in
  match lines with
  | [] => chars "(no known entity definitions)"
  | _ :: _ => join [newline] lines
  end.

(** ** [_split_into_segments] *)

(** The members of the class [[。.！!？?]] in the modelled range. *)
Definition is_sentence_end (c : ascii) : bool :=
  Ascii.eqb c "."%char || Ascii.eqb c "!"%char || Ascii.eqb c "?"%char.

(** [re.split(r"(?<=[。.！!？?])\s*", s)]: the pattern matches right after a
    mark and takes the white space that follows, so a piece ends with its
    mark and the white space after the mark is dropped; [after_mark] tells
    that the last character read was a mark or white space dropped after
    one. *)
Fixpoint split_sentences (after_mark : bool) (s : str) : list str :=
  match s with
  | [] => [[]]
  | c :: s' =>
      if after_mark && is_space c then split_sentences true s'
      else if is_sentence_end c then [c] :: split_sentences true s'
      else
        match split_sentences false s' with
        | p :: ps => (c :: p) :: ps
        | [] => [[c]]
        end
  end.

(** Body of [for sentence in sentences]. *)
Definition add_sentence (max_chars : nat) (st : list str * str)
  (sentence : str) : list str * str :=
  let '(segments, temp) := st in
  if (max_chars <? length temp + length sentence) && is_nonempty temp
  then (segments ++ [strip temp], sentence)
  else (segments, temp ++ sentence).

(** Body of [for paragraph in paragraphs]. *)
Definition add_paragraph (max_chars : nat) (st : list str * str)
  (paragraph : str) : list str * str :=
  let '(segments, current_segment) := st in
  if max_chars <? length paragraph then
    let '(segments1, current_segment1) :=
      if is_nonempty (strip current_segment)
      then (segments ++ [strip current_segment], [])
      else (segments, current_segment) in
    let sentences := split_sentences false paragraph in
    let '(segments2, temp) :=
      fold_left (add_sentence max_chars) sentences (segments1, []) in
    let segments3 :=
      if is_nonempty (strip temp) then segments2 ++ [strip temp]
      else segments2 in
    (segments3, current_segment1)
  else
    let '(segments1, current_segment1) :=
      if (max_chars <? length current_segment + length paragraph + 1)
         && is_nonempty (strip current_segment)
      then (segments ++ [strip current_segment], [])
      else (segments, current_segment) in
    (segments1, current_segment1 ++ paragraph ++ [newline]).

Definition _split_into_segments (text : str) (max_chars : nat) : list str :=
  let paragraphs := str_split newline text in
  let '(segments, current_segment) :=
    fold_left (add_paragraph max_chars) paragraphs ([], []) in
  if is_nonempty (strip current_segment)
  then segments ++ [strip current_segment]
  else segments.

(** ** [run_second_pass] *)

(** [(entity.get("text", ""), entity.get("type", ""))] *)
Definition entity_key (e : entity) : str * str :=
  (get (e_text e) [], get (e_type e) []).

Definition key_eqb (a b : str * str) : bool :=
  str_eqb (fst a) (fst b) && str_eqb (snd a) (snd b).

(** An item of a parsed answer, as the de-duplication loop meets it.
    [Fields e] is a JSON object whose "text", "type" and "canonical" are
    strings where they are present.  [NoFields] is a value on which the body
    of the loop raises: a value that is no object ([entity.get] fails), an
    object whose "text" is present and is no string (its key is in no set of
    keys with a string text, so [.strip()] is called and fails, or hashing
    the key fails), or an object whose "type" is a list or an object (hashing
    the key fails).  Objects with a string "text" and a "type" or "canonical"
    that is null, a number or a boolean are not modelled. *)
Inductive item :=
| Fields (e : entity)
| NoFields.

(** Body of [for entity in all_entities]; the loop is outside the [try]
    block, so an exception leaves [run_second_pass]: [None]. *)
Definition dedup_step (st : option (list (str * str) * list entity))
  (it : item) : option (list (str * str) * list entity) :=
  match st with
  | None => None
  | Some (seen, unique_entities) =>
      match it with
      | NoFields => None
      | Fields e =>
          let key := entity_key e in
          if negb (existsb (key_eqb key) seen)
             && is_nonempty (strip (get (e_text e) []))
          then Some (seen ++ [key], unique_entities ++ [e])
          else Some (seen, unique_entities)
      end
  end.

Section SecondPass.

(** [scan_segment i alias_context segment]: what the [try] block of the
    [i]-th iteration yields. *)
Variable scan_segment : nat -> str -> str -> option (list item).

(** Body of [for i, segment in enumerate(segments)]. *)
Definition scan_step (alias_context : str) (all_entities : list item)
  (iseg : nat * str) : list item :=
  match scan_segment (fst iseg) alias_context (snd iseg) with
  | Some entities => all_entities ++ entities
  | None => all_entities
  end.

(** The returned list, or [None] when the call raises. *)
Definition run_second_pass (text : str) (pass1_result : pass1)
  : option (list entity) :=
  let segments := _split_into_segments text (100 * 100) in
  let alias_context := _build_alias_context pass1_result in
  let all_entities :=
    fold_left (scan_step alias_context) (enumerate segments) [] in
  match fold_left dedup_step all_entities (Some ([], [])) with
  | Some (_, unique_entities) =>
      Some (_link_aliases unique_entities pass1_result)
  | None => None
  end.

End SecondPass.

(** ** [detect_key_sections] *)

(** [s.add(i)] on the insertion-ordered representation of a set of
    integers. *)
Definition add_index (i : nat) (s : list nat) : list nat :=
  if existsb (Nat.eqb i) s then s else s ++ [i].

(** [sorted(l)] for integers. *)
Definition sorted_asc (l : list nat) : list nat :=
  sorted_desc (fun i => (- Z.of_nat i)%Z) l.

Section KeySections.

Variable KEYWORDS : list str.

(** Iteration order of a set of integers, given its elements in insertion
    order. *)
Variable index_iter : list nat -> list nat.

(** [int(total_len * 0.15)] and [int(total_len * 0.90)] *)
Variables front_end_of back_start_of : nat -> nat.

Definition _fallback_extraction (text : str) : str :=
  let total_len := length text in
  let front_end := front_end_of total_len in
  let back_start := back_start_of total_len in
  let front_part := firstn front_end text in
  let back_part := skipn back_start text in
  front_part ++ ([newline; newline] ++ chars "..." ++ [newline; newline])
    ++ back_part.

(** [[p.strip() for p in text.split("\n") if p.strip()]] *)
Definition paragraphs_of (text : str) : list str :=
  map strip
    (filter (fun p => is_nonempty (strip p)) (str_split newline text)).

(** The loop [for keyword in KEYWORDS], left at the first hit. *)
Definition has_keyword (paragraph : str) : bool :=
  existsb (fun keyword => infixb keyword paragraph) KEYWORDS.

(** Body of [for i, paragraph in enumerate(paragraphs)]. *)
Definition match_step (matched_indices : list nat) (ip : nat * str)
  : list nat :=
  if has_keyword (snd ip) then add_index (fst ip) matched_indices
  else matched_indices.

(** Body of [for idx in matched_indices]. *)
Definition select_step (n : nat) (selected_indices : list nat) (idx : nat)
  : list nat :=
  fold_left
    (fun sel offset =>
       let target := (Z.of_nat idx + offset)%Z in
       if (0 <=? target)%Z && (target <? Z.of_nat n)%Z
       then add_index (Z.to_nat target) sel
       else sel)
    [-2; -1; 0; 1; 2]%Z selected_indices.

Definition detect_key_sections (text : str) : str :=
  let paragraphs := paragraphs_of text in
  match paragraphs with
  | [] => text
  | _ :: _ =>
      let matched_indices :=
        fold_left match_step (enumerate paragraphs) [] in
      if length matched_indices <? 3 then _fallback_extraction text
      else
        let selected_indices :=
          fold_left (select_step (length paragraphs))
            (index_iter matched_indices) [] in
        let selected_paragraphs :=
          map (fun i => nth i paragraphs [])
            (sorted_asc (index_iter selected_indices)) in
        join [newline; newline] selected_paragraphs
  end.

End KeySections.

(** ** [build_replacement_pairs] *)

(** Body of [for placeholder, info in mappings.items()]. *)
Definition pair_step (reverse : bool) (pairs : list (str * str))
  (kv : str * placeholder_info) : list (str * str) :=
  let '(placeholder, info) := kv in
  let value := get (pi_value info) [] in
  if reverse then assoc_set placeholder value pairs
  else
    let pairs1 :=
      if is_nonempty value then assoc_set value placeholder pairs
      else pairs in
    fold_left
      (fun ps alias =>
         if is_nonempty alias then assoc_set alias placeholder ps else ps)
      (pi_aliases info) pairs1.

Definition build_replacement_pairs (mapping_data : mapping) (reverse : bool)
  : list (str * str) :=
  let pairs :=
    fold_left (pair_step reverse) (get (m_mappings mapping_data) []) [] in
  sorted_desc (fun kv => len_key (fst kv)) pairs.

(** ** [apply_replacements_to_docx]: one paragraph *)

(** [for old, new in replacements: new_text = new_text.replace(old, new)] *)
Definition apply_replacements (replacements : list (str * str)) (text : str)
  : str :=
  fold_left (fun t on => str_replace (fst on) (snd on) t) replacements text.

(** A paragraph is the list of the texts of its runs; the result is that
    list after the call. *)
Definition _replace_in_paragraph (replacements : list (str * str))
  (runs : list str) : list str :=
  match runs with
  | [] => []
  | _ :: rest =>
      let full_text := concat runs in
      let new_text := apply_replacements replacements full_text in
      if negb (str_eqb new_text full_text)
      then new_text :: map (fun _ => []) rest
      else runs
  end.

(** ** Vocabulary of the further statements *)

(** An ASCII letter. *)
Definition is_letter (c : ascii) : bool :=
  let n := nat_of_ascii c in
  ((65 <=? n) && (n <=? 90)) || ((97 <=? n) && (n <=? 122)).

(** A character of the ASCII range. *)
Definition is_ascii (c : ascii) : bool := nat_of_ascii c <? 128.

(** The placeholder ids issued so far are numbered within the counter of
    their type. *)
Definition issued_ok (counters : list (str * nat))
  (pmap : list (str * placeholder_info)) : Prop :=
  forall ph, In ph (map fst pmap) ->
    exists ty j, ph = make_placeholder ty j
                 /\ 1 <= j <= get (assoc_get ty counters) 0.

(** The entry of the placeholder table made for a canonical group. *)
Definition table_entry (set_iter : list str -> list str)
  (counters : list (str * nat)) (g : str * group_info)
  : str * placeholder_info :=
  (group_placeholder counters (snd g),
   PlaceholderInfo (Some (fst g)) (g_type (snd g))
     (set_iter (set_remove (fst g) (g_texts (snd g))))).

(** Some group lists the empty string among its texts. *)
Definition has_empty_text (gs : list (str * group_info)) : Prop :=
  exists g, In g gs /\ In [] (g_texts (snd g)).

(** What every record of the replacement log satisfies. *)
Definition record_ok (flat : list (str * str)) (e : log_entry) : Prop :=
  assoc_get (original_text e) flat = Some (placeholder e)
  /\ original_text e <> []
  /\ (0 <= position e)%Z
  /\ length (context_before e) <= 40
  /\ length (context_after e) <= 40.

(** Change of the text length made by one substitution, and by a whole
    log. *)
Definition length_change (e : log_entry) : Z :=
  Z.of_nat (length (placeholder e)) - Z.of_nat (length (original_text e)).

Definition total_length_change (log : list log_entry) : Z :=
  fold_right Z.add 0%Z (map length_change log).

(** Every sentence but the last has a character that is not white space. *)
Fixpoint sentences_marked (l : list str) : Prop :=
  match l with
  | [] => True
  | x :: r =>
      match r with
      | [] => True
      | _ :: _ =>
          filter (fun c => negb (is_space c)) x <> [] /\ sentences_marked r
      end
  end.

(** A segment as the function appends it: not empty, and without white
    space at either end. *)
Definition trimmed (s : str) : Prop := s <> [] /\ strip s = s.

(** The indices, from [a] on, of the paragraphs that contain a keyword. *)
Fixpoint keyword_indices (KEYWORDS : list str) (a : nat)
  (paragraphs : list str) : list nat :=
  match paragraphs with
  | [] => []
  | p :: r =>
      (if has_keyword KEYWORDS p then [a] else [])
        ++ keyword_indices KEYWORDS (S a) r
  end.

(** The table entries of a list of groups, the first of them made with the
    counters [counters]. *)
Fixpoint table_from (set_iter : list str -> list str)
  (counters : list (str * nat)) (gs : list (str * group_info))
  : list (str * placeholder_info) :=
  match gs with
  | [] => []
  | g :: r =>
      table_entry set_iter counters g
      :: table_from set_iter
           (bump_counter (upper (g_type (snd g))) counters) r
  end.

(** The key of a group is one of its texts. *)
Definition key_in_texts (g : str * group_info) : Prop :=
  In (fst g) (g_texts (snd g)).

(** The state of the log while the literals [todo] are still to be
    processed. *)
Definition log_inv (flat : list (str * str)) (todo : list str)
  (log : list log_entry) : Prop :=
  Forall (record_ok flat) log
  /\ StronglySorted
       (fun a b => length (original_text a) >= length (original_text b)) log
  /\ Forall (fun e => Forall (fun x => length (original_text e) >= length x)
                        todo) log.

(** ** Data of the further examples *)

Definition ex_sentences_doc : str :=
  chars "Hello there. How are you? Fine." ++ [newline] ++ chars "short"
    ++ [newline] ++ chars "one".

Definition ex_keywords : list str :=
  [chars "WHEREAS"; chars "NOTICE"; chars "By:"].

Definition ex_contract : str :=
  chars "AGREEMENT" ++ [newline]
    ++ chars "WHEREAS the Seller owns the shares;" ++ [newline]
    ++ chars "1. Sale." ++ [newline] ++ chars "2. Price." ++ [newline]
    ++ chars "3. Closing." ++ [newline] ++ chars "4. Taxes." ++ [newline]
    ++ chars "NOTICE shall be sent to the Buyer." ++ [newline]
    ++ chars "By: John Smith".

(** Stand-ins for the two float products of the fallback. *)
Definition ex_front_end (n : nat) : nat := n * 15 / 100.

Definition ex_back_start (n : nat) : nat := n * 90 / 100.

Definition ex_seller_group : str * group_info :=
  (chars "Acme Corp",
   GroupInfo (chars "company") [chars "Acme Corp"; chars "Seller"] []).

Definition ex_empty_alias : pass1 :=
  Pass1 (Some [AliasGroup (Some (chars "Acme Corp")) (Some (chars "company"))
                 (Some [chars ""])]).

Definition ex_plain_doc : str := chars "No placeholder here.".

(** * Proofs *)

(** ** Basic facts about strings *)

Unset Implicit Arguments.

Lemma str_eqb_eq (a b : str) : str_eqb a b = true <-> a = b.
Proof.
  revert b; induction a as [|x a IH]; intros [|y b]; simpl; split;
    try congruence; try reflexivity.
  - intros H. apply andb_true_iff in H as [H1 H2].
    apply Ascii.eqb_eq in H1. apply IH in H2. congruence.
  - intros H. injection H as -> ->. rewrite Ascii.eqb_refl. simpl.
    now apply IH.
Qed.

Lemma str_eqb_refl (a : str) : str_eqb a a = true.
Proof. now apply str_eqb_eq. Qed.

Lemma str_eqb_neq (a b : str) : str_eqb a b = false <-> a <> b.
Proof.
  split.
  - intros H E. apply str_eqb_eq in E. congruence.
  - intros H. destruct (str_eqb a b) eqn:E; [|reflexivity].
    apply str_eqb_eq in E. contradiction.
Qed.

Lemma mem_str_In (x : str) (s : list str) : mem_str x s = true <-> In x s.
Proof.
  induction s as [|y s IH]; simpl.
  - split; [discriminate | tauto].
  - rewrite orb_true_iff, IH, str_eqb_eq. split; intros [H|H]; auto.
Qed.

Lemma prefixb_app (p r : str) : prefixb p (p ++ r) = true.
Proof.
  induction p as [|x p IH]; simpl; [reflexivity|].
  now rewrite Ascii.eqb_refl, IH.
Qed.

Lemma prefixb_true (p s : str) :
  prefixb p s = true -> exists r, s = p ++ r.
Proof.
  revert s; induction p as [|x p IH]; intros s H; simpl in *.
  - now exists s.
  - destruct s as [|y s]; [discriminate|].
    apply andb_true_iff in H as [H1 H2]. apply Ascii.eqb_eq in H1. subst y.
    destruct (IH _ H2) as [r ->]. now exists r.
Qed.

Lemma lstrip_spaces (s : str) :
  Forall (fun c => is_space c = true) s -> lstrip s = [].
Proof.
  induction 1 as [|c s Hc _ IH]; simpl; [reflexivity|]. now rewrite Hc.
Qed.

Lemma strip_spaces (s : str) :
  Forall (fun c => is_space c = true) s -> strip s = [].
Proof.
  intros H. unfold strip. now rewrite (lstrip_spaces _ H).
Qed.

(** ** Empty mentions *)

Lemma add_entity_blank (gs : list (str * group_info)) (e : entity) :
  Forall (fun c => is_space c = true) (get (e_text e) []) ->
  add_entity gs e = gs.
Proof.
  intros H. unfold add_entity. now rewrite (strip_spaces _ H).
Qed.

Lemma build_groups_blank (es1 es2 : list entity) (e : entity) (p1 : pass1) :
  Forall (fun c => is_space c = true) (get (e_text e) []) ->
  build_groups (es1 ++ e :: es2) p1 = build_groups (es1 ++ es2) p1.
Proof.
  intros H. unfold build_groups. rewrite !fold_left_app. simpl.
  now rewrite (add_entity_blank _ _ H).
Qed.

(** C7. A mention whose text is missing, empty or made of whitespace only is
    skipped by [execute_replacement]: wherever it stands in the entity list,
    the canonical groups, the placeholder table, the substitutions, the
    returned text and the artifact are those of the list without it, and the
    call returns whenever the call without it does. *)
Theorem empty_mention_excluded
  (set_iter : list str -> list str) (now text src : str)
  (es1 es2 : list entity) (e : entity) (p1 : pass1) :
  Forall (fun c => is_space c = true) (get (e_text e) []) ->
  build_groups (es1 ++ e :: es2) p1 = build_groups (es1 ++ es2) p1
  /\ execute_replacement set_iter now text (es1 ++ e :: es2) p1 src
     = execute_replacement set_iter now text (es1 ++ es2) p1 src.
Proof.
  intros H. pose proof (build_groups_blank es1 es2 e p1 H) as E.
  split; [exact E|]. unfold execute_replacement. now rewrite E.
Qed.

(** ** Association lists *)

Lemma assoc_get_set_same (V : Type) (k : str) (v : V) (d : list (str * V)) :
  assoc_get k (assoc_set k v d) = Some v.
Proof.
  induction d as [|[k' v'] d IH]; simpl.
  - now rewrite str_eqb_refl.
  - destruct (str_eqb k k') eqn:E; simpl; rewrite E; [reflexivity | exact IH].
Qed.

Lemma assoc_get_set_other (V : Type) (k k0 : str) (v : V) (d : list (str * V)) :
  k <> k0 -> assoc_get k (assoc_set k0 v d) = assoc_get k d.
Proof.
  intros N. induction d as [|[k' v'] d IH]; simpl.
  - apply str_eqb_neq in N. now rewrite N.
  - destruct (str_eqb k0 k') eqn:E; simpl.
    + apply str_eqb_eq in E. subst k'.
      apply str_eqb_neq in N. now rewrite N.
    + destruct (str_eqb k k'); [reflexivity | exact IH].
Qed.

Lemma assoc_set_keys (V : Type) (k : str) (v : V) (d : list (str * V)) :
  map fst (assoc_set k v d)
  = if mem_str k (map fst d) then map fst d else map fst d ++ [k].
Proof.
  induction d as [|[k' v'] d IH]; simpl; [reflexivity|].
  destruct (str_eqb k k') eqn:E; simpl; [reflexivity|].
  rewrite IH. now destruct (mem_str k (map fst d)).
Qed.

Lemma assoc_set_keys_nodup (V : Type) (k : str) (v : V) (d : list (str * V)) :
  NoDup (map fst d) -> NoDup (map fst (assoc_set k v d)).
Proof.
  intros H. rewrite assoc_set_keys.
  destruct (mem_str k (map fst d)) eqn:E; [exact H|].
  apply NoDup_app; [exact H | repeat constructor; simpl; tauto |].
  intros x Hx [<-|[]]. apply mem_str_In in Hx. congruence.
Qed.

Lemma fold_assoc_set_keys_nodup (ph : str) (ts : list str) (m : list (str * str)) :
  NoDup (map fst m) ->
  NoDup (map fst (fold_left (fun m t => assoc_set t ph m) ts m)).
Proof.
  revert m; induction ts as [|t ts IH]; intros m H; simpl; [exact H|].
  apply IH. now apply assoc_set_keys_nodup.
Qed.

Lemma fold_assoc_set_get (ph t : str) (ts : list str) (m : list (str * str)) :
  assoc_get t (fold_left (fun m t => assoc_set t ph m) ts m)
  = if mem_str t ts then Some ph else assoc_get t m.
Proof.
  revert m; induction ts as [|t' ts IH]; intros m; simpl; [reflexivity|].
  rewrite IH. destruct (mem_str t ts); [now rewrite orb_true_r|].
  rewrite orb_false_r. destruct (str_eqb t t') eqn:E.
  - apply str_eqb_eq in E. subst. apply assoc_get_set_same.
  - apply str_eqb_neq in E. now apply assoc_get_set_other.
Qed.

Lemma assoc_update_Forall (V : Type) (P : str * V -> Prop) (k : str)
  (f : V -> V) (d : list (str * V)) :
  (forall v, P (k, v) -> P (k, f v)) ->
  Forall P d -> Forall P (assoc_update k f d).
Proof.
  intros Hf. induction 1 as [|[k' v'] d Hx Hd IH]; simpl; [constructor|].
  destruct (str_eqb k k') eqn:E.
  - apply str_eqb_eq in E. subst k'. constructor; auto.
  - constructor; auto.
Qed.

(** ** The flat literal map *)

Section FlatMap.

Variable set_iter : list str -> list str.
Hypothesis set_iter_perm : forall l, Permutation (set_iter l) l.

Lemma set_iter_mem (t : str) (l : list str) :
  mem_str t (set_iter l) = mem_str t l.
Proof.
  destruct (mem_str t l) eqn:E.
  - apply mem_str_In. apply mem_str_In in E.
    eapply Permutation_in; [apply Permutation_sym, set_iter_perm | exact E].
  - destruct (mem_str t (set_iter l)) eqn:E'; [|reflexivity].
    apply mem_str_In in E'.
    apply (Permutation_in _ (set_iter_perm l)) in E'.
    apply mem_str_In in E'. congruence.
Qed.

Lemma assign_group_get (st : assign_state) (g : str * group_info) (t : str) :
  assoc_get t (text_to_placeholder (assign_group set_iter st g))
  = if mem_str t (g_texts (snd g))
    then Some (group_placeholder (type_counters st) (snd g))
    else assoc_get t (text_to_placeholder st).
Proof.
  destruct g as [canonical info]. unfold assign_group. simpl.
  now rewrite fold_assoc_set_get, set_iter_mem.
Qed.

Lemma assign_later_groups_get (gs : list (str * group_info))
  (st : assign_state) (t : str) :
  (forall g, In g gs -> mem_str t (g_texts (snd g)) = false) ->
  assoc_get t (text_to_placeholder (fold_left (assign_group set_iter) gs st))
  = assoc_get t (text_to_placeholder st).
Proof.
  revert st; induction gs as [|g gs IH]; intros st H; simpl; [reflexivity|].
  rewrite IH by (intros; apply H; now right).
  rewrite assign_group_get. now rewrite (H g (or_introl eq_refl)).
Qed.

Lemma assign_keys_nodup (gs : list (str * group_info)) (st : assign_state) :
  NoDup (map fst (text_to_placeholder st)) ->
  NoDup (map fst (text_to_placeholder (fold_left (assign_group set_iter) gs st))).
Proof.
  revert st; induction gs as [|[c info] gs IH]; intros st H; simpl; [exact H|].
  apply IH. simpl. now apply fold_assoc_set_keys_nodup.
Qed.

(** C9. The flat literal map has one entry per literal, and a literal that is
    a member of several canonical groups is mapped to the placeholder of the
    last of them in processing order: the assignment made for an earlier
    group is overwritten. *)
Theorem literal_collision_last_group_wins
  (gs1 gs2 : list (str * group_info)) (g : str * group_info) (t : str) :
  In t (g_texts (snd g)) ->
  (forall g', In g' gs2 -> mem_str t (g_texts (snd g')) = false) ->
  let flat :=
    text_to_placeholder (assign_placeholders set_iter (gs1 ++ g :: gs2)) in
  assoc_get t flat
  = Some (group_placeholder
            (type_counters (assign_placeholders set_iter gs1)) (snd g))
  /\ NoDup (map fst flat).
Proof.
  intros Hin Hlater flat. subst flat. unfold assign_placeholders. split.
  - rewrite fold_left_app. simpl.
    rewrite assign_later_groups_get by exact Hlater.
    rewrite assign_group_get.
    apply mem_str_In in Hin. now rewrite Hin.
  - apply assign_keys_nodup. constructor.
Qed.

End FlatMap.

(** ** The stable descending sort *)

Section StableSort.

Variable A : Type.
Variable key : A -> Z.

Lemma insert_desc_perm (x : A) (l : list A) :
  Permutation (insert_desc key x l) (x :: l).
Proof.
  induction l as [|y l IH]; simpl; [reflexivity|].
  destruct (key x <? key y)%Z; [|reflexivity].
  rewrite IH. apply perm_swap.
Qed.

Lemma sorted_desc_perm (l : list A) : Permutation (sorted_desc key l) l.
Proof.
  induction l as [|x l IH]; simpl; [reflexivity|].
  rewrite insert_desc_perm. now constructor.
Qed.

Lemma insert_desc_sorted (x : A) (l : list A) :
  StronglySorted (fun a b => (key a >= key b)%Z) l ->
  StronglySorted (fun a b => (key a >= key b)%Z) (insert_desc key x l).
Proof.
  induction 1 as [|y l Hs IH Hy]; simpl.
  - repeat constructor.
  - destruct (key x <? key y)%Z eqn:E.
    + constructor; [exact IH|].
      eapply Permutation_Forall;
        [apply Permutation_sym, insert_desc_perm|].
      constructor; [apply Z.ltb_lt in E; lia | exact Hy].
    + apply Z.ltb_ge in E. constructor; [now constructor|].
      constructor; [lia|].
      eapply Forall_impl; [|exact Hy]. simpl. intros; lia.
Qed.

Lemma sorted_desc_sorted (l : list A) :
  StronglySorted (fun a b => (key a >= key b)%Z) (sorted_desc key l).
Proof.
  induction l as [|x l IH]; simpl; [constructor|].
  now apply insert_desc_sorted.
Qed.

Lemma insert_desc_stable (k : Z) (x : A) (l : list A) :
  filter (fun a => (key a =? k)%Z) (insert_desc key x l)
  = filter (fun a => (key a =? k)%Z) (x :: l).
Proof.
  induction l as [|y l IH]; simpl; [reflexivity|].
  destruct (key x <? key y)%Z eqn:E; [|reflexivity].
  apply Z.ltb_lt in E. simpl in *. rewrite IH.
  destruct (key x =? k)%Z eqn:Ex; destruct (key y =? k)%Z eqn:Ey;
    try reflexivity.
  apply Z.eqb_eq in Ex, Ey. lia.
Qed.

(** Elements with equal keys keep the relative order they had in the input. *)
Lemma sorted_desc_stable (k : Z) (l : list A) :
  filter (fun a => (key a =? k)%Z) (sorted_desc key l)
  = filter (fun a => (key a =? k)%Z) l.
Proof.
  induction l as [|x l IH]; simpl; [reflexivity|].
  rewrite insert_desc_stable. simpl. now rewrite IH.
Qed.

(** A sorted input is left as it is. *)
Lemma sorted_desc_id (l : list A) :
  StronglySorted (fun a b => (key a >= key b)%Z) l -> sorted_desc key l = l.
Proof.
  induction 1 as [|x l Hs IH Hx]; simpl; [reflexivity|].
  rewrite IH. destruct l as [|y l]; simpl; [reflexivity|].
  inversion Hx as [|? ? Hy _]; subst.
  destruct (key x <? key y)%Z eqn:E; [|reflexivity].
  apply Z.ltb_lt in E. lia.
Qed.

End StableSort.

Lemma StronglySorted_weaken (A : Type) (R1 R2 : A -> A -> Prop) (l : list A) :
  (forall a b, R1 a b -> R2 a b) -> StronglySorted R1 l -> StronglySorted R2 l.
Proof.
  intros H. induction 1 as [|a l _ IH Ha]; constructor; [exact IH|].
  eapply Forall_impl; [|exact Ha]. intros b. apply H.
Qed.

(** ** Determinism of the substitution *)















Section TwoOrders.

Variables set_iter1 set_iter2 : list str -> list str.
Hypothesis perm1 : forall l, Permutation (set_iter1 l) l.
Hypothesis perm2 : forall l, Permutation (set_iter2 l) l.






End TwoOrders.



(** ** Step B: the selection of the best record *)

Section Selection.

Context {SC : Scoring}.
Hypothesis SO : ScoringOrder SC.

Variables placeholder_text current_before current_after : str.

Local Abbreviation f := (total_score current_before current_after).

Lemma candidate_step_inv (seen : list log_entry)
  (best : score * option log_entry) (x : log_entry) :
  best_inv placeholder_text current_before current_after seen best ->
  best_inv placeholder_text current_before current_after (seen ++ [x])
    (candidate_step placeholder_text current_before current_after best x).
Proof.
  intros [H1 H2]. unfold candidate_step.
  destruct (str_eqb (placeholder x) placeholder_text) eqn:E; simpl.
  - apply str_eqb_eq in E. fold (f x).
    destruct (score_gt (f x) (fst best)) eqn:G; simpl.
    + split; simpl.
      * intros c Hc Cc. apply in_app_or in Hc as [Hc|[<-|[]]].
        -- destruct (score_gt (f c) (f x)) eqn:G'; [|reflexivity].
           rewrite <- (H1 c Hc Cc). symmetry.
           now apply (gt_trans SO) with (b := f x).
        -- apply (gt_irrefl SO).
      * exists seen, []. split; [reflexivity|]. split; [exact E|].
        split; [reflexivity|]. split.
        -- destruct (snd best) as [e|].
           ++ destruct H2 as (l1 & l2 & _ & _ & Fe & Pe & _).
              apply (gt_trans SO) with (b := fst best); [exact G|].
              now rewrite Fe.
           ++ now rewrite <- H2.
        -- intros c Hc Cc.
           apply (gt_le_trans SO) with (b := fst best); auto.
    + split.
      * intros c Hc Cc. apply in_app_or in Hc as [Hc|[<-|[]]]; auto.
      * destruct (snd best) as [e|]; [|exact H2].
        destruct H2 as (l1 & l2 & -> & Ce & Fe & Pe & Hl1).
        exists l1, (l2 ++ [x]). rewrite <- app_assoc. simpl. auto.
  - apply str_eqb_neq in E. split.
    + intros c Hc Cc. apply in_app_or in Hc as [Hc|[<-|[]]]; auto.
      contradiction.
    + destruct (snd best) as [e|]; [|exact H2].
      destruct H2 as (l1 & l2 & -> & Ce & Fe & Pe & Hl1).
      exists l1, (l2 ++ [x]). rewrite <- app_assoc. simpl. auto.
Qed.

Lemma candidate_fold_inv (rest seen : list log_entry)
  (best : score * option log_entry) :
  best_inv placeholder_text current_before current_after seen best ->
  best_inv placeholder_text current_before current_after (seen ++ rest)
    (fold_left (candidate_step placeholder_text current_before current_after)
       rest best).
Proof.
  revert seen best; induction rest as [|x rest IH]; intros seen best H; simpl.
  - now rewrite app_nil_r.
  - replace (seen ++ x :: rest) with ((seen ++ [x]) ++ rest)
      by (rewrite <- app_assoc; reflexivity).
    apply IH. now apply candidate_step_inv.
Qed.

Lemma best_candidate_inv (replacement_log : list log_entry) :
  best_inv placeholder_text current_before current_after replacement_log
    (best_candidate replacement_log placeholder_text
       current_before current_after).
Proof.
  apply (candidate_fold_inv replacement_log [] (score_zero, None)).
  split; [intros c []|reflexivity].
Qed.

(** The selected record carries the token's id, and no record with that id
    scores more. *)
Lemma best_candidate_some
  (replacement_log : list log_entry) (best_score : score) (e : log_entry) :
  best_candidate replacement_log placeholder_text
    current_before current_after = (best_score, Some e) ->
  In e replacement_log /\ placeholder e = placeholder_text
  /\ best_score = f e
  /\ forall c, In c replacement_log -> placeholder c = placeholder_text ->
       score_gt (f c) (f e) = false.
Proof.
  intros E. pose proof (best_candidate_inv replacement_log) as [H1 H2].
  rewrite E in H1, H2. simpl in H1, H2.
  destruct H2 as (l1 & l2 & El & Ce & Fe & _ & _).
  split; [rewrite El; apply in_elt|]. split; [exact Ce|].
  split; [exact Fe|]. intros c Hc Cc. rewrite <- Fe. now apply H1.
Qed.

(** No record is selected when no record with the token's id scores above
    zero, the score the search starts from. *)
Lemma best_candidate_none (replacement_log : list log_entry) :
  (forall c, In c replacement_log -> placeholder c = placeholder_text ->
     score_gt (f c) score_zero = false) ->
  best_candidate replacement_log placeholder_text
    current_before current_after = (score_zero, None).
Proof.
  intros Hz. pose proof (best_candidate_inv replacement_log) as [H1 H2].
  destruct (best_candidate replacement_log placeholder_text
              current_before current_after) as [bs [e|]]; simpl in *.
  - destruct H2 as (l1 & l2 & El & Ce & _ & Pe & _).
    rewrite (Hz e) in Pe; [discriminate| |exact Ce].
    rewrite El. apply in_elt.
  - now rewrite H2.
Qed.

(** C10. When some record with the token's placeholder id scores above zero,
    [best_candidate] selects a record [e] with that id such that every
    record with that id standing before [e] in the log has a strictly
    smaller score and no record with that id has a greater one: among the
    records that attain the maximal score, the earliest in the log is
    selected. *)
Theorem context_tie_break_earliest (replacement_log : list log_entry) :
  (exists c, In c replacement_log /\ placeholder c = placeholder_text
     /\ score_gt (total_score current_before current_after c) score_zero
        = true) ->
  exists l1 e l2,
    replacement_log = l1 ++ e :: l2
    /\ best_candidate replacement_log placeholder_text
         current_before current_after
       = (total_score current_before current_after e, Some e)
    /\ placeholder e = placeholder_text
    /\ (forall c, In c l1 -> placeholder c = placeholder_text ->
          score_gt (total_score current_before current_after e)
                   (total_score current_before current_after c) = true)
    /\ (forall c, In c replacement_log -> placeholder c = placeholder_text ->
          score_gt (total_score current_before current_after c)
                   (total_score current_before current_after e) = false).
Proof.
  intros (c0 & I0 & C0 & P0).
  pose proof (best_candidate_inv replacement_log) as [H1 H2].
  destruct (best_candidate replacement_log placeholder_text
              current_before current_after) as [bs [e|]]; simpl in *.
  - destruct H2 as (l1 & l2 & El & Ce & Fe & _ & Hl1).
    exists l1, e, l2. subst bs.
    split; [exact El|]. split; [reflexivity|]. split; [exact Ce|].
    split; [exact Hl1|]. exact H1.
  - rewrite H2 in H1. rewrite (H1 c0 I0 C0) in P0. discriminate.
Qed.

End Selection.

(** ** Step B: the threshold *)

Section Threshold.

Context {SC : Scoring}.
Hypothesis SO : ScoringOrder SC.

Lemma restore_by_context_fold (text : str) (replacement_log : list log_entry) :
  restore_by_context text replacement_log
  = fold_left (context_step replacement_log) (rev (finditer text)) (text, 0).
Proof.
  unfold restore_by_context. now destruct (finditer text).
Qed.

(** A token none of whose candidate records scores above one half is left
    alone. *)
Lemma context_step_below (replacement_log : list log_entry)
  (text : str) (n pos : nat) (tok : str) :
  (forall c, In c replacement_log -> placeholder c = tok ->
     score_gt (total_score (current_before_of text pos)
                 (current_after_of text pos tok) c) score_half = false) ->
  context_step replacement_log (text, n) (pos, tok) = (text, n).
Proof.
  intros H. unfold context_step.
  destruct (best_candidate replacement_log tok (current_before_of text pos)
              (current_after_of text pos tok)) as [bs [e|]] eqn:E;
    [|reflexivity].
  destruct (best_candidate_some SO _ _ _ _ _ _ E) as (Ie & Pe & -> & _).
  rewrite H; [reflexivity | exact Ie | exact Pe].
Qed.

(** C4. In [restore_by_context] every remaining token goes through
    [context_step].  The step either leaves the text and the counter as they
    are, or replaces the token by the [original_text] of a record [e] of the
    log that carries the token's id, whose mean similarity is strictly above
    one half and is not exceeded by any record with that id.  When every
    record with the token's id scores exactly one half, nothing is
    replaced. *)
Theorem context_threshold_and_selection (replacement_log : list log_entry)
  (text : str) (n pos : nat) (tok : str) :
  let mean_score :=
    total_score (current_before_of text pos)
      (current_after_of text pos tok) in
  (forall text0, restore_by_context text0 replacement_log
     = fold_left (context_step replacement_log) (rev (finditer text0))
         (text0, 0))
  /\ (context_step replacement_log (text, n) (pos, tok) = (text, n)
      \/ exists e,
           In e replacement_log /\ placeholder e = tok
           /\ score_gt (mean_score e) score_half = true
           /\ (forall c, In c replacement_log -> placeholder c = tok ->
                 score_gt (mean_score c) (mean_score e) = false)
           /\ context_step replacement_log (text, n) (pos, tok)
              = (firstn pos text ++ original_text e
                   ++ skipn (pos + length tok) text, S n))
  /\ ((forall c, In c replacement_log -> placeholder c = tok ->
         mean_score c = score_half) ->
      context_step replacement_log (text, n) (pos, tok) = (text, n)).
Proof.
  intros mean_score. split; [exact (fun t => restore_by_context_fold t _)|].
  split.
  - unfold context_step.
    destruct (best_candidate replacement_log tok (current_before_of text pos)
                (current_after_of text pos tok)) as [bs [e|]] eqn:E;
      [|now left].
    destruct (best_candidate_some SO _ _ _ _ _ _ E) as (Ie & Pe & -> & Hmax).
    fold (mean_score e).
    destruct (score_gt (mean_score e) score_half) eqn:G; [|now left].
    right. exists e. repeat split; auto.
  - intros H. apply context_step_below. intros c Hc Pc.
    fold (mean_score c). rewrite (H c Hc Pc). apply (gt_irrefl SO).
Qed.

(** With no record above one half for any context, step B changes nothing. *)
Lemma restore_by_context_below (replacement_log : list log_entry) (text : str) :
  (forall cb ca c, In c replacement_log ->
     score_gt (total_score cb ca c) score_half = false) ->
  restore_by_context text replacement_log = (text, 0).
Proof.
  intros H. rewrite restore_by_context_fold.
  induction (rev (finditer text)) as [|[pos tok] ms IH];
    cbn [fold_left]; [reflexivity|].
  rewrite context_step_below; [exact IH|]. intros; now apply H.
Qed.

End Threshold.

(** ** [find] *)

Lemma find0_Some (sub s : str) (i : nat) :
  find0 sub s = Some i -> exists r, skipn i s = sub ++ r.
Proof.
  revert i; induction s as [|c s IH]; intros i; simpl.
  - destruct (prefixb sub []) eqn:E; [|discriminate].
    intros [= <-]. now apply prefixb_true.
  - destruct (prefixb sub (c :: s)) eqn:E.
    + intros [= <-]. now apply prefixb_true.
    + destruct (find0 sub s) as [j|]; [|discriminate].
      intros [= <-]. simpl. now apply IH.
Qed.

Lemma find0_bound (sub s : str) (i : nat) :
  find0 sub s = Some i -> i + length sub <= length s.
Proof.
  intros H. destruct (find0_Some _ _ _ H) as [r E].
  pose proof (f_equal (@length ascii) E) as L.
  rewrite length_skipn, length_app in L.
  assert (i <= length s); [|lia].
  clear E L r. revert i H; induction s as [|c s IH]; intros i; simpl.
  - destruct (prefixb sub []); [|discriminate]. intros [= <-]. lia.
  - destruct (prefixb sub (c :: s)).
    + intros [= <-]. lia.
    + destruct (find0 sub s) as [j|]; [|discriminate].
      intros [= <-]. specialize (IH j eq_refl). lia.
Qed.

Lemma find0_min (sub s : str) (i j : nat) :
  find0 sub s = Some i -> j < i -> prefixb sub (skipn j s) = false.
Proof.
  revert i j; induction s as [|c s IH]; intros i j; simpl.
  - destruct (prefixb sub []); [|discriminate]. intros [= <-]. lia.
  - destruct (prefixb sub (c :: s)) eqn:E.
    + intros [= <-]. lia.
    + destruct (find0 sub s) as [k|] eqn:F; [|discriminate].
      intros [= <-] Hj. destruct j as [|j]; [exact E|].
      simpl. apply (IH k); [reflexivity | lia].
Qed.

Lemma find0_None (sub s : str) (j : nat) :
  find0 sub s = None -> prefixb sub (skipn j s) = false.
Proof.
  revert j; induction s as [|c s IH]; intros j; simpl.
  - destruct (prefixb sub []) eqn:E; [discriminate|].
    intros _. now destruct j.
  - destruct (prefixb sub (c :: s)) eqn:E; [discriminate|].
    destruct (find0 sub s) as [k|] eqn:F; [discriminate|].
    intros _. destruct j as [|j]; [exact E|]. simpl. now apply IH.
Qed.

Lemma find0_None_infix (sub s : str) : find0 sub s = None -> ~ infix sub s.
Proof.
  intros H (a & b & E).
  pose proof (find0_None _ _ (length a) H) as P.
  rewrite E, skipn_app, skipn_all, Nat.sub_diag in P. simpl in P.
  now rewrite prefixb_app in P.
Qed.

Lemma find0_infix (sub a b : str) :
  exists i, find0 sub (a ++ sub ++ b) = Some i /\ i <= length a.
Proof.
  destruct (find0 sub (a ++ sub ++ b)) as [i|] eqn:F.
  - exists i. split; [reflexivity|].
    destruct (Nat.le_gt_cases i (length a)) as [L|L]; [exact L|].
    pose proof (find0_min _ _ _ _ F L) as P.
    rewrite skipn_app, skipn_all, Nat.sub_diag in P. simpl in P.
    now rewrite prefixb_app in P.
  - exfalso. apply (find0_None_infix _ _ F). now exists a, b.
Qed.

(** ** Step A *)

Lemma firstn_of_prefix (k : nat) (x p r : str) :
  firstn k x = p ++ r -> firstn (length p) x = p.
Proof.
  intros H.
  assert (L : length p <= k).
  { pose proof (f_equal (@length ascii) H) as L.
    rewrite length_firstn, length_app in L. lia. }
  replace (length p) with (Nat.min (length p) k) by lia.
  rewrite <- firstn_firstn, H, firstn_app, Nat.sub_diag, firstn_all.
  simpl. apply app_nil_r.
Qed.

(** Where the window search of a record can land: never before
    [max(0, position - 50)], and on an occurrence of the placeholder. *)
Lemma find_in_window_spec (text : str) (entry : log_entry) (actual_pos : nat) :
  find_in_window text entry = Some actual_pos ->
  (Z.max 0 (position entry - 50) <= Z.of_nat actual_pos)%Z
  /\ firstn (length (placeholder entry)) (skipn actual_pos text)
     = placeholder entry.
Proof.
  unfold find_in_window, py_slice, slice.
  set (start := Z.max 0 (position entry - 50)).
  set (stop := Z.min _ _).
  set (len := Z.of_nat (length text)).
  destruct (find0 _ _) as [lp|] eqn:F; [|discriminate].
  intros [= <-]. split; [lia|].
  destruct (find0_Some _ _ _ F) as [r E].
  assert (Hs : norm_index len start = Z.min start len).
  { unfold norm_index. destruct (start <? 0)%Z eqn:N; [|reflexivity].
    apply Z.ltb_lt in N. subst start. lia. }
  rewrite Hs in E, F.
  destruct (Z.le_gt_cases start len) as [L|L].
  - rewrite Z.min_l in E by exact L.
    rewrite skipn_firstn_comm, skipn_skipn in E.
    rewrite Nat.add_comm. eapply firstn_of_prefix. exact E.
  - rewrite Z.min_r in F by lia. subst len.
    rewrite Nat2Z.id, skipn_all, firstn_nil in F.
    destruct (placeholder entry); simpl in F; [|discriminate].
    reflexivity.
Qed.

Lemma firstn_prefix_trans (k : nat) (t1 t2 t3 : str) :
  (exists r, t2 = firstn k t1 ++ r) -> (exists r, t3 = firstn k t2 ++ r) ->
  exists r, t3 = firstn k t1 ++ r.
Proof.
  intros [r1 ->] [r2 ->].
  rewrite firstn_app, firstn_firstn, Nat.min_id, <- app_assoc. eauto.
Qed.

Lemma position_step_prefix (st : str * nat * nat) (entry : log_entry) (p : Z) :
  (p <= position entry)%Z ->
  exists r,
    text_of (position_step st entry)
    = firstn (Z.to_nat (p - 50)) (text_of st) ++ r.
Proof.
  intros Hp. destruct st as [[text m] u]. unfold position_step, text_of.
  destruct (find_in_window text entry) as [a|] eqn:F; simpl.
  - destruct (find_in_window_spec _ _ _ F) as [Ha _].
    rewrite <- (firstn_skipn (Z.to_nat (p - 50)) (firstn a text)).
    rewrite firstn_firstn, Nat.min_l by lia.
    rewrite <- app_assoc. eauto.
  - exists (skipn (Z.to_nat (p - 50)) text). now rewrite firstn_skipn.
Qed.

Lemma position_fold_prefix (l : list log_entry) (st : str * nat * nat) (p : Z) :
  (forall e, In e l -> (p <= position e)%Z) ->
  exists r,
    text_of (fold_left position_step l st)
    = firstn (Z.to_nat (p - 50)) (text_of st) ++ r.
Proof.
  revert st; induction l as [|e l IH]; intros st H; cbn [fold_left].
  - exists (skipn (Z.to_nat (p - 50)) (text_of st)). now rewrite firstn_skipn.
  - eapply firstn_prefix_trans.
    + apply position_step_prefix. apply H. now left.
    + apply IH. intros; apply H; now right.
Qed.

(** C3 (as amended). [restore_by_position] processes the records in
    non-increasing order of recorded position, records with the same position
    in log order.  A replacement made for a record lands on an occurrence of
    its placeholder that starts at or after [max(0, position - 50)], which can
    be before [position]; so while the records still to come have positions
    at least [p], the text before offset [p - 50] stays as it is. *)
Theorem position_order_and_window (text : str) (replacement_log : list log_entry) :
  let sorted_log := sorted_desc position replacement_log in
  restore_by_position text replacement_log
  = fold_left position_step sorted_log (text, 0, 0)
  /\ Permutation sorted_log replacement_log
  /\ StronglySorted (fun a b => (position a >= position b)%Z) sorted_log
  /\ (forall k, filter (fun e => (position e =? k)%Z) sorted_log
                = filter (fun e => (position e =? k)%Z) replacement_log)
  /\ (forall t e actual_pos,
        find_in_window t e = Some actual_pos ->
        (Z.max 0 (position e - 50) <= Z.of_nat actual_pos)%Z
        /\ firstn (length (placeholder e)) (skipn actual_pos t) = placeholder e)
  /\ (forall done todo p st,
        sorted_log = done ++ todo ->
        (forall e, In e todo -> (p <= position e)%Z) ->
        exists r,
          text_of (fold_left position_step todo st)
          = firstn (Z.to_nat (p - 50)) (text_of st) ++ r).
Proof.
  intros sorted_log. split; [reflexivity|].
  split; [apply sorted_desc_perm|].
  split; [apply sorted_desc_sorted|].
  split; [intros k; apply sorted_desc_stable|].
  split; [intros t e a; apply find_in_window_spec|].
  intros done todo p st _ H. now apply position_fold_prefix.
Qed.

(** ** Placeholder tokens *)

Lemma count_while_split (p : ascii -> bool) (s : str) :
  forallb p (firstn (count_while p s) s) = true
  /\ match skipn (count_while p s) s with
     | c :: _ => p c = false
     | [] => True
     end.
Proof.
  induction s as [|c s IH]; simpl; [auto|].
  destruct (p c) eqn:E; simpl; [now rewrite E | auto].
Qed.

Lemma count_while_app (p : ascii -> bool) (U : str) (c : ascii) (r : str) :
  forallb p U = true -> p c = false -> count_while p (U ++ c :: r) = length U.
Proof.
  intros HU Hc. induction U as [|u U IH]; simpl in *.
  - now rewrite Hc.
  - apply andb_true_iff in HU as [-> HU]. now rewrite IH.
Qed.

Lemma match_token_spec (s : str) (n : nat) :
  match_token s = Some n ->
  is_token (firstn n s) /\ n <= length s /\ 5 <= n.
Proof.
  unfold match_token. destruct s as [|c r]; [discriminate|].
  destruct (Ascii.eqb c lbrace) eqn:Ec; [|discriminate].
  apply Ascii.eqb_eq in Ec. subst c.
  set (n1 := count_while is_upper_letter r).
  destruct (n1 =? 0) eqn:E1; [discriminate|]. apply Nat.eqb_neq in E1.
  destruct (count_while_split is_upper_letter r) as [HU Hu]. fold n1 in HU, Hu.
  destruct (skipn n1 r) as [|u r2] eqn:Er; [discriminate|].
  destruct (Ascii.eqb u underscore) eqn:Eu; [|discriminate].
  apply Ascii.eqb_eq in Eu. subst u.
  set (n2 := count_while is_digit r2).
  destruct (n2 =? 0) eqn:E2; [discriminate|]. apply Nat.eqb_neq in E2.
  destruct (count_while_split is_digit r2) as [HD Hd]. fold n2 in HD, Hd.
  destruct (skipn n2 r2) as [|b r3] eqn:Er2; [discriminate|].
  destruct (Ascii.eqb b rbrace) eqn:Eb; [|discriminate].
  apply Ascii.eqb_eq in Eb. subst b. intros [= <-].
  assert (R : r = firstn n1 r ++ underscore :: firstn n2 r2 ++ rbrace :: r3).
  { rewrite <- Er2, firstn_skipn, <- Er, firstn_skipn. reflexivity. }
  assert (L1 : length (firstn n1 r) = n1).
  { apply firstn_length_le.
    pose proof (f_equal (@length ascii) Er) as L.
    rewrite length_skipn in L. simpl in L. lia. }
  assert (L2 : length (firstn n2 r2) = n2).
  { apply firstn_length_le.
    pose proof (f_equal (@length ascii) Er2) as L.
    rewrite length_skipn in L. simpl in L. lia. }
  assert (F : firstn (n1 + n2 + 3) (lbrace :: r)
              = lbrace :: firstn n1 r ++ underscore :: firstn n2 r2 ++ [rbrace]).
  { replace (n1 + n2 + 3) with (S (n1 + (S (n2 + 1)))) by lia.
    rewrite firstn_cons. f_equal. rewrite R at 1.
    rewrite firstn_app, L1, firstn_firstn.
    replace (Nat.min (n1 + S (n2 + 1)) n1) with n1 by lia.
    replace (n1 + S (n2 + 1) - n1) with (S (n2 + 1)) by lia.
    f_equal. rewrite firstn_cons. f_equal.
    rewrite firstn_app, L2, firstn_firstn.
    replace (Nat.min (n2 + 1) n2) with n2 by lia.
    replace (n2 + 1 - n2) with 1 by lia. reflexivity. }
  split; [|split].
  - exists (firstn n1 r), (firstn n2 r2). rewrite F. repeat split; auto.
    + intros E. rewrite E in L1. simpl in L1. lia.
    + intros E. rewrite E in L2. simpl in L2. lia.
  - pose proof (f_equal (@length ascii) R) as L.
    rewrite length_app in L. simpl in L. rewrite length_app in L.
    simpl in *. lia.
  - lia.
Qed.

Lemma token_match (t rest : str) :
  is_token t -> match_token (t ++ rest) = Some (length t).
Proof.
  intros (U & D & -> & HU & FU & HD & FD). simpl.
  rewrite <- !app_assoc. simpl. rewrite <- app_assoc. simpl.
  rewrite (count_while_app is_upper_letter U underscore _ FU eq_refl).
  destruct (length U =? 0) eqn:E.
  { apply Nat.eqb_eq in E. destruct U; [congruence | discriminate]. }
  rewrite skipn_app, skipn_all, Nat.sub_diag. simpl.
  rewrite (count_while_app is_digit D rbrace _ FD eq_refl).
  destruct (length D =? 0) eqn:E'.
  { apply Nat.eqb_eq in E'. destruct D; [congruence | discriminate]. }
  rewrite skipn_app, skipn_all, Nat.sub_diag. simpl.
  f_equal. rewrite !length_app. simpl. rewrite length_app. simpl. lia.
Qed.

(** A token has a left brace in front and nowhere else. *)
Lemma token_braces (t : str) :
  is_token t -> exists t', t = lbrace :: t' /\ ~ In lbrace t'.
Proof.
  intros (U & D & -> & _ & FU & _ & FD). eexists. split; [reflexivity|].
  rewrite forallb_forall in FU, FD.
  intros H. apply in_app_or in H as [H|[H|H]].
  - apply FU in H. discriminate.
  - discriminate.
  - apply in_app_or in H as [H|[H|[]]].
    + apply FD in H. discriminate.
    + discriminate.
Qed.

(** ** Texts as gaps and tokens *)

Lemma push_char_spec (c : ascii) (segs : list (str * str)) (tail : str) (pos : nat) :
  rebuild same (fst (push_char c segs tail)) (snd (push_char c segs tail))
  = c :: rebuild same segs tail
  /\ positions_of pos (fst (push_char c segs tail)) = positions_of (S pos) segs
  /\ (Forall (fun gt => is_token (snd gt)) segs ->
      Forall (fun gt => is_token (snd gt)) (fst (push_char c segs tail))).
Proof.
  destruct segs as [|[g t] r]; simpl; repeat split; auto.
  - f_equal; [f_equal; lia | f_equal; lia].
  - intros H. inversion H; subst. constructor; auto.
Qed.

(** [finditer] cuts the text into gaps and tokens. *)
Lemma finditer_from_segments (s : str) :
  forall pos k, k <= length s ->
  exists segs tail,
    skipn k s = rebuild same segs tail
    /\ finditer_from pos k s = positions_of (pos + k) segs
    /\ Forall (fun gt => is_token (snd gt)) segs.
Proof.
  induction s as [|c s IH]; intros pos k Hk.
  - exists [], []. simpl in Hk. replace k with 0 by lia. simpl. auto.
  - destruct k as [|k]; cbn [finditer_from].
    + destruct (match_token (c :: s)) as [n|] eqn:M.
      * destruct (match_token_spec _ _ M) as (T & Ln & L5).
        simpl in Ln.
        destruct (IH (S pos) (n - 1)) as (segs & tail & E & F & W); [lia|].
        exists (([], firstn n (c :: s)) :: segs), tail.
        assert (Lt : length (firstn n (c :: s)) = n)
          by (apply firstn_length_le; simpl; lia).
        split; [|split].
        -- cbn [rebuild skipn app]. unfold same at 1. rewrite <- E.
           replace (skipn (n - 1) s) with (skipn n (c :: s))
             by (destruct n; [lia | simpl; f_equal; lia]).
           now rewrite firstn_skipn.
        -- cbn [positions_of length]. rewrite F, Lt. f_equal.
           ++ f_equal. lia.
           ++ f_equal. lia.
        -- constructor; [exact T | exact W].
      * destruct (IH (S pos) 0) as (segs & tail & E & F & W); [lia|].
        simpl in E.
        destruct (push_char_spec c segs tail (pos + 0)) as (P1 & P2 & P3).
        exists (fst (push_char c segs tail)), (snd (push_char c segs tail)).
        split; [|split].
        -- simpl. rewrite P1. now rewrite E.
        -- rewrite P2, F. f_equal; lia.
        -- now apply P3.
    + simpl in Hk.
      destruct (IH (S pos) k) as (segs & tail & E & F & W); [lia|].
      exists segs, tail. split; [exact E|]. split; [|exact W].
      rewrite F. f_equal; lia.
Qed.

Lemma finditer_segments (s : str) :
  exists segs tail,
    s = rebuild same segs tail
    /\ finditer s = positions_of 0 segs
    /\ Forall (fun gt => is_token (snd gt)) segs.
Proof.
  destruct (finditer_from_segments s 0 0) as (segs & tail & E & F & W); [lia|].
  exists segs, tail. auto.
Qed.

(** Skipping the rest of a match. *)
Lemma finditer_from_skip (a v : str) (pos : nat) :
  finditer_from pos (length a) (a ++ v) = finditer_from (pos + length a) 0 v.
Proof.
  revert pos; induction a as [|c a IH]; intros pos; simpl.
  - rewrite Nat.add_0_r. now destruct v.
  - rewrite IH. f_equal. lia.
Qed.

(** A token that stands in a text is found there, whatever comes before. *)
Lemma finditer_from_token (tok v : str) (u : str) :
  is_token tok ->
  forall pos k, k <= length u ->
  exists l,
    finditer_from pos k (u ++ tok ++ v)
    = l ++ (pos + length u, tok)
        :: finditer_from (pos + length u + length tok) 0 v.
Proof.
  intros T. destruct (token_braces _ T) as (t' & Et & Nb).
  induction u as [|c u IH]; intros pos k Hk.
  - simpl in Hk. replace k with 0 by lia. exists []. simpl.
    pose proof (token_match tok v T) as M.
    rewrite Et in M |- *. cbn [app finditer_from]. simpl app in M.
    rewrite M. rewrite <- Et.
    replace (firstn (length tok) (lbrace :: t' ++ v)) with tok.
    2:{ rewrite app_comm_cons, <- Et, firstn_app, Nat.sub_diag, firstn_all.
        simpl. now rewrite app_nil_r. }
    f_equal; [f_equal; lia|].
    replace (length tok - 1) with (length t') by (rewrite Et; simpl; lia).
    rewrite finditer_from_skip. f_equal. rewrite Et. simpl. lia.
  - destruct k as [|k]; cbn [app finditer_from].
    + destruct (match_token (c :: u ++ tok ++ v)) as [n|] eqn:M.
      * destruct (match_token_spec _ _ M) as (Tn & Ln & L5).
        assert (Hn : n - 1 <= length u).
        { destruct (Nat.le_gt_cases n (S (length u))) as [L|L]; [lia|].
          exfalso. destruct (token_braces _ Tn) as (x & Ex & Nx).
          destruct n as [|n]; [lia|]. rewrite firstn_cons in Ex.
          injection Ex as _ Ex. apply Nx. rewrite <- Ex.
          rewrite firstn_app.
          replace (n - length u) with (S (n - length u - 1)) by lia.
          rewrite Et. simpl. apply in_or_app. right. now left. }
        destruct (IH (S pos) (n - 1) Hn) as [l E].
        eexists (_ :: l). rewrite E. simpl. repeat f_equal; lia.
      * destruct (IH (S pos) 0) as [l E]; [lia|].
        exists l. rewrite E. simpl. repeat f_equal; lia.
    + simpl in Hk. destruct (IH (S pos) k) as [l E]; [lia|].
      exists l. rewrite E. simpl. repeat f_equal; lia.
Qed.

(** ** Step C *)

Section Canonical.

Variable mappings : list (str * placeholder_info).

Lemma canonical_step_at (a t b : str) (n : nat) :
  canonical_step mappings (a ++ t ++ b, n) (length a, t)
  = (a ++ canonical_name_of mappings t ++ b,
     n + length (filter (known mappings) [(length a, t)])).
Proof.
  unfold canonical_step, canonical_name_of. cbn [filter].
  change (known mappings (length a, t))
    with (match assoc_get t mappings with Some _ => true | None => false end).
  destruct (assoc_get t mappings) as [info|]; simpl.
  - rewrite firstn_app, Nat.sub_diag, firstn_all, firstn_O, app_nil_r.
    rewrite skipn_app.
    rewrite (skipn_all2 (n := length a + length t)) by lia.
    replace (length a + length t - length a) with (length t) by lia.
    rewrite skipn_app, skipn_all, Nat.sub_diag. simpl.
    f_equal. lia.
  - f_equal. lia.
Qed.

Lemma canonical_name_unknown (t : str) :
  assoc_get t mappings = None -> canonical_name_of mappings t = t.
Proof. unfold canonical_name_of. now intros ->. Qed.

Lemma canonical_fold_segments (segs : list (str * str)) :
  forall (pre tail : str) (n : nat),
  fold_left (canonical_step mappings)
    (rev (positions_of (length pre) segs))
    (pre ++ rebuild same segs tail, n)
  = (pre ++ rebuild (canonical_name_of mappings) segs tail,
     n + length (filter (known mappings) (positions_of (length pre) segs))).
Proof.
  induction segs as [|[g t] r IH]; intros pre tail n.
  - simpl. now rewrite Nat.add_0_r.
  - cbn [positions_of rev rebuild]. rewrite fold_left_app.
    unfold same at 1.
    replace (pre ++ g ++ t ++ rebuild same r tail)
      with ((pre ++ g ++ t) ++ rebuild same r tail)
      by (now rewrite <- !app_assoc).
    replace (length pre + length g + length t) with (length (pre ++ g ++ t))
      by (rewrite !length_app; lia).
    rewrite IH. cbn [fold_left].
    replace ((pre ++ g ++ t) ++ rebuild (canonical_name_of mappings) r tail)
      with ((pre ++ g) ++ t ++ rebuild (canonical_name_of mappings) r tail)
      by (now rewrite <- !app_assoc).
    replace (length pre + length g) with (length (pre ++ g))
      by (now rewrite length_app).
    rewrite canonical_step_at. rewrite <- !app_assoc. f_equal.
    cbn [filter length].
    destruct (known mappings (length (pre ++ g), t)); simpl; lia.
Qed.

(** The tokens with an unknown id are still found after the rewrite. *)
Lemma unknown_tokens_counted (segs : list (str * str)) :
  Forall (fun gt => is_token (snd gt)) segs ->
  forall (w tail : str) (pos k p0 : nat), k <= length w ->
  length (filter (fun m => negb (known mappings m)) (positions_of p0 segs))
  <= length (finditer_from pos k
               (w ++ rebuild (canonical_name_of mappings) segs tail)).
Proof.
  induction 1 as [|[g t] r T _ IH]; intros w tail pos k p0 Hk;
    cbn [positions_of filter rebuild]; [simpl; lia|].
  simpl in T.
  change (known mappings (p0 + length g, t))
    with (match assoc_get t mappings with Some _ => true | None => false end).
  destruct (assoc_get t mappings) as [info|] eqn:G; cbn [negb].
  - rewrite !app_assoc. apply IH. rewrite !length_app. lia.
  - rewrite (canonical_name_unknown _ G), app_assoc.
    destruct (finditer_from_token t
                (rebuild (canonical_name_of mappings) r tail) (w ++ g) T pos k)
      as [l E]; [rewrite length_app; lia|].
    rewrite E, length_app. cbn [length].
    specialize (IH [] tail (pos + length (w ++ g) + length t) 0
                  (p0 + length g + length t)).
    simpl in IH. lia.
Qed.

Lemma unknown_token_kept (segs : list (str * str)) :
  Forall (fun gt => is_token (snd gt)) segs ->
  forall (w tail : str) (pos k p0 q : nat) (tok : str), k <= length w ->
  In (q, tok) (positions_of p0 segs) ->
  assoc_get tok mappings = None ->
  exists q',
    In (q', tok)
      (finditer_from pos k
         (w ++ rebuild (canonical_name_of mappings) segs tail)).
Proof.
  induction 1 as [|[g t] r T _ IH]; intros w tail pos k p0 q tok Hk Hin Hun;
    simpl in Hin; [contradiction|].
  simpl in T. cbn [rebuild]. destruct Hin as [[= <- <-]|Hin].
  - rewrite (canonical_name_unknown _ Hun), app_assoc.
    destruct (finditer_from_token t
                (rebuild (canonical_name_of mappings) r tail) (w ++ g) T pos k)
      as [l E]; [rewrite length_app; lia|].
    rewrite E. eexists. apply in_or_app. right. now left.
  - destruct (assoc_get t mappings) as [info|] eqn:G.
    + rewrite !app_assoc. eapply IH; eauto. rewrite !length_app. lia.
    + rewrite (canonical_name_unknown _ G), app_assoc.
      destruct (finditer_from_token t
                  (rebuild (canonical_name_of mappings) r tail) (w ++ g) T pos k)
        as [l E]; [rewrite length_app; lia|].
      rewrite E.
      destruct (IH [] tail (pos + length (w ++ g) + length t) 0
                  (p0 + length g + length t) q tok)
        as [q' Hq']; auto.
      exists q'. apply in_or_app. right. now right.
Qed.

(** C8, for step C alone. *)
Lemma restore_by_canonical_spec (text : str) :
  let text' := fst (restore_by_canonical text mappings) in
  snd (restore_by_canonical text mappings)
  = length (filter (known mappings) (finditer text))
  /\ length (filter (fun m => negb (known mappings m)) (finditer text))
     <= length (finditer text')
  /\ forall pos tok,
       In (pos, tok) (finditer text) -> assoc_get tok mappings = None ->
       exists pos', In (pos', tok) (finditer text').
Proof.
  destruct (finditer_segments text) as (segs & tail & E & F & W).
  cbv zeta. unfold restore_by_canonical. rewrite F.
  assert (C : fold_left (canonical_step mappings)
                (rev (positions_of 0 segs)) (text, 0)
              = (rebuild (canonical_name_of mappings) segs tail,
                 length (filter (known mappings) (positions_of 0 segs)))).
  { rewrite E at 1. exact (canonical_fold_segments segs [] tail 0). }
  rewrite C.
  cbn [fst snd]. split; [reflexivity|].
  split.
  - apply (unknown_tokens_counted segs W [] tail 0 0 0). simpl; lia.
  - intros pos tok Hin Hun.
    apply (unknown_token_kept segs W [] tail 0 0 0 pos tok); auto.
Qed.

End Canonical.

(** C8. A token whose id is not a key of [mappings] is skipped by step C:
    the step returns the text and the counter as they are, [fallback_count]
    is the number of tokens whose id is a key, and every token with an unknown
    id is still a token of the text that step C returns.  In
    [run_deanonymize], with [text2] the text that enters step C,
    [fallback_count] counts the tokens of [text2] with a known id only, and
    [remaining_placeholders] is the number of tokens of the returned text,
    which include the tokens of [text2] with an unknown id. *)
Theorem unknown_id_left_as_remaining {SC : Scoring} (text : str) (m : mapping) :
  let mappings := get (m_mappings m) [] in
  let replacement_log := get (m_replacement_log m) [] in
  let text1 := text_of (restore_by_position text replacement_log) in
  let text2 := fst (restore_by_context text1 replacement_log) in
  let result := run_deanonymize text m in
  (forall st pos tok,
     assoc_get tok mappings = None ->
     canonical_step mappings st (pos, tok) = st)
  /\ fst result = fst (restore_by_canonical text2 mappings)
  /\ fallback_count (snd result)
     = length (filter (known mappings) (finditer text2))
  /\ remaining_placeholders (snd result) = length (finditer (fst result))
  /\ length (filter (fun t => negb (known mappings t)) (finditer text2))
     <= remaining_placeholders (snd result)
  /\ forall pos tok,
       In (pos, tok) (finditer text2) -> assoc_get tok mappings = None ->
       exists pos', In (pos', tok) (finditer (fst result)).
Proof.
  intros mappings replacement_log text1 text2 result. split.
  - intros [t n] pos tok H. unfold canonical_step. now rewrite H.
  - subst result text2 text1. unfold run_deanonymize, text_of.
    fold mappings. fold replacement_log.
    destruct (restore_by_position text replacement_log) as [[t1 pm] pu].
    cbn [fst].
    destruct (restore_by_context t1 replacement_log) as [t2 cm].
    cbn [fst].
    destruct (restore_by_canonical_spec mappings t2) as (H1 & H2 & H3).
    destruct (restore_by_canonical t2 mappings) as [t3 fc].
    simpl in *. auto.
Qed.

(** ** Occurrences *)

Lemma occurs_at_split (l : str) (k : nat) (s : str) :
  occurs_at l k s -> s = firstn k s ++ l ++ skipn (k + length l) s.
Proof.
  intros [L E].
  rewrite <- (firstn_skipn k s) at 1. f_equal.
  rewrite <- (firstn_skipn (length l) (skipn k s)) at 1.
  rewrite E. f_equal. rewrite skipn_skipn. f_equal. lia.
Qed.

Lemma occurs_at_app (a l b : str) : occurs_at l (length a) (a ++ l ++ b).
Proof.
  split.
  - rewrite !length_app. lia.
  - rewrite skipn_app, skipn_all, Nat.sub_diag. simpl.
    rewrite firstn_app, Nat.sub_diag, firstn_all. simpl. apply app_nil_r.
Qed.

Lemma infix_occurs (l s : str) : infix l s <-> exists k, occurs_at l k s.
Proof.
  split.
  - intros (a & b & ->). exists (length a). apply occurs_at_app.
  - intros [k H]. exists (firstn k s), (skipn (k + length l) s).
    now apply occurs_at_split.
Qed.

Lemma occurs_at_prefixb (l : str) (k : nat) (s : str) :
  occurs_at l k s -> prefixb l (skipn k s) = true.
Proof.
  intros H. pose proof (occurs_at_split _ _ _ H) as E. destruct H as [L _].
  rewrite E, skipn_app.
  assert (Lk : length (firstn k s) = k) by (apply firstn_length_le; lia).
  rewrite Lk, Nat.sub_diag. rewrite skipn_all2 by lia. simpl.
  apply prefixb_app.
Qed.

Lemma prefixb_occurs_at (l : str) (k : nat) (s : str) :
  k <= length s -> prefixb l (skipn k s) = true -> occurs_at l k s.
Proof.
  intros Lk P. destruct (prefixb_true _ _ P) as [r E].
  pose proof (f_equal (@length ascii) E) as L.
  rewrite length_skipn, length_app in L. split; [lia|].
  rewrite E, firstn_app, Nat.sub_diag, firstn_all. simpl. apply app_nil_r.
Qed.

Lemma find0_occurs (l s : str) (i : nat) :
  find0 l s = Some i -> occurs_at l i s.
Proof.
  intros F. pose proof (find0_bound _ _ _ F) as B.
  destruct (find0_Some _ _ _ F) as [r E]. split; [exact B|].
  rewrite E, firstn_app, Nat.sub_diag, firstn_all. simpl. apply app_nil_r.
Qed.

Lemma find0_first (l s : str) (i k : nat) :
  find0 l s = Some i -> occurs_at l k s -> i <= k.
Proof.
  intros F O. destruct (Nat.le_gt_cases i k) as [L|L]; [exact L|].
  pose proof (find0_min _ _ _ _ F L) as P.
  rewrite (occurs_at_prefixb _ _ _ O) in P. discriminate.
Qed.

Lemma find0_None_occurs (l s : str) (k : nat) :
  find0 l s = None -> ~ occurs_at l k s.
Proof.
  intros F O. pose proof (find0_None _ _ k F) as P.
  rewrite (occurs_at_prefixb _ _ _ O) in P. discriminate.
Qed.


Lemma occurs_at_nth (l : str) (k : nat) (s : str) (i : nat) (d : ascii) :
  occurs_at l k s -> i < length l -> nth i l d = nth (k + i) s d.
Proof.
  intros O Hi. pose proof (occurs_at_split _ _ _ O) as E. destruct O as [L _].
  rewrite E at 1.
  assert (Lk : length (firstn k s) = k) by (apply firstn_length_le; lia).
  rewrite app_nth2 by lia. rewrite Lk.
  replace (k + i - k) with i by lia. now rewrite app_nth1 by lia.
Qed.

Lemma occurs_at_left (l : str) (k : nat) (a b : str) :
  k + length l <= length a -> occurs_at l k (a ++ b) -> occurs_at l k a.
Proof.
  intros L [_ E]. split; [exact L|].
  rewrite skipn_app in E. replace (k - length a) with 0 in E by lia.
  simpl in E. rewrite firstn_app in E.
  rewrite length_skipn in E.
  replace (length l - (length a - k)) with 0 in E by lia.
  simpl in E. now rewrite app_nil_r in E.
Qed.

Lemma occurs_at_right (l : str) (k : nat) (a b : str) :
  length a <= k -> occurs_at l k (a ++ b) -> occurs_at l (k - length a) b.
Proof.
  intros L [B E]. rewrite length_app in B. split; [lia|].
  rewrite skipn_app in E. rewrite skipn_all2 in E by exact L. exact E.
Qed.

Lemma occurs_at_in_left (l : str) (k : nat) (a b : str) :
  occurs_at l k a -> occurs_at l k (a ++ b).
Proof.
  intros [L E]. split; [rewrite length_app; lia|].
  rewrite skipn_app. replace (k - length a) with 0 by lia. simpl.
  rewrite firstn_app, E, length_skipn.
  replace (length l - (length a - k)) with 0 by lia. simpl. apply app_nil_r.
Qed.

Lemma occurs_at_in_right (l : str) (k : nat) (a b : str) :
  occurs_at l k b -> occurs_at l (length a + k) (a ++ b).
Proof.
  intros [L E]. split; [rewrite length_app; lia|].
  rewrite skipn_app, skipn_all2 by lia.
  replace (length a + k - length a) with k by lia. exact E.
Qed.

Lemma brace_free_spec (l : str) :
  brace_free l = true -> ~ In lbrace l /\ ~ In rbrace l.
Proof.
  unfold brace_free. intros H. apply andb_true_iff in H as [H1 H2].
  apply negb_true_iff in H1, H2. split; intros I.
  - assert (existsb (Ascii.eqb lbrace) l = true); [|congruence].
    apply existsb_exists. exists lbrace. split; [exact I | apply Ascii.eqb_refl].
  - assert (existsb (Ascii.eqb rbrace) l = true); [|congruence].
    apply existsb_exists. exists rbrace. split; [exact I | apply Ascii.eqb_refl].
Qed.

Lemma infixb_false (l s : str) : infixb l s = false -> forall k, ~ occurs_at l k s.
Proof.
  unfold infixb. destruct (find0 l s) eqn:F; [discriminate|].
  intros _ k. now apply find0_None_occurs.
Qed.

(** An occurrence of a brace-free literal that is no part of the placeholder
    lies on one side of an inserted placeholder. *)
Lemma occurs_beside_placeholder (l mid a b : str) (k : nat) :
  ~ In lbrace l -> ~ In rbrace l ->
  (forall j, ~ occurs_at l j (lbrace :: mid ++ [rbrace])) ->
  occurs_at l k (a ++ (lbrace :: mid ++ [rbrace]) ++ b) ->
  k + length l <= length a
  \/ length a + length (lbrace :: mid ++ [rbrace]) <= k.
Proof.
  set (ph := lbrace :: mid ++ [rbrace]).
  intros Nl Nr Nph O.
  assert (Lph : length ph = S (S (length mid)))
    by (unfold ph; simpl; rewrite length_app; simpl; lia).
  destruct (Nat.le_gt_cases (k + length l) (length a)) as [C1|C1]; [now left|].
  destruct (Nat.le_gt_cases (length a + length ph) k) as [C2|C2]; [now right|].
  exfalso.
  destruct (Nat.le_gt_cases k (length a)) as [C3|C3].
  - (* the left brace of the placeholder is a character of [l] *)
    apply Nl.
    pose proof (occurs_at_nth _ _ _ (length a - k) lbrace O) as N.
    replace (k + (length a - k)) with (length a) in N by lia.
    rewrite app_nth2, Nat.sub_diag in N by lia. simpl in N.
    rewrite <- N by lia. apply nth_In. lia.
  - destruct (Nat.le_gt_cases (k + length l) (length a + length ph)) as [C4|C4].
    + (* [l] lies inside the placeholder *)
      apply (Nph (k - length a)).
      apply occurs_at_right in O; [|lia].
      apply occurs_at_left in O; [exact O | lia].
    + (* the right brace of the placeholder is a character of [l] *)
      apply Nr.
      assert (Hi : length a + S (length mid) - k < length l) by lia.
      pose proof (occurs_at_nth _ _ _ _ rbrace O Hi) as N.
      replace (k + (length a + S (length mid) - k))
        with (length a + S (length mid)) in N by lia.
      rewrite app_nth2 in N by lia.
      replace (length a + S (length mid) - length a)
        with (S (length mid)) in N by lia.
      rewrite app_nth1 in N by lia.
      assert (R : nth (S (length mid)) ph rbrace = rbrace).
      { unfold ph. cbn [nth]. rewrite app_nth2 by lia.
        now rewrite Nat.sub_diag. }
      rewrite R in N. rewrite <- N. apply nth_In. exact Hi.
Qed.

(** ** The substitution loop *)

Lemma find_Some (l s : str) (c pos : nat) :
  find l s c = Some pos ->
  c <= pos /\ occurs_at l pos s
  /\ forall k, c <= k -> occurs_at l k s -> pos <= k.
Proof.
  unfold find. destruct (length s <? c) eqn:E; [discriminate|].
  apply Nat.ltb_ge in E.
  destruct (find0 l (skipn c s)) as [i|] eqn:F; [|discriminate].
  intros [= <-]. split; [lia|]. split.
  - pose proof (find0_occurs _ _ _ F) as O.
    rewrite <- (firstn_skipn c s) at 1.
    replace c with (length (firstn c s)) at 1
      by (apply firstn_length_le; lia).
    now apply occurs_at_in_right.
  - intros k Hk O.
    rewrite <- (firstn_skipn c s) in O.
    apply occurs_at_right in O;
      [|rewrite firstn_length_le by lia; exact Hk].
    rewrite firstn_length_le in O by lia.
    pose proof (find0_first _ _ _ _ F O). lia.
Qed.

Lemma find_None (l s : str) (c k : nat) :
  find l s c = None -> c <= k -> ~ occurs_at l k s.
Proof.
  unfold find. destruct (length s <? c) eqn:E.
  - apply Nat.ltb_lt in E. intros _ Hk [L _]. lia.
  - apply Nat.ltb_ge in E.
    destruct (find0 l (skipn c s)) as [i|] eqn:F; [discriminate|].
    intros _ Hk O.
    rewrite <- (firstn_skipn c s) in O.
    apply occurs_at_right in O;
      [|rewrite firstn_length_le by lia; exact Hk].
    eapply find0_None_occurs; eauto.
Qed.

Lemma replace_at_text (l ph : str) (pos : nat) (st : str * list log_entry) :
  fst (replace_at l ph pos st)
  = firstn pos (fst st) ++ ph ++ skipn (pos + length l) (fst st).
Proof. now destruct st. Qed.

(** The loop keeps what every iteration keeps. *)
Lemma replace_loop_rule (Inv : str * list log_entry -> nat -> Prop)
  (l ph : str) :
  (forall st c pos, Inv st c -> find l (fst st) c = Some pos ->
     Inv (replace_at l ph pos st) (pos + length ph)) ->
  forall fuel st c st',
    Inv st c -> replace_loop fuel l ph st c = Some st' ->
    exists c', Inv st' c' /\ find l (fst st') c' = None.
Proof.
  intros Step. induction fuel as [|fuel IH]; intros st c st' I R; simpl in R;
    [discriminate|].
  destruct (find l (fst st) c) as [pos|] eqn:F.
  - eapply IH; [|exact R]. eapply Step; eauto.
  - injection R as <-. eauto.
Qed.

(** For a non-empty literal the loop returns. *)
Lemma replace_loop_terminates (l ph : str) :
  l <> [] ->
  forall fuel st c,
    c <= length (fst st) -> length (fst st) - c < fuel ->
    exists st', replace_loop fuel l ph st c = Some st'.
Proof.
  intros Hl. induction fuel as [|fuel IH]; intros st c Hc Hf; [lia|].
  simpl. destruct (find l (fst st) c) as [pos|] eqn:F; [|eauto].
  destruct (find_Some _ _ _ _ F) as (Hp & [Lp _] & _).
  assert (0 < length l) by (destruct l; [congruence | simpl; lia]).
  apply IH; rewrite replace_at_text, !length_app, length_skipn,
    firstn_length_le by lia; lia.
Qed.

(** For the empty literal it never does: every iteration finds the empty
    string at the cursor. *)
Lemma replace_loop_empty_literal (ph : str) :
  forall fuel st c,
    c <= length (fst st) -> replace_loop fuel [] ph st c = None.
Proof.
  induction fuel as [|fuel IH]; intros st c Hc; [reflexivity|].
  simpl. unfold find at 1.
  destruct (length (fst st) <? c) eqn:E; [apply Nat.ltb_lt in E; lia|].
  assert (F : find0 [] (skipn c (fst st)) = Some 0)
    by (now destruct (skipn c (fst st))).
  rewrite F. simpl. apply IH.
  rewrite replace_at_text, !length_app, length_skipn,
    firstn_length_le by lia. lia.
Qed.

Lemma find_at_cursor (l pre s : str) :
  find l (pre ++ s) (length pre)
  = option_map (Nat.add (length pre)) (find0 l s).
Proof.
  unfold find. rewrite length_app.
  destruct (length pre + length s <? length pre) eqn:E;
    [apply Nat.ltb_lt in E; lia|].
  now rewrite skipn_app, skipn_all, Nat.sub_diag.
Qed.

(** One turn of the loop: on a hit the cursor goes to the position right
    after the inserted placeholder. *)
Lemma replace_loop_unfold (fuel : nat) (l ph : str)
  (st : str * list log_entry) (c : nat) :
  replace_loop (S fuel) l ph st c
  = match find l (fst st) c with
    | None => Some st
    | Some pos =>
        replace_loop fuel l ph (replace_at l ph pos st) (pos + length ph)
    end.
Proof. reflexivity. Qed.

Lemma replace_loop_replace_all (l ph : str) :
  l <> [] ->
  forall n s pre log, length s <= n ->
  exists log',
    replace_loop (S n) l ph (pre ++ s, log) (length pre)
    = Some (pre ++ replace_all n l ph s, log').
Proof.
  intros Hl. induction n as [|n IH]; intros s pre log Hs.
  - destruct s; [|simpl in Hs; lia].
    rewrite replace_loop_unfold. cbn [fst]. rewrite find_at_cursor.
    destruct l; [congruence|]. simpl. eauto.
  - rewrite replace_loop_unfold. cbn [fst]. rewrite find_at_cursor.
    cbn [replace_all].
    destruct (find0 l s) as [i|] eqn:F; cbn [option_map]; [|eauto].
    pose proof (find0_bound _ _ _ F) as B.
    assert (0 < length l) by (destruct l; [congruence | simpl; lia]).
    unfold replace_at.
    rewrite firstn_app, firstn_all2 by lia.
    replace (length pre + i - length pre) with i by lia.
    rewrite skipn_app, skipn_all2 by lia.
    replace (length pre + i + length l - length pre)
      with (i + length l) by lia.
    cbn [app].
    replace ((pre ++ firstn i s) ++ ph ++ skipn (i + length l) s)
      with ((pre ++ firstn i s ++ ph) ++ skipn (i + length l) s)
      by (now rewrite <- !app_assoc).
    replace (length pre + i + length ph)
      with (length (pre ++ firstn i s ++ ph))
      by (rewrite !length_app, firstn_length_le by lia; lia).
    destruct (IH (skipn (i + length l) s) (pre ++ firstn i s ++ ph)
                (log ++ [LogEntry ph l (Z.of_nat (length pre + i))
                   (slice (length pre + i - 40) (length pre + i) (pre ++ s))
                   (slice (length pre + i + length l)
                      (length pre + i + length l + 40) (pre ++ s))]))
      as [log' E]; [rewrite length_skipn; lia|].
    rewrite E. rewrite <- !app_assoc. eauto.
Qed.

Lemma find0_prefix (l x : str) : find0 l (l ++ x) = Some 0.
Proof.
  destruct (l ++ x) as [|c s] eqn:E; simpl.
  - apply app_eq_nil in E as [-> _]. reflexivity.
  - now rewrite <- E, prefixb_app.
Qed.

Lemma replace_all_adjacent (n : nat) (l ph s : str) :
  replace_all (S n) l ph (l ++ s) = ph ++ replace_all n l ph s.
Proof.
  cbn [replace_all]. rewrite find0_prefix. simpl.
  now rewrite skipn_app, skipn_all, Nat.sub_diag.
Qed.

(** C6 (as amended). Within the pass of one non-empty literal, a hit at
    [pos] moves the cursor to [pos + len(placeholder)], right after the
    inserted placeholder; the pass returns, and its result is the
    left-to-right replacement [replace_all], in which the text of an inserted
    placeholder is never searched again and an occurrence that directly
    follows a replaced one is replaced as well.  (The pass of every later
    literal starts again at cursor 0 of the running text: see
    [replace_literal].) *)
Theorem cursor_advances_past_placeholder
  (flat : list (str * str)) (l : str) (text : str) (log : list log_entry) :
  l <> [] ->
  let ph := get (assoc_get l flat) [] in
  (forall fuel st c,
     replace_loop (S fuel) l ph st c
     = match find l (fst st) c with
       | None => Some st
       | Some pos =>
           replace_loop fuel l ph (replace_at l ph pos st) (pos + length ph)
       end)
  /\ (exists log',
        replace_literal flat (Some (text, log)) l
        = Some (replace_all (length text) l ph text, log'))
  /\ (forall n s,
        replace_all (S (S n)) l ph (l ++ l ++ s)
        = ph ++ ph ++ replace_all n l ph s).
Proof.
  intros Hl ph. split; [reflexivity|]. split.
  - unfold replace_literal. cbn [fst]. fold ph.
    destruct (replace_loop_replace_all l ph Hl (length text) text [] log
                (le_n _)) as [log' E].
    exists log'. exact E.
  - intros n s. now rewrite !replace_all_adjacent.
Qed.

(** ** No literal is left *)

(** How occurrences move when the literal at [pos] is replaced. *)
Lemma occurs_after_replace (x l mid t : str) (pos k : nat) :
  ~ In lbrace x -> ~ In rbrace x ->
  (forall j, ~ occurs_at x j (lbrace :: mid ++ [rbrace])) ->
  occurs_at l pos t ->
  occurs_at x k
    (firstn pos t ++ (lbrace :: mid ++ [rbrace]) ++ skipn (pos + length l) t) ->
  (k + length x <= pos /\ occurs_at x k t)
  \/ (pos + length (lbrace :: mid ++ [rbrace]) <= k
      /\ occurs_at x (k - length (lbrace :: mid ++ [rbrace]) + length l) t).
Proof.
  set (ph := lbrace :: mid ++ [rbrace]).
  intros Nl Nr Nph [Lp _] O.
  assert (La : length (firstn pos t) = pos) by (apply firstn_length_le; lia).
  destruct (occurs_beside_placeholder x mid _ _ k Nl Nr Nph O) as [C|C];
    fold ph in C; rewrite La in C.
  - left. split; [exact C|].
    apply occurs_at_left in O; [|lia].
    rewrite <- (firstn_skipn pos t). now apply occurs_at_in_left.
  - right. split; [exact C|].
    apply occurs_at_right in O; [|lia]. rewrite La in O.
    apply occurs_at_right in O; [|lia].
    rewrite <- (firstn_skipn (pos + length l) t).
    replace (k - length ph + length l)
      with (length (firstn (pos + length l) t) + (k - pos - length ph))
      by (rewrite firstn_length_le by lia; lia).
    now apply occurs_at_in_right.
Qed.

Section Absent.

Variables (l mid : str).
Let ph : str := lbrace :: mid ++ [rbrace].
Hypothesis l_no_lbrace : ~ In lbrace l.
Hypothesis l_no_rbrace : ~ In rbrace l.
Hypothesis l_not_in_ph : forall j, ~ occurs_at l j ph.

Lemma l_nonempty : 0 < length l.
Proof.
  destruct l as [|c r] eqn:E; [|simpl; lia].
  exfalso. apply (l_not_in_ph 0). split; simpl; [lia | reflexivity].
Qed.

(** After its pass the literal occurs nowhere. *)
Lemma pass_removes_literal (fuel : nat) (st st' : str * list log_entry) :
  replace_loop fuel l ph st 0 = Some st' ->
  forall k, ~ occurs_at l k (fst st').
Proof.
  intros R.
  destruct (replace_loop_rule
              (fun st c => forall k, occurs_at l k (fst st) -> c <= k) l ph)
    with (fuel := fuel) (st := st) (c := 0) (st' := st')
    as (c' & I & F); auto.
  - clear R. intros s0 c pos I F k O.
    destruct (find_Some _ _ _ _ F) as (Hc & Op & Min).
    rewrite replace_at_text in O.
    destruct (occurs_after_replace l l mid _ pos k l_no_lbrace l_no_rbrace
                l_not_in_ph Op O) as [[C O']|[C _]].
    + pose proof l_nonempty. specialize (Min k (I k O') O'). lia.
    + exact C.
  - intros; lia.
  - intros k O. exact (find_None _ _ _ k F (I k O) O).
Qed.

(** A literal that occurred nowhere before the pass of [l] occurs nowhere
    after it. *)
Lemma pass_keeps_absent (x : str) (fuel : nat) (st st' : str * list log_entry)
  (c : nat) :
  ~ In lbrace x -> ~ In rbrace x -> (forall j, ~ occurs_at x j ph) ->
  (forall k, ~ occurs_at x k (fst st)) ->
  replace_loop fuel l ph st c = Some st' ->
  forall k, ~ occurs_at x k (fst st').
Proof.
  intros Nl Nr Nph A R.
  destruct (replace_loop_rule
              (fun st _ => forall k, ~ occurs_at x k (fst st)) l ph)
    with (fuel := fuel) (st := st) (c := c) (st' := st')
    as (c' & I & _); auto.
  clear R A. intros s0 c0 pos I F k O.
  destruct (find_Some _ _ _ _ F) as (_ & Op & _).
  rewrite replace_at_text in O.
  destruct (occurs_after_replace x l mid _ pos k Nl Nr Nph Op O)
    as [[_ O']|[_ O']]; eapply I; eauto.
Qed.

End Absent.

Lemma fold_replace_literal_None (flat : list (str * str)) (lits : list str) :
  fold_left (replace_literal flat) lits None = None.
Proof. induction lits; simpl; auto. Qed.

Lemma assoc_get_In (V : Type) (k : str) (v : V) (d : list (str * V)) :
  assoc_get k d = Some v -> In k (map fst d) /\ In v (map snd d).
Proof.
  induction d as [|[k' v'] d IH]; simpl; [discriminate|].
  destruct (str_eqb k k') eqn:E.
  - apply str_eqb_eq in E. intros [= ->]. auto.
  - intros H. destruct (IH H). auto.
Qed.

Lemma In_assoc_get (V : Type) (k : str) (d : list (str * V)) :
  In k (map fst d) -> exists v, assoc_get k d = Some v.
Proof.
  induction d as [|[k' v'] d IH]; simpl; [contradiction|].
  destruct (str_eqb k k') eqn:E; [eauto|].
  intros [->|H]; [now rewrite str_eqb_refl in E | auto].
Qed.

Lemma make_placeholder_shaped (ty : str) (n : nat) :
  shaped (make_placeholder ty n).
Proof.
  exists (ty ++ chars "_" ++ str_of_nat n). unfold make_placeholder.
  simpl. now rewrite <- !app_assoc.
Qed.

Lemma assoc_set_values (V : Type) (P : V -> Prop) (k : str) (v : V)
  (d : list (str * V)) :
  P v -> Forall P (map snd d) -> Forall P (map snd (assoc_set k v d)).
Proof.
  intros Pv. induction d as [|[k' v'] d IH]; simpl; intros H.
  - now constructor.
  - inversion H; subst. destruct (str_eqb k k'); simpl; constructor; auto.
Qed.

Lemma flat_values_shaped (set_iter : list str -> list str)
  (gs : list (str * group_info)) (st : assign_state) :
  Forall shaped (map snd (text_to_placeholder st)) ->
  Forall shaped
    (map snd (text_to_placeholder (fold_left (assign_group set_iter) gs st))).
Proof.
  revert st; induction gs as [|[c info] gs IH]; intros st H; simpl; [exact H|].
  apply IH. simpl.
  generalize (set_iter (g_texts info)). intros ts.
  revert H. generalize (text_to_placeholder st).
  induction ts as [|t ts IHt]; intros m H; simpl; [exact H|].
  apply IHt. apply assoc_set_values; [|exact H].
  apply make_placeholder_shaped.
Qed.

Lemma literals_safe_spec (flat : list (str * str)) (l ph : str) :
  literals_safe flat = true ->
  In l (map fst flat) -> In ph (map snd flat) ->
  ~ In lbrace l /\ ~ In rbrace l /\ forall j, ~ occurs_at l j ph.
Proof.
  unfold literals_safe. rewrite forallb_forall. intros H Hl Hph.
  specialize (H l Hl). apply andb_true_iff in H as [B F].
  destruct (brace_free_spec _ B). rewrite forallb_forall in F.
  specialize (F ph Hph). apply negb_true_iff in F.
  repeat split; auto. now apply infixb_false.
Qed.

Lemma substitute_fold_absent (flat : list (str * str)) :
  literals_safe flat = true ->
  Forall shaped (map snd flat) ->
  forall lits done st st',
    (forall x, In x lits -> In x (map fst flat)) ->
    (forall x, In x done -> In x (map fst flat)) ->
    (forall x, In x done -> forall k, ~ occurs_at x k (fst st)) ->
    fold_left (replace_literal flat) lits (Some st) = Some st' ->
    forall x, In x (lits ++ done) -> forall k, ~ occurs_at x k (fst st').
Proof.
  intros Safe Shaped. induction lits as [|l lits IH];
    intros done st st' Hl Hd A R x Hx; cbn [fold_left] in R.
  - injection R as <-. now apply A.
  - destruct (In_assoc_get _ l flat (Hl l (or_introl eq_refl))) as [ph G].
    destruct (assoc_get_In _ _ _ _ G) as [_ Hph].
    pose proof (proj1 (Forall_forall _ _) Shaped ph Hph) as [mid Eph].
    destruct (literals_safe_spec flat l ph Safe (Hl l (or_introl eq_refl)) Hph)
      as (Nl & Nr & Nph).
    assert (E1 : replace_literal flat (Some st) l
                 = replace_loop (S (length (fst st))) l ph st 0)
      by (unfold replace_literal; now rewrite G).
    rewrite E1 in R. clear E1.
    destruct (replace_loop (S (length (fst st))) l ph st 0) as [st1|] eqn:P;
      [|now rewrite fold_replace_literal_None in R].
    apply (IH (l :: done) st1 st'); auto.
    + intros; apply Hl; now right.
    + intros y [<-|Hy]; auto. apply Hl. now left.
    + subst ph. intros y [<-|Hy].
      * eapply pass_removes_literal; eauto.
      * destruct (literals_safe_spec flat y _ Safe (Hd y Hy) Hph)
          as (Nl' & Nr' & Nph').
        eapply pass_keeps_absent with (x := y); eauto.
    + apply in_app_or in Hx as [[<-|Hx]|Hx]; apply in_or_app.
      * right. now left.
      * now left.
      * right. now right.
Qed.

Lemma literals_safe_nonempty (flat : list (str * str)) (l : str) :
  literals_safe flat = true -> In l (map fst flat) -> l <> [].
Proof.
  intros Safe Hl ->.
  destruct (In_assoc_get _ [] flat Hl) as [ph G].
  destruct (assoc_get_In _ _ _ _ G) as [_ Hph].
  destruct (literals_safe_spec flat [] ph Safe Hl Hph) as (_ & _ & N).
  apply (N 0). split; simpl; [lia | reflexivity].
Qed.

(** With non-empty literals the substitution returns. *)
Lemma substitute_fold_returns (flat : list (str * str)) (lits : list str) :
  (forall l, In l lits -> l <> []) ->
  forall st, exists st', fold_left (replace_literal flat) lits (Some st) = Some st'.
Proof.
  induction lits as [|l lits IH]; intros Hl st; cbn [fold_left]; [eauto|].
  destruct (replace_loop_terminates l (get (assoc_get l flat) [])
              (Hl l (or_introl eq_refl)) (S (length (fst st))) st 0)
    as [st1 E]; [lia | lia |].
  unfold replace_literal at 2. rewrite E. apply IH.
  intros; apply Hl; now right.
Qed.

Lemma substitute_returns (flat : list (str * str)) (text : str) :
  (forall l, In l (map fst flat) -> l <> []) ->
  exists st, substitute flat text = Some st.
Proof.
  intros H. apply substitute_fold_returns. intros l Hl. apply H.
  eapply Permutation_in; [apply sorted_desc_perm | exact Hl].
Qed.

(** ** The anonymized text as gaps and substituted tokens *)



Lemma bounds_ok_weaken (lay : list (str * log_entry)) :
  forall lo hi lo' hi', lo' <= lo -> hi <= hi' ->
  bounds_ok lo hi lay -> bounds_ok lo' hi' lay.
Proof.
  induction lay as [|[g e] r IH]; intros lo hi lo' hi' Hl Hh; simpl; [auto|].
  intros [B R]. split; [lia|]. eapply IH; [| |exact R]; lia.
Qed.

Lemma is_tokenb_spec (ph : str) : is_tokenb ph = true -> is_token ph.
Proof.
  unfold is_tokenb. destruct (match_token ph) as [n|] eqn:M; [|discriminate].
  intros E. apply Nat.eqb_eq in E. subst n.
  destruct (match_token_spec _ _ M) as [T _]. now rewrite firstn_all in T.
Qed.

Section Insert.

Variable e : log_entry.
Let l : str := original_text e.
Hypothesis l_no_lbrace : ~ In lbrace l.
Hypothesis l_no_rbrace : ~ In rbrace l.

Lemma insert_seg_spec (segs : list seg) :
  forall (tail : str) (pos : nat),
  insertable l segs ->
  occurs_at l pos (render segs tail) ->
  let segs' := fst (insert_seg pos e segs tail) in
  let tail' := snd (insert_seg pos e segs tail) in
  render segs' tail'
  = firstn pos (render segs tail) ++ placeholder e
      ++ skipn (pos + length l) (render segs tail)
  /\ render (restore_all segs') tail' = render (restore_all segs) tail
  /\ Permutation (map entry segs') (e :: map entry segs)
  /\ Forall (fun s => restored s = false) segs'
  /\ (forall lo hi cur,
        lo <= cur <= hi -> position e = Z.of_nat (cur + pos) ->
        (forall s, In s segs -> restored s = false) ->
        bounds_ok lo hi (layout segs) ->
        bounds_ok lo hi (layout segs')).
Proof.
  induction segs as [|s r IH]; intros tail pos Ins O.
  - cbn [insert_seg fst snd render restore_all map layout shown restored
         entry gap].
    cbn [render] in O. fold l.
    split; [reflexivity|]. split.
    { symmetry. exact (occurs_at_split _ _ _ O). }
    destruct O as [L E].
    split; [reflexivity|]. split; [repeat constructor|].
    intros lo hi cur Hc Hp _ _. simpl. split; [|exact I].
    rewrite firstn_length_le by lia. lia.
  - inversion Ins as [|? ? (Fs & [mid Sh] & Ns) Ins']; subst.
    cbn [insert_seg]. fold l.
    cbn [render] in O. unfold shown in O. rewrite Fs in O.
    destruct (pos + length l <=? length (gap s)) eqn:C.
    + apply Nat.leb_le in C.
      cbn [fst snd render restore_all map layout shown restored entry gap].
      rewrite Fs. fold l.
      assert (G : gap s = firstn pos (gap s) ++ l
                          ++ skipn (pos + length l) (gap s)).
      { apply occurs_at_split. apply occurs_at_left in O; auto. }
      split.
      { unfold shown. rewrite Fs.
        rewrite firstn_app, skipn_app.
        replace (pos - length (gap s)) with 0 by lia.
        replace (pos + length l - length (gap s)) with 0 by lia.
        simpl. now rewrite <- ?app_assoc, ?app_nil_r. }
      split.
      { rewrite G at 3. now rewrite <- !app_assoc. }
      split; [reflexivity|]. split.
      { constructor; [reflexivity|]. constructor; [reflexivity|].
        eapply Forall_impl; [|exact Ins']. now intros a (H & _). }
      intros lo hi cur Hc Hp _ [B R]. cbn [bounds_ok] in *.
      assert (Lg : length (gap s)
                   = pos + length l + length (skipn (pos + length l) (gap s))).
      { rewrite length_skipn. lia. }
      rewrite firstn_length_le by lia.
      split; [lia|]. split; [fold l; lia|].
      eapply bounds_ok_weaken; [| |exact R]; fold l; lia.
    + apply Nat.leb_gt in C. rewrite Sh in O.
      destruct (occurs_beside_placeholder l mid _ _ pos
                  l_no_lbrace l_no_rbrace
                  (fun j => eq_ind _ (fun p => ~ occurs_at l j p) (Ns j) _ Sh)
                  O) as [C'|C']; [lia|].
      rewrite <- Sh in O, C'.
      assert (Sw : shown s = placeholder (entry s))
        by (unfold shown; now rewrite Fs).
      rewrite Sw.
      set (pos' := pos - length (gap s) - length (placeholder (entry s))).
      assert (O' : occurs_at l pos' (render r tail)).
      { apply occurs_at_right in O; [|lia].
        apply occurs_at_right in O; [|lia]. exact O. }
      specialize (IH tail pos' Ins' O').
      destruct (insert_seg pos' e r tail) as [r' tail'] eqn:I.
      cbn [fst snd] in IH |- *.
      destruct IH as (R1 & R2 & R3 & R4 & R5).
      cbn [render restore_all map layout shown restored entry gap].
      rewrite Sw. split.
      { rewrite R1. rewrite !firstn_app, !skipn_app.
        rewrite (@firstn_all2 _ _ (gap s)) by lia.
        rewrite (skipn_all2 (gap s)) by lia.
        rewrite (@firstn_all2 _ _ (placeholder (entry s))) by lia.
        rewrite (skipn_all2 (placeholder (entry s))) by lia.
        replace (pos - length (gap s) - length (placeholder (entry s)))
          with pos' by reflexivity.
        replace (pos + length l - length (gap s)
                 - length (placeholder (entry s)))
          with (pos' + length l) by lia.
        simpl. now rewrite <- !app_assoc. }
      split.
      { unfold restore_all in R2. now rewrite R2. }
      split.
      { rewrite R3. apply perm_swap. }
      split; [constructor; auto|].
      intros lo hi cur Hc Hp Hfl [B R]. cbn [bounds_ok].
      split; [lia|].
      assert (Hc' : lo + length (gap s)
                    + Nat.min (length (placeholder (entry s)))
                        (length (original_text (entry s)))
                    <= cur + length (gap s) + length (placeholder (entry s))
                    <= hi + length (gap s)
                       + Nat.max (length (placeholder (entry s)))
                           (length (original_text (entry s)))) by lia.
      specialize (R5 _ _ _ Hc').
      apply R5; auto.
      * rewrite Hp. f_equal. lia.
      * intros; apply Hfl; now right.
Qed.

End Insert.

(** ** What the substitution establishes *)

Section SubstitutionInvariant.

Variable flat : list (str * str).
Hypothesis flat_safe : literals_safe flat = true.
Hypothesis flat_shaped : Forall shaped (map snd flat).
Variable D : str.

Lemma sub_inv_init : sub_inv flat D (D, []).
Proof.
  exists [], D. simpl. repeat split; auto; constructor.
Qed.

Lemma sub_inv_step (l ph : str) (st : str * list log_entry) (c pos : nat) :
  In l (map fst flat) -> In ph (map snd flat) ->
  sub_inv flat D st -> find l (fst st) c = Some pos ->
  sub_inv flat D (replace_at l ph pos st).
Proof.
  intros Hl Hph (segs & tail & E1 & E2 & E3 & E4 & E5 & E6) F.
  destruct (find_Some _ _ _ _ F) as (_ & O & _).
  destruct st as [text log]. cbn [fst snd] in *. subst text.
  unfold replace_at.
  set (e := LogEntry ph l (Z.of_nat pos)
              (slice (pos - 40) pos (render segs tail))
              (slice (pos + length l) (pos + length l + 40)
                 (render segs tail))).
  destruct (literals_safe_spec flat l ph flat_safe Hl Hph) as (Nl & Nr & _).
  assert (Ins : insertable l segs).
  { unfold insertable. rewrite Forall_forall in E4, E6 |- *.
    intros s Hs. split; [now apply E4|].
    destruct (E6 (entry s) (in_map entry _ _ Hs)) as [_ Hv].
    split; [exact (proj1 (Forall_forall _ _) flat_shaped _ Hv)|].
    now apply (literals_safe_spec flat l _ flat_safe Hl Hv). }
  destruct (insert_seg_spec e Nl Nr segs tail pos Ins O)
    as (R1 & R2 & R3 & R4 & R5).
  exists (fst (insert_seg pos e segs tail)), (snd (insert_seg pos e segs tail)).
  cbn [fst snd]. split; [now rewrite R1|].
  split; [now rewrite R2|]. split.
  { rewrite R3, E3. apply Permutation_cons_append. }
  split; [exact R4|]. split.
  { specialize (R5 0 0 0). simpl in R5. apply R5; auto.
    now apply Forall_forall. }
  eapply Permutation_Forall; [apply Permutation_sym, R3|].
  constructor; [simpl; auto | exact E6].
Qed.

Lemma sub_inv_loop (l ph : str) (fuel : nat) (st st' : str * list log_entry)
  (c : nat) :
  In l (map fst flat) -> In ph (map snd flat) ->
  sub_inv flat D st -> replace_loop fuel l ph st c = Some st' ->
  sub_inv flat D st'.
Proof.
  intros Hl Hph I R.
  destruct (replace_loop_rule (fun st _ => sub_inv flat D st) l ph)
    with (fuel := fuel) (st := st) (c := c) (st' := st')
    as (c' & I' & _); auto.
  intros s0 c0 pos I0 F. eapply sub_inv_step; eauto.
Qed.

Lemma sub_inv_fold (lits : list str) :
  forall st st',
  (forall x, In x lits -> In x (map fst flat)) ->
  sub_inv flat D st ->
  fold_left (replace_literal flat) lits (Some st) = Some st' ->
  sub_inv flat D st'.
Proof.
  induction lits as [|l lits IH]; intros st st' Hl I R; cbn [fold_left] in R.
  - now injection R as <-.
  - destruct (In_assoc_get _ l flat (Hl l (or_introl eq_refl))) as [ph G].
    destruct (assoc_get_In _ _ _ _ G) as [_ Hph].
    assert (E1 : replace_literal flat (Some st) l
                 = replace_loop (S (length (fst st))) l ph st 0)
      by (unfold replace_literal; now rewrite G).
    rewrite E1 in R. clear E1.
    destruct (replace_loop (S (length (fst st))) l ph st 0) as [st1|] eqn:P;
      [|now rewrite fold_replace_literal_None in R].
    apply (IH st1 st'); auto.
    + intros; apply Hl; now right.
    + eapply sub_inv_loop; eauto. apply Hl. now left.
Qed.

Lemma sub_inv_substitute (T : str) (log : list log_entry) :
  substitute flat D = Some (T, log) -> sub_inv flat D (T, log).
Proof.
  intros S. unfold substitute in S.
  eapply sub_inv_fold; [| apply sub_inv_init | exact S].
  intros x. apply Permutation_in, sorted_desc_perm.
Qed.

End SubstitutionInvariant.

(** ** The placeholders stand side by side *)

Lemma side_by_side_render (segs : list seg) :
  Forall (fun s => restored s = false) segs ->
  forall pre tail,
  side_by_side (length pre) (site_offsets (length pre) segs)
    (pre ++ render segs tail).
Proof.
  induction 1 as [|s r Hs _ IH]; intros pre tail; cbn [site_offsets
    side_by_side render]; [exact I|].
  assert (Sh : shown s = placeholder (entry s))
    by (unfold shown; now rewrite Hs).
  rewrite Sh. split; [lia|]. split.
  - replace (pre ++ gap s ++ placeholder (entry s) ++ render r tail)
      with ((pre ++ gap s) ++ placeholder (entry s) ++ render r tail)
      by (now rewrite <- app_assoc).
    rewrite <- length_app. apply occurs_at_app.
  - specialize (IH (pre ++ gap s ++ placeholder (entry s)) tail).
    rewrite <- !app_assoc in IH. rewrite !length_app in IH.
    now rewrite !Nat.add_assoc in IH.
Qed.

(** C5 (as amended). When no literal of the flat map contains a brace and
    none occurs inside a placeholder id of the map, [execute_replacement]
    returns, and its text is the document with some occurrences of literals
    replaced: it is cut into untouched text and sites, one site for every
    record of the replacement log, the site showing the record's placeholder
    where the document has the record's original text.  The placeholders
    stand side by side: every record has a site of its own where its
    placeholder stands, and no site begins before the site to its left has
    ended, so that no placeholder lies inside another one.  And the text
    contains no literal of the map. *)
Theorem no_literal_left_no_nested_token
  (set_iter : list str -> list str) (now text src : str)
  (entities : list entity) (p1 : pass1) :
  let flat :=
    text_to_placeholder
      (assign_placeholders set_iter (build_groups entities p1)) in
  literals_safe flat = true ->
  exists T M segs tail,
    execute_replacement set_iter now text entities p1 src = Some (T, M)
    /\ T = render segs tail
    /\ text = render (restore_all segs) tail
    /\ Forall (fun s => restored s = false) segs
    /\ Permutation (map entry segs) (get (m_replacement_log M) [])
    /\ side_by_side 0 (site_offsets 0 segs) T
    /\ forall l, In l (map fst flat) -> find0 l T = None.
Proof.
  intros flat Safe. unfold execute_replacement. fold flat.
  assert (Shaped : Forall shaped (map snd flat))
    by (apply (flat_values_shaped set_iter); constructor).
  destruct (substitute_returns flat text
              (fun l => literals_safe_nonempty flat l Safe))
    as [[T log] Sub].
  rewrite Sub.
  destruct (sub_inv_substitute flat Safe Shaped text T log Sub)
    as (segs & tail & E1 & E2 & E3 & E4 & _).
  cbn [fst snd] in E1, E3.
  exists T. eexists. exists segs, tail.
  split; [reflexivity|]. cbn [m_replacement_log get].
  split; [exact E1|]. split; [exact E2|]. split; [exact E4|].
  split; [exact E3|]. split.
  { rewrite E1. exact (side_by_side_render segs E4 [] tail). }
  unfold substitute in Sub.
  intros l Hl. destruct (find0 l T) as [i|] eqn:F; [|reflexivity].
  exfalso.
  assert (P : forall x, In x (sorted_desc len_key (map fst flat)) ->
                        In x (map fst flat)).
  { intros x. apply Permutation_in, sorted_desc_perm. }
  eapply (substitute_fold_absent flat Safe Shaped) with (done := []) (x := l);
    [exact P | | | exact Sub | | apply (find0_occurs _ _ _ F)].
  - intros x [].
  - intros x [].
  - rewrite app_nil_r.
    eapply Permutation_in; [apply Permutation_sym, sorted_desc_perm|exact Hl].
Qed.

(** ** Step A on the anonymized text *)













Lemma no_lbrace_no_match (s : str) :
  ~ In lbrace s -> forall pos, finditer_from pos 0 s = [].
Proof.
  induction s as [|c s IH]; intros N pos; [reflexivity|].
  cbn [finditer_from].
  assert (M : match_token (c :: s) = None).
  { unfold match_token. destruct (Ascii.eqb c lbrace) eqn:E; [|reflexivity].
    apply Ascii.eqb_eq in E. subst c. exfalso. apply N. now left. }
  rewrite M. apply IH. intros H. apply N. now right.
Qed.

Lemma existsb_lbrace (s : str) :
  existsb (Ascii.eqb lbrace) s = false -> ~ In lbrace s.
Proof.
  intros H I.
  assert (existsb (Ascii.eqb lbrace) s = true); [|congruence].
  apply existsb_exists. exists lbrace. split; [exact I | apply Ascii.eqb_refl].
Qed.








(** * The functions around the engine: proofs *)

(** ** [_link_aliases] *)

Lemma link_in_groups_text (e : entity) (groups : list alias_group) :
  e_text (link_in_groups e groups) = e_text e
  /\ e_type (link_in_groups e groups) = e_type e.
Proof.
  induction groups as [|ag rest IH]; simpl; [auto|].
  destruct (text_in (e_text e) (all_names ag)); simpl; auto.
Qed.

Lemma link_in_groups_none (e : entity) (groups : list alias_group) :
  (forall ag, In ag groups -> text_in (e_text e) (all_names ag) = false) ->
  link_in_groups e groups = e.
Proof.
  induction groups as [|ag rest IH]; simpl; intros H; [reflexivity|].
  rewrite (H ag (or_introl eq_refl)). apply IH. intros; apply H; now right.
Qed.

Lemma link_in_groups_first (e : entity) (g1 g2 : list alias_group)
  (ag : alias_group) :
  (forall g, In g g1 -> text_in (e_text e) (all_names g) = false) ->
  text_in (e_text e) (all_names ag) = true ->
  link_in_groups e (g1 ++ ag :: g2)
  = Entity (e_text e) (e_type e) (Some (get (ag_canonical ag) [])).
Proof.
  induction g1 as [|g g1 IH]; simpl; intros H1 H2.
  - now rewrite H2.
  - rewrite (H1 g (or_introl eq_refl)). apply IH; auto.
Qed.

(** X1. [_link_aliases] keeps the length of the list and the text and type
    of every entity; an entity that already has a non-empty canonical name
    is left as it is; an entity without one whose text is the canonical name
    or an alias of some group gets the canonical name of the first such
    group of the list; an entity that no group lists is left as it is. *)
Theorem link_aliases_first_group (entities : list entity) (pass1_result : pass1) :
  let groups := get (p1_aliases pass1_result) [] in
  Forall2
    (fun e e' =>
       e_text e' = e_text e /\ e_type e' = e_type e
       /\ (truthy (e_canonical e) = true -> e' = e)
       /\ (truthy (e_canonical e) = false ->
           (forall g1 ag g2,
              groups = g1 ++ ag :: g2 ->
              (forall g, In g g1 -> text_in (e_text e) (all_names g) = false) ->
              text_in (e_text e) (all_names ag) = true ->
              e_canonical e' = Some (get (ag_canonical ag) []))
           /\ ((forall g, In g groups ->
                  text_in (e_text e) (all_names g) = false) ->
               e' = e)))
    entities (_link_aliases entities pass1_result).
Proof.
  intros groups. unfold _link_aliases.
  induction entities as [|e es IH]; simpl; constructor; [|exact IH].
  unfold link_entity. fold groups.
  destruct (truthy (e_canonical e)) eqn:T.
  - repeat split; auto; discriminate.
  - destruct (link_in_groups_text e groups) as [Ht Hy].
    split; [exact Ht|]. split; [exact Hy|]. split; [discriminate|].
    intros _. split.
    + intros g1 ag g2 -> H1 H2.
      now rewrite (link_in_groups_first e g1 g2 ag H1 H2).
    + apply link_in_groups_none.
Qed.

(** X2. Linking twice changes nothing more: [_link_aliases] is idempotent. *)
Theorem link_aliases_idempotent (entities : list entity) (pass1_result : pass1) :
  _link_aliases (_link_aliases entities pass1_result) pass1_result
  = _link_aliases entities pass1_result.
Proof.
  unfold _link_aliases. rewrite map_map. apply map_ext. intros e.
  destruct (truthy (e_canonical e)) eqn:T.
  - unfold link_entity at 2. rewrite T. unfold link_entity. now rewrite T.
  - set (groups := get (p1_aliases pass1_result) []).
    assert (H : forall gs,
               link_in_groups e gs = e
               \/ exists ag,
                    link_in_groups e gs
                    = Entity (e_text e) (e_type e)
                        (Some (get (ag_canonical ag) []))
                    /\ link_in_groups
                         (Entity (e_text e) (e_type e)
                            (Some (get (ag_canonical ag) []))) gs
                       = Entity (e_text e) (e_type e)
                           (Some (get (ag_canonical ag) []))).
    { induction gs as [|ag rest IH]; simpl; [now left|].
      destruct (text_in (e_text e) (all_names ag)) eqn:E.
      - right. exists ag. split; reflexivity.
      - destruct IH as [IH|(ag' & IH1 & IH2)]; [now left|].
        right. exists ag'. split; [exact IH1|exact IH2]. }
    assert (Hr : link_entity pass1_result e = link_in_groups e groups)
      by (unfold link_entity; now rewrite T).
    rewrite Hr.
    destruct (H groups) as [Hk|(ag & H1 & H2)].
    + rewrite Hk. rewrite Hr. exact Hk.
    + rewrite H1. unfold link_entity. simpl.
      destruct (is_nonempty (get (ag_canonical ag) [])); [reflexivity|].
      exact H2.
Qed.

(** ** [run_second_pass] *)

Lemma key_eqb_eq (a b : str * str) : key_eqb a b = true <-> a = b.
Proof.
  destruct a as [a1 a2], b as [b1 b2]. unfold key_eqb; simpl.
  rewrite andb_true_iff, !str_eqb_eq. split.
  - now intros [-> ->].
  - intros E; inversion E; auto.
Qed.

Lemma existsb_key_In (k : str * str) (seen : list (str * str)) :
  existsb (key_eqb k) seen = true <-> In k seen.
Proof.
  rewrite existsb_exists. split.
  - intros (x & Hx & E). apply key_eqb_eq in E. now subst.
  - intros H. exists k. split; [exact H|now apply key_eqb_eq].
Qed.

Lemma is_nonempty_true (s : str) : is_nonempty s = true <-> s <> [].
Proof. destruct s; simpl; split; congruence. Qed.

Lemma dedup_fold_None (items : list item) :
  fold_left dedup_step items None = None.
Proof. induction items; simpl; auto. Qed.

(** The loop raises exactly when it meets an item without fields. *)
Lemma dedup_fold_raises (items : list item) :
  forall seen unique_entities,
  fold_left dedup_step items (Some (seen, unique_entities)) = None
  <-> In NoFields items.
Proof.
  induction items as [|x rest IH]; intros seen uniq; cbn [fold_left].
  - split; [discriminate | intros []].
  - destruct x as [e|]; cbn [dedup_step].
    + destruct (negb (existsb (key_eqb (entity_key e)) seen)
                && is_nonempty (strip (get (e_text e) [])));
        rewrite IH; (split; [now right | intros [H|H]; [discriminate|exact H]]).
    + rewrite dedup_fold_None. split; [now left | reflexivity].
Qed.

(** The invariant of the de-duplication loop. *)
Lemma dedup_fold_inv (items : list item)
  (seen : list (str * str)) (unique_entities : list entity) :
  seen = map entity_key unique_entities ->
  NoDup seen ->
  Forall (fun e => strip (get (e_text e) []) <> []) unique_entities ->
  forall seen' unique',
  fold_left dedup_step items (Some (seen, unique_entities))
  = Some (seen', unique') ->
  seen' = map entity_key unique'
  /\ NoDup seen'
  /\ Forall (fun e => strip (get (e_text e) []) <> []) unique'
  /\ (forall e, In e unique' ->
        In e unique_entities \/ In (Fields e) items)
  /\ (forall e, In e unique_entities -> In e unique')
  /\ (forall e, In (Fields e) items -> strip (get (e_text e) []) <> [] ->
        In (entity_key e) seen').
Proof.
  revert seen unique_entities.
  induction items as [|x rest IH]; intros seen uniq Hs Hn Hb seen' uniq' R;
    cbn [fold_left] in R.
  - injection R as <- <-. repeat split; auto. intros e [].
  - destruct x as [x|]; cbn [dedup_step] in R;
      [|now rewrite dedup_fold_None in R].
    destruct (negb (existsb (key_eqb (entity_key x)) seen)
              && is_nonempty (strip (get (e_text x) []))) eqn:C.
    + apply andb_true_iff in C as [C1 C2].
      apply negb_true_iff in C1. apply is_nonempty_true in C2.
      assert (Hx : ~ In (entity_key x) seen).
      { intros H. apply existsb_key_In in H. congruence. }
      assert (P1 : seen ++ [entity_key x] = map entity_key (uniq ++ [x]))
        by (rewrite map_app, Hs; reflexivity).
      assert (P2 : NoDup (seen ++ [entity_key x])).
      { apply NoDup_app; [exact Hn|repeat constructor; intros []| ].
        intros k Hk [<-|[]]. contradiction. }
      assert (P3 : Forall (fun e => strip (get (e_text e) []) <> [])
                     (uniq ++ [x])).
      { apply Forall_app. split; [exact Hb|]. repeat constructor. exact C2. }
      destruct (IH _ _ P1 P2 P3 _ _ R) as (I1 & I2 & I3 & I4 & I5 & I6).
      split; [exact I1|]. split; [exact I2|]. split; [exact I3|].
      split; [|split].
      * intros e He. destruct (I4 e He) as [H|H]; [|right; now right].
        apply in_app_or in H as [H|[<-|[]]]; [now left|right; now left].
      * intros e He. apply I5. apply in_or_app. now left.
      * intros e [E|He] Hne.
        -- injection E as <-. rewrite I1. apply in_map. apply I5.
           apply in_or_app. right; now left.
        -- now apply I6.
    + destruct (IH seen uniq Hs Hn Hb _ _ R) as (I1 & I2 & I3 & I4 & I5 & I6).
      split; [exact I1|]. split; [exact I2|]. split; [exact I3|].
      split; [|split].
      * intros e He. destruct (I4 e He) as [H|H]; [now left|right; now right].
      * exact I5.
      * intros e [E|He] Hne; [|now apply I6].
        injection E as <-.
        apply andb_false_iff in C as [C|C].
        -- apply negb_false_iff, existsb_key_In in C.
           rewrite I1. rewrite Hs in C. apply in_map_iff in C as (u & Eu & Hu).
           rewrite <- Eu. apply in_map. now apply I5.
        -- apply is_nonempty_true in Hne. congruence.
Qed.

Lemma link_entity_key (pass1_result : pass1) (e : entity) :
  e_text (link_entity pass1_result e) = e_text e
  /\ e_type (link_entity pass1_result e) = e_type e.
Proof.
  unfold link_entity. destruct (truthy (e_canonical e)); [auto|].
  apply link_in_groups_text.
Qed.

Lemma link_aliases_keys (entities : list entity) (pass1_result : pass1) :
  map entity_key (_link_aliases entities pass1_result)
  = map entity_key entities.
Proof.
  unfold _link_aliases. rewrite map_map. apply map_ext. intros e.
  unfold entity_key. destruct (link_entity_key pass1_result e) as [-> ->].
  reflexivity.
Qed.

Section SecondPassFacts.

Variable scan_segment : nat -> str -> str -> option (list item).

Lemma scan_fold_In (alias_context : str) (isegs : list (nat * str))
  (acc : list item) (e : item) :
  In e (fold_left (scan_step scan_segment alias_context) isegs acc)
  <-> In e acc
      \/ exists i segment entities,
           In (i, segment) isegs
           /\ scan_segment i alias_context segment = Some entities
           /\ In e entities.
Proof.
  revert acc. induction isegs as [|[i seg] rest IH]; intros acc; simpl.
  - split; [now left|]. intros [H|(i & s & es & [] & _)]. exact H.
  - rewrite IH. unfold scan_step; simpl.
    destruct (scan_segment i alias_context seg) as [entities|] eqn:E.
    + rewrite in_app_iff. split.
      * intros [[H|H]|(i' & s' & es' & H1 & H2 & H3)].
        -- now left.
        -- right. exists i, seg, entities. auto.
        -- right. exists i', s', es'. auto.
      * intros [H|(i' & s' & es' & [H1|H1] & H2 & H3)].
        -- left; now left.
        -- inversion H1; subst. rewrite E in H2. inversion H2; subst.
           left; now right.
        -- right. exists i', s', es'. auto.
    + split.
      * intros [H|(i' & s' & es' & H1 & H2 & H3)]; [now left|].
        right. exists i', s', es'. auto.
      * intros [H|(i' & s' & es' & [H1|H1] & H2 & H3)]; [now left| |].
        -- inversion H1; subst. congruence.
        -- right. exists i', s', es'. auto.
Qed.

(** X3. For answers whose items are objects with string fields or items on
    which the de-duplication loop raises: [run_second_pass] raises exactly
    when the answer for some segment contains an item of the second kind.
    When it returns, the entities have a text that is not blank and pairwise
    different (text, type) keys; each of them is an entity of the answer for
    some segment, linked to its alias group; and every answered entity with
    a non-blank text has its key among the returned ones. *)
Theorem run_second_pass_unique_nonblank (text : str) (pass1_result : pass1) :
  let segments := _split_into_segments text (100 * 100) in
  let alias_context := _build_alias_context pass1_result in
  (run_second_pass scan_segment text pass1_result = None
   <-> exists i segment items,
         In (i, segment) (enumerate segments)
         /\ scan_segment i alias_context segment = Some items
         /\ In NoFields items)
  /\ forall result,
       run_second_pass scan_segment text pass1_result = Some result ->
       Forall (fun e => strip (get (e_text e) []) <> []) result
       /\ NoDup (map entity_key result)
       /\ (forall e, In e result ->
             exists i segment items e0,
               In (i, segment) (enumerate segments)
               /\ scan_segment i alias_context segment = Some items
               /\ In (Fields e0) items /\ e = link_entity pass1_result e0)
       /\ (forall i segment items e0,
             In (i, segment) (enumerate segments) ->
             scan_segment i alias_context segment = Some items ->
             In (Fields e0) items -> strip (get (e_text e0) []) <> [] ->
             In (entity_key e0) (map entity_key result)).
Proof.
  intros segments alias_context. unfold run_second_pass.
  fold segments. fold alias_context.
  set (all_entities :=
         fold_left (scan_step scan_segment alias_context)
           (enumerate segments) []).
  pose proof (dedup_fold_raises all_entities [] []) as Hr.
  pose proof (dedup_fold_inv all_entities [] [] eq_refl (NoDup_nil _)
                (Forall_nil _)) as Hi.
  destruct (fold_left dedup_step all_entities (Some ([], [])))
    as [[seen uniq]|] eqn:F.
  - split.
    + split; [discriminate|]. intros (i & s & es & H1 & H2 & H3).
      assert (In NoFields all_entities)
        by (apply scan_fold_In; right; exists i, s, es; auto).
      apply Hr in H. discriminate.
    + intros result [= <-].
      destruct (Hi seen uniq eq_refl) as (I1 & I2 & I3 & I4 & I5 & I6).
      split; [|split; [|split]].
      * unfold _link_aliases. apply Forall_map.
        eapply Forall_impl; [|exact I3]. intros e He. simpl.
        destruct (link_entity_key pass1_result e) as [-> _]. exact He.
      * rewrite link_aliases_keys, <- I1. exact I2.
      * intros e He. unfold _link_aliases in He.
        apply in_map_iff in He as (e0 & <- & He0).
        destruct (I4 e0 He0) as [[]|H].
        apply scan_fold_In in H as [[]|(i & s & es & H1 & H2 & H3)].
        exists i, s, es, e0. auto.
      * intros i s es e0 H1 H2 H3 Hne.
        rewrite link_aliases_keys, <- I1. apply I6; [|exact Hne].
        apply scan_fold_In. right. exists i, s, es. auto.
  - split; [|discriminate].
    split; [|reflexivity]. intros _.
    pose proof (proj1 Hr eq_refl) as H.
    apply scan_fold_In in H as [[]|H]. exact H.
Qed.

End SecondPassFacts.

(** ** White space and [strip] *)

(** The characters of a string that are not white space. *)
Local Abbreviation nonsp := (filter (fun c : ascii => negb (is_space c))).

Lemma lstrip_split (s : str) :
  exists w, s = w ++ lstrip s /\ Forall (fun c => is_space c = true) w.
Proof.
  induction s as [|c s IH]; simpl.
  - exists []. split; [reflexivity|constructor].
  - destruct (is_space c) eqn:E.
    + destruct IH as (w & Hw & Fw). exists (c :: w). split.
      * simpl. now rewrite <- Hw.
      * now constructor.
    + exists []. split; [reflexivity|constructor].
Qed.

Lemma lstrip_head (s : str) :
  lstrip s = [] \/ exists c r, lstrip s = c :: r /\ is_space c = false.
Proof.
  induction s as [|c s IH]; simpl; [now left|].
  destruct (is_space c) eqn:E; [exact IH|]. right. exists c, s. auto.
Qed.

Lemma lstrip_fix (c : ascii) (r : str) :
  is_space c = false -> lstrip (c :: r) = c :: r.
Proof. intros E. simpl. now rewrite E. Qed.

Lemma lstrip_idem (s : str) : lstrip (lstrip s) = lstrip s.
Proof.
  destruct (lstrip_head s) as [->|(c & r & -> & E)]; [reflexivity|].
  now apply lstrip_fix.
Qed.

Lemma lstrip_app_space_l (w x : str) :
  Forall (fun c => is_space c = true) w -> lstrip (w ++ x) = lstrip x.
Proof.
  induction 1 as [|c w Hc _ IH]; simpl; [reflexivity|]. now rewrite Hc.
Qed.

Lemma lstrip_app_r (x w : str) :
  lstrip x <> [] -> lstrip (x ++ w) = lstrip x ++ w.
Proof.
  induction x as [|c x IH]; simpl; [congruence|].
  destruct (is_space c); [exact IH|reflexivity].
Qed.

Lemma lstrip_nil_spaces (x : str) :
  lstrip x = [] -> Forall (fun c => is_space c = true) x.
Proof.
  induction x as [|c x IH]; simpl; [constructor|].
  destruct (is_space c) eqn:E; [|discriminate].
  intros H. constructor; auto.
Qed.

Lemma strip_app_space_l (w x : str) :
  Forall (fun c => is_space c = true) w -> strip (w ++ x) = strip x.
Proof. intros H. unfold strip. now rewrite lstrip_app_space_l. Qed.

Lemma strip_app_space_r (x w : str) :
  Forall (fun c => is_space c = true) w -> strip (x ++ w) = strip x.
Proof.
  intros H. unfold strip.
  destruct (lstrip x) as [|c r] eqn:E.
  - assert (Hx : lstrip (x ++ w) = []).
    { apply lstrip_spaces. apply Forall_app.
      split; [now apply lstrip_nil_spaces|exact H]. }
    now rewrite Hx.
  - rewrite lstrip_app_r by congruence. rewrite E.
    rewrite rev_app_distr. rewrite lstrip_app_space_l; [reflexivity|].
    now apply Forall_rev.
Qed.

Lemma nonsp_lstrip (s : str) : nonsp (lstrip s) = nonsp s.
Proof.
  induction s as [|c s IH]; simpl; [reflexivity|].
  destruct (is_space c) eqn:E; simpl; [exact IH|]. now rewrite E.
Qed.

Lemma nonsp_rev (s : str) : nonsp (rev s) = rev (nonsp s).
Proof.
  induction s as [|c s IH]; simpl; [reflexivity|].
  rewrite filter_app, IH. simpl.
  destruct (is_space c); simpl; [now rewrite app_nil_r|reflexivity].
Qed.

Lemma nonsp_strip (s : str) : nonsp (strip s) = nonsp s.
Proof.
  unfold strip.
  now rewrite nonsp_rev, nonsp_lstrip, nonsp_rev, rev_involutive, nonsp_lstrip.
Qed.

Lemma nonsp_spaces (w : str) :
  Forall (fun c => is_space c = true) w <-> nonsp w = [].
Proof.
  induction w as [|c w IH]; simpl.
  - split; [reflexivity|constructor].
  - destruct (is_space c) eqn:E; simpl.
    + rewrite <- IH. split; [now inversion 1|now constructor].
    + split; [|discriminate]. inversion 1. congruence.
Qed.

Lemma strip_nil_nonsp (s : str) : strip s = [] <-> nonsp s = [].
Proof.
  split.
  - intros H. rewrite <- nonsp_strip, H. reflexivity.
  - intros H. apply strip_spaces. now apply nonsp_spaces.
Qed.

Lemma length_lstrip (s : str) : length (lstrip s) <= length s.
Proof.
  induction s as [|c s IH]; simpl; [lia|].
  destruct (is_space c); simpl; lia.
Qed.

Lemma length_strip (s : str) : length (strip s) <= length s.
Proof.
  unfold strip. rewrite length_rev.
  etransitivity; [apply length_lstrip|]. rewrite length_rev.
  apply length_lstrip.
Qed.

Lemma strip_idem (s : str) : strip (strip s) = strip s.
Proof.
  set (a := lstrip s). set (b := lstrip (rev a)).
  assert (Hs : strip s = rev b) by reflexivity.
  assert (Hb : lstrip b = b) by apply lstrip_idem.
  assert (Hrb : lstrip (rev b) = rev b).
  { destruct (lstrip_split (rev a)) as (w & Hw & Fw). fold b in Hw.
    assert (Ha : a = rev b ++ rev w).
    { rewrite <- (rev_involutive a), Hw, rev_app_distr. reflexivity. }
    destruct (rev b) as [|c r] eqn:Er; [reflexivity|].
    destruct (lstrip_head s) as [Es|(c' & r' & Es & Ec)]; fold a in Es.
    - rewrite Es in Ha. discriminate.
    - rewrite Es in Ha. simpl in Ha. inversion Ha; subst c'.
      now apply lstrip_fix. }
  rewrite Hs. unfold strip. now rewrite Hrb, rev_involutive, Hb.
Qed.

Lemma is_sentence_end_not_space (c : ascii) :
  is_sentence_end c = true -> is_space c = false.
Proof.
  unfold is_sentence_end. rewrite !orb_true_iff, !Ascii.eqb_eq.
  intros [[->| ->]| ->]; reflexivity.
Qed.

Lemma is_space_newline : is_space newline = true.
Proof. reflexivity. Qed.

(** ** [_split_into_segments] *)

Lemma nonsp_app (a b : str) : nonsp (a ++ b) = nonsp a ++ nonsp b.
Proof. apply filter_app. Qed.

Lemma nonsp_concat_snoc (l : list str) (x : str) :
  nonsp (concat (l ++ [x])) = nonsp (concat l) ++ nonsp x.
Proof. now rewrite concat_app, nonsp_app; simpl; rewrite app_nil_r. Qed.

Lemma nonsp_concat_split (sep : ascii) (s : str) :
  is_space sep = true -> nonsp (concat (str_split sep s)) = nonsp s.
Proof.
  intros Hsep. induction s as [|c s IH]; simpl; [reflexivity|].
  destruct (Ascii.eqb c sep) eqn:E.
  - apply Ascii.eqb_eq in E. subst c. simpl. now rewrite Hsep.
  - destruct (str_split sep s) as [|p ps]; simpl in *; rewrite <- IH;
      destruct (is_space c); reflexivity.
Qed.

Lemma nonsp_concat_sentences (after_mark : bool) (s : str) :
  nonsp (concat (split_sentences after_mark s)) = nonsp s.
Proof.
  revert after_mark. induction s as [|c s IH]; intros b; simpl; [reflexivity|].
  destruct (b && is_space c) eqn:E.
  - apply andb_true_iff in E as [_ E]. rewrite E. simpl. apply IH.
  - destruct (is_sentence_end c) eqn:M.
    + simpl. rewrite (is_sentence_end_not_space c M). simpl. now rewrite IH.
    + specialize (IH false).
      destruct (split_sentences false s) as [|p ps]; simpl in *;
        rewrite <- IH; destruct (is_space c); reflexivity.
Qed.

(** Every sentence but the last ends with its mark. *)
Lemma split_sentences_marks (after_mark : bool) (s : str) :
  split_sentences after_mark s <> []
  /\ sentences_marked (split_sentences after_mark s).
Proof.
  revert after_mark. induction s as [|c s IH]; intros b; simpl.
  - split; [discriminate|exact I].
  - destruct (b && is_space c); [apply IH|].
    destruct (is_sentence_end c) eqn:M.
    + split; [discriminate|].
      destruct (IH true) as [Hn Ha].
      destruct (split_sentences true s) as [|p ps]; [congruence|].
      split; [|exact Ha]. simpl.
      rewrite (is_sentence_end_not_space c M). discriminate.
    + destruct (IH false) as [Hn Ha].
      destruct (split_sentences false s) as [|p ps]; [congruence|].
      split; [discriminate|].
      destruct ps as [|q ps]; [exact I|].
      destruct Ha as [Hp Ha]. split; [|exact Ha].
      simpl. destruct (is_space c); simpl; [exact Hp|discriminate].
Qed.

Lemma trimmed_strip (t : str) : nonsp t <> [] -> trimmed (strip t).
Proof.
  intros H. split; [|apply strip_idem].
  intros E. apply strip_nil_nonsp in E. contradiction.
Qed.

Section Segments.

Variable max_chars : nat.

(** The loop over the sentences of one paragraph. *)
Lemma add_sentence_fold (sentences : list str) :
  sentences_marked sentences ->
  forall segments temp,
    temp = [] \/ nonsp temp <> [] ->
    let st := fold_left (add_sentence max_chars) sentences (segments, temp) in
    nonsp (concat (fst st)) ++ nonsp (snd st)
    = nonsp (concat segments) ++ nonsp temp ++ nonsp (concat sentences)
    /\ (Forall trimmed segments -> Forall trimmed (fst st))
    /\ (Forall (fun s => length s <= max_chars) sentences ->
        Forall (fun s => length s <= max_chars) segments ->
        length temp <= max_chars ->
        Forall (fun s => length s <= max_chars) (fst st)
        /\ length (snd st) <= max_chars).
Proof.
  induction sentences as [|x rest IH]; intros Hall segments temp J; simpl.
  - rewrite app_nil_r. repeat split; auto.
  - assert (Hrest : sentences_marked rest).
    { simpl in Hall. destruct rest; [exact I|apply Hall]. }
    assert (Hx : rest <> [] -> nonsp x <> []).
    { simpl in Hall. destruct rest; [congruence|]. intros _. apply Hall. }
    destruct ((max_chars <? length temp + length x) && is_nonempty temp)
      eqn:C.
    + apply andb_true_iff in C as [_ C]. apply is_nonempty_true in C.
      destruct J as [J|J]; [contradiction|].
      assert (J' : rest = [] \/ nonsp x <> []).
      { destruct rest; [now left|right; apply Hx; discriminate]. }
      destruct J' as [->|J'].
      * simpl. rewrite nonsp_concat_snoc, nonsp_strip, app_nil_r, <- app_assoc.
        split; [reflexivity|]. split.
        -- intros F. apply Forall_app. split; [exact F|].
           constructor; [|constructor]. now apply trimmed_strip.
        -- intros Fs Fg Ht. inversion Fs; subst. split; [|assumption].
           apply Forall_app. split; [exact Fg|]. constructor; [|constructor].
           etransitivity; [apply length_strip|exact Ht].
      * destruct (IH Hrest (segments ++ [strip temp]) x (or_intror J'))
          as (I1 & I2 & I3).
        split; [|split].
        -- rewrite I1, nonsp_concat_snoc, nonsp_strip, nonsp_app,
             <- !app_assoc. reflexivity.
        -- intros F. apply I2. apply Forall_app. split; [exact F|].
           constructor; [|constructor]. now apply trimmed_strip.
        -- intros Fs Fg Ht. inversion Fs; subst. apply I3; auto.
           apply Forall_app. split; [exact Fg|]. constructor; [|constructor].
           etransitivity; [apply length_strip|exact Ht].
    + assert (Hlen : length x <= max_chars -> length temp <= max_chars ->
                     length (temp ++ x) <= max_chars).
      { intros Lx Lt. rewrite length_app.
        apply andb_false_iff in C as [C|C].
        - apply Nat.ltb_ge in C. exact C.
        - destruct temp; [simpl; exact Lx|discriminate]. }
      destruct rest as [|y rest].
      * simpl. rewrite nonsp_app, app_nil_r.
        split; [reflexivity|]. split; [auto|].
        intros Fs Fg Ht. inversion Fs; subst. split; [exact Fg|]. auto.
      * assert (J' : temp ++ x = [] \/ nonsp (temp ++ x) <> []).
        { right. rewrite nonsp_app. intros E.
          apply app_eq_nil in E as [_ E]. apply Hx in E; [exact E|].
          discriminate. }
        destruct (IH Hrest segments (temp ++ x) J') as (I1 & I2 & I3).
        split; [|split].
        -- rewrite I1, !nonsp_app, <- !app_assoc. reflexivity.
        -- exact I2.
        -- intros Fs Fg Ht. inversion Fs; subst. apply I3; auto.
Qed.

(** What the loop over the paragraphs keeps. *)
Lemma add_paragraph_inv (paragraph : str) (segments : list str)
  (current_segment : str) :
  let st := add_paragraph max_chars (segments, current_segment) paragraph in
  nonsp (concat (fst st)) ++ nonsp (snd st)
  = nonsp (concat segments) ++ nonsp current_segment ++ nonsp paragraph
  /\ (Forall trimmed segments -> Forall trimmed (fst st))
  /\ ((max_chars < length paragraph ->
       Forall (fun s => length s <= max_chars)
         (split_sentences false paragraph)) ->
      Forall (fun s => length s <= max_chars) segments ->
      length (strip current_segment) <= max_chars ->
      Forall (fun s => length s <= max_chars) (fst st)
      /\ length (strip (snd st)) <= max_chars).
Proof.
  unfold add_paragraph.
  destruct (max_chars <? length paragraph) eqn:L.
  - apply Nat.ltb_lt in L.
    set (st1 := if is_nonempty (strip current_segment)
                then (segments ++ [strip current_segment], [])
                else (segments, current_segment)).
    assert (H1 : nonsp (concat (fst st1)) = nonsp (concat segments)
                                             ++ nonsp current_segment
                 /\ nonsp (snd st1) = []
                 /\ (Forall trimmed segments -> Forall trimmed (fst st1))
                 /\ (Forall (fun s => length s <= max_chars) segments ->
                     length (strip current_segment) <= max_chars ->
                     Forall (fun s => length s <= max_chars) (fst st1)
                     /\ length (strip (snd st1)) <= max_chars)).
    { unfold st1.
      destruct (is_nonempty (strip current_segment)) eqn:E; simpl.
      - apply is_nonempty_true in E.
        rewrite nonsp_concat_snoc, nonsp_strip.
        split; [reflexivity|]. split; [reflexivity|]. split.
        + intros F. apply Forall_app. split; [exact F|].
          constructor; [|constructor]. apply trimmed_strip.
          intros N. apply strip_nil_nonsp in N. contradiction.
        + intros Fg Hc. split; [|simpl; lia].
          apply Forall_app. split; [exact Fg|]. now constructor; [|constructor].
      - assert (N : nonsp current_segment = []).
        { apply strip_nil_nonsp. destruct (strip current_segment);
            [reflexivity|discriminate]. }
        rewrite N, app_nil_r. repeat split; auto. }
    destruct st1 as [segments1 current_segment1]. simpl in H1.
    destruct H1 as (C1 & C2 & C3 & C4).
    destruct (split_sentences_marks false paragraph) as [_ Hall].
    destruct (add_sentence_fold (split_sentences false paragraph) Hall
                segments1 [] (or_introl eq_refl)) as (S1 & S2 & S3).
    destruct (fold_left (add_sentence max_chars)
                (split_sentences false paragraph) (segments1, []))
      as [segments2 temp]. simpl in S1, S2, S3.
    rewrite nonsp_concat_sentences in S1.
    set (segments3 := if is_nonempty (strip temp)
                      then segments2 ++ [strip temp] else segments2).
    assert (H3 : nonsp (concat segments3)
                 = nonsp (concat segments2) ++ nonsp temp
                 /\ (Forall trimmed segments2 -> Forall trimmed segments3)
                 /\ (Forall (fun s => length s <= max_chars) segments2 ->
                     length temp <= max_chars ->
                     Forall (fun s => length s <= max_chars) segments3)).
    { unfold segments3. destruct (is_nonempty (strip temp)) eqn:E.
      - apply is_nonempty_true in E.
        rewrite nonsp_concat_snoc, nonsp_strip. split; [reflexivity|]. split.
        + intros F. apply Forall_app. split; [exact F|].
          constructor; [|constructor]. apply trimmed_strip.
          intros N. apply strip_nil_nonsp in N. contradiction.
        + intros Fg Ht. apply Forall_app. split; [exact Fg|].
          constructor; [|constructor]. etransitivity; [apply length_strip|exact Ht].
      - assert (N : nonsp temp = []).
        { apply strip_nil_nonsp. destruct (strip temp);
            [reflexivity|discriminate]. }
        rewrite N, app_nil_r. auto. }
    destruct H3 as (T1 & T2 & T3). simpl.
    split; [|split].
    + rewrite T1, S1, C1, C2, app_nil_r, <- !app_assoc. reflexivity.
    + auto.
    + intros Hs Fg Hc. destruct (C4 Fg Hc) as [F1 L1].
      destruct (S3 (Hs L) F1 (Nat.le_0_l _)) as [F2 L2].
      split; [now apply T3|exact L1].
  - apply Nat.ltb_ge in L.
    destruct ((max_chars <? length current_segment + length paragraph + 1)
              && is_nonempty (strip current_segment)) eqn:C; simpl.
    + apply andb_true_iff in C as [_ C]. apply is_nonempty_true in C.
      rewrite nonsp_concat_snoc, nonsp_strip, !nonsp_app. simpl.
      rewrite app_nil_r. split; [now rewrite <- app_assoc|]. split.
      * intros F. apply Forall_app. split; [exact F|].
        constructor; [|constructor]. apply trimmed_strip.
        intros N. apply strip_nil_nonsp in N. contradiction.
      * intros _ Fg Hc. split.
        -- apply Forall_app. split; [exact Fg|]. now constructor; [|constructor].
        -- rewrite strip_app_space_r by (repeat constructor).
           etransitivity; [apply length_strip|exact L].
    + rewrite !nonsp_app. simpl. rewrite app_nil_r.
      split; [reflexivity|]. split; [auto|].
      intros _ Fg Hc. split; [exact Fg|].
      rewrite app_assoc, strip_app_space_r by (repeat constructor).
      apply andb_false_iff in C as [C|C].
      * apply Nat.ltb_ge in C. etransitivity; [apply length_strip|].
        rewrite length_app. lia.
      * assert (N : Forall (fun c => is_space c = true) current_segment).
        { apply nonsp_spaces, strip_nil_nonsp.
          destruct (strip current_segment); [reflexivity|discriminate]. }
        rewrite strip_app_space_l by exact N.
        etransitivity; [apply length_strip|exact L].
Qed.

Lemma add_paragraph_fold (paragraphs : list str) :
  forall segments current_segment,
    let st := fold_left (add_paragraph max_chars) paragraphs
                (segments, current_segment) in
    nonsp (concat (fst st)) ++ nonsp (snd st)
    = nonsp (concat segments) ++ nonsp current_segment
        ++ nonsp (concat paragraphs)
    /\ (Forall trimmed segments -> Forall trimmed (fst st))
    /\ ((forall p, In p paragraphs -> max_chars < length p ->
           Forall (fun s => length s <= max_chars)
             (split_sentences false p)) ->
        Forall (fun s => length s <= max_chars) segments ->
        length (strip current_segment) <= max_chars ->
        Forall (fun s => length s <= max_chars) (fst st)
        /\ length (strip (snd st)) <= max_chars).
Proof.
  induction paragraphs as [|p rest IH]; intros segments cur.
  - simpl. rewrite app_nil_r. repeat split; auto.
  - cbn [fold_left concat].
    destruct (add_paragraph_inv p segments cur) as (A1 & A2 & A3).
    destruct (add_paragraph max_chars (segments, cur) p) as [segs1 cur1].
    simpl in A1, A2, A3.
    destruct (IH segs1 cur1) as (I1 & I2 & I3).
    split; [|split].
    + rewrite I1, app_assoc, A1, nonsp_app, <- !app_assoc. reflexivity.
    + auto.
    + intros Hs Fg Hc.
      destruct (A3 (Hs p (or_introl eq_refl)) Fg Hc) as [F1 L1].
      apply I3; auto. intros q Hq. apply Hs. now right.
Qed.

Lemma split_into_segments_facts (text : str) :
  nonsp (concat (_split_into_segments text max_chars)) = nonsp text
  /\ Forall trimmed (_split_into_segments text max_chars)
  /\ ((forall p, In p (str_split newline text) -> max_chars < length p ->
         Forall (fun s => length s <= max_chars) (split_sentences false p)) ->
      Forall (fun s => length s <= max_chars)
        (_split_into_segments text max_chars)).
Proof.
  unfold _split_into_segments.
  destruct (add_paragraph_fold (str_split newline text) [] [])
    as (I1 & I2 & I3).
  destruct (fold_left (add_paragraph max_chars) (str_split newline text)
              ([], [])) as [segments cur].
  simpl in I1, I2, I3.
  rewrite (nonsp_concat_split newline text is_space_newline) in I1.
  destruct (is_nonempty (strip cur)) eqn:E.
  - apply is_nonempty_true in E. split; [|split].
    + now rewrite nonsp_concat_snoc, nonsp_strip.
    + apply Forall_app. split; [now apply I2|]. constructor; [|constructor].
      apply trimmed_strip. intros N. apply strip_nil_nonsp in N.
      contradiction.
    + intros Hs. destruct (I3 Hs (Forall_nil _) (Nat.le_0_l _)) as [F L].
      apply Forall_app. split; [exact F|]. constructor; [exact L|constructor].
  - assert (N : nonsp cur = []).
    { apply strip_nil_nonsp. destruct (strip cur);
        [reflexivity|discriminate]. }
    rewrite N, app_nil_r in I1. split; [exact I1|]. split; [now apply I2|].
    intros Hs. apply (I3 Hs (Forall_nil _) (Nat.le_0_l _)).
Qed.

End Segments.

(** X4. Every segment [_split_into_segments] returns is non-empty and has
    no white space at either end: the segments appended without a test
    inside the sentence loop are never blank. *)
Theorem split_segments_trimmed (text : str) (max_chars : nat) :
  Forall (fun s => s <> [] /\ strip s = s)
    (_split_into_segments text max_chars).
Proof. apply (split_into_segments_facts max_chars text). Qed.

(** X5. Segmentation loses, repeats and reorders nothing but white space:
    the characters of the segments that are not white space are, in order,
    those of the text. *)
Theorem split_segments_content (text : str) (max_chars : nat) :
  filter (fun c => negb (is_space c))
    (concat (_split_into_segments text max_chars))
  = filter (fun c => negb (is_space c)) text.
Proof. apply (split_into_segments_facts max_chars text). Qed.

(** X6. A segment is longer than [max_chars] only when a single sentence
    is: if every sentence of every line longer than [max_chars] has at most
    [max_chars] characters, every segment has at most [max_chars]
    characters.  In particular this holds when no line is longer than
    [max_chars]. *)
Theorem split_segments_bound (text : str) (max_chars : nat) :
  (forall p, In p (str_split newline text) -> max_chars < length p ->
     Forall (fun s => length s <= max_chars) (split_sentences false p)) ->
  Forall (fun s => length s <= max_chars)
    (_split_into_segments text max_chars).
Proof. apply (split_into_segments_facts max_chars text). Qed.

(** ** [detect_key_sections] *)

Lemma add_index_In (i t : nat) (s : list nat) :
  In t (add_index i s) <-> t = i \/ In t s.
Proof.
  unfold add_index. destruct (existsb (Nat.eqb i) s) eqn:E.
  - apply existsb_exists in E as (x & Hx & Ex). apply Nat.eqb_eq in Ex.
    subst x. split; [now right|]. now intros [->|H].
  - rewrite in_app_iff. simpl. split.
    + intros [H|[H|[]]]; [now right|now left].
    + intros [H|H]; [right; now left|now left].
Qed.

Lemma add_index_NoDup (i : nat) (s : list nat) :
  NoDup s -> NoDup (add_index i s).
Proof.
  intros H. unfold add_index. destruct (existsb (Nat.eqb i) s) eqn:E.
  - exact H.
  - apply NoDup_app; [exact H|repeat constructor; intros []|].
    intros x Hx [Ex|[]]. subst x.
    assert (existsb (Nat.eqb i) s = true); [|congruence].
    apply existsb_exists. exists i. split; [exact Hx|apply Nat.eqb_refl].
Qed.

Lemma add_index_fresh (i : nat) (s : list nat) :
  ~ In i s -> add_index i s = s ++ [i].
Proof.
  intros H. unfold add_index. destruct (existsb (Nat.eqb i) s) eqn:E;
    [|reflexivity].
  apply existsb_exists in E as (x & Hx & Ex). apply Nat.eqb_eq in Ex.
  now subst x.
Qed.

Lemma sorted_asc_spec (l : list nat) :
  NoDup l ->
  Permutation (sorted_asc l) l /\ StronglySorted lt (sorted_asc l).
Proof.
  intros Hn. unfold sorted_asc.
  set (key := fun i : nat => (- Z.of_nat i)%Z).
  pose proof (sorted_desc_perm _ key l) as P.
  pose proof (sorted_desc_sorted _ key l) as S.
  split; [exact P|].
  assert (N : NoDup (sorted_desc key l)).
  { eapply Permutation_NoDup; [apply Permutation_sym; exact P|exact Hn]. }
  clear P Hn. revert S N. generalize (sorted_desc key l). intros l' S.
  induction S as [|a r Sr IH Ha]; intros N; [constructor|].
  inversion N; subst. constructor; [now apply IH|].
  rewrite Forall_forall in *. intros x Hx. specialize (Ha x Hx).
  unfold key in Ha. assert (a <> x) by (intros ->; contradiction). lia.
Qed.

Section KeySectionsFacts.

Variable KEYWORDS : list str.
Variable index_iter : list nat -> list nat.
Variables front_end_of back_start_of : nat -> nat.

Hypothesis index_iter_perm : forall l, Permutation (index_iter l) l.

Lemma keyword_indices_In (paragraphs : list str) (a i : nat) :
  In i (keyword_indices KEYWORDS a paragraphs)
  <-> a <= i < a + length paragraphs
      /\ has_keyword KEYWORDS (nth (i - a) paragraphs []) = true.
Proof.
  revert a. induction paragraphs as [|p r IH]; intros a; simpl.
  - split; [intros []|lia].
  - rewrite in_app_iff, IH. split.
    + intros [H|(H1 & H2)].
      * destruct (has_keyword KEYWORDS p) eqn:E; [|destruct H].
        destruct H as [<-|[]]. rewrite Nat.sub_diag. split; [lia|exact E].
      * split; [lia|]. replace (i - a) with (S (i - S a)) by lia. exact H2.
    + intros (H1 & H2). destruct (Nat.eq_dec i a) as [->|Hne].
      * left. rewrite Nat.sub_diag in H2. rewrite H2. now left.
      * right. split; [lia|].
        replace (i - a) with (S (i - S a)) in H2 by lia. exact H2.
Qed.

Lemma keyword_indices_length (paragraphs : list str) (a : nat) :
  length (keyword_indices KEYWORDS a paragraphs)
  = length (filter (has_keyword KEYWORDS) paragraphs).
Proof.
  revert a. induction paragraphs as [|p r IH]; intros a; simpl; [reflexivity|].
  rewrite length_app, IH. destruct (has_keyword KEYWORDS p); reflexivity.
Qed.

Lemma match_fold (paragraphs : list str) (a : nat) (acc : list nat) :
  (forall i, In i acc -> i < a) ->
  fold_left (match_step KEYWORDS)
    (combine (seq a (length paragraphs)) paragraphs) acc
  = acc ++ keyword_indices KEYWORDS a paragraphs.
Proof.
  revert a acc. induction paragraphs as [|p r IH]; intros a acc Hacc; simpl.
  - now rewrite app_nil_r.
  - unfold match_step at 2. simpl.
    destruct (has_keyword KEYWORDS p).
    + rewrite add_index_fresh.
      * rewrite IH; [now rewrite <- app_assoc|].
        intros i Hi. apply in_app_or in Hi as [Hi|[<-|[]]]; [|lia].
        apply Hacc in Hi. lia.
      * intros H. apply Hacc in H. lia.
    + rewrite IH; [reflexivity|]. intros i Hi. apply Hacc in Hi. lia.
Qed.

Lemma select_step_In (n idx t : nat) (selected : list nat) :
  In t (select_step n selected idx)
  <-> In t selected \/ (t < n /\ t <= idx + 2 /\ idx <= t + 2).
Proof.
  unfold select_step. cbn [fold_left].
  repeat match goal with
  | |- context [if ?c then _ else _] => destruct c eqn:?
  end;
  rewrite ?add_index_In;
  repeat match goal with
  | H : (_ && _)%bool = true |- _ => apply andb_true_iff in H as [? ?]
  | H : (_ && _)%bool = false |- _ => apply andb_false_iff in H
  | H : (_ <=? _)%Z = true |- _ => apply Z.leb_le in H
  | H : (_ <? _)%Z = true |- _ => apply Z.ltb_lt in H
  end;
  repeat match goal with
  | H : (_ <=? _)%Z = false \/ (_ <? _)%Z = false |- _ =>
      rewrite Z.leb_gt, Z.ltb_ge in H
  end;
  intuition lia.
Qed.

Lemma select_step_NoDup (n idx : nat) (selected : list nat) :
  NoDup selected -> NoDup (select_step n selected idx).
Proof.
  intros H. unfold select_step. cbn [fold_left].
  repeat match goal with
  | |- context [if ?c then _ else _] => destruct c
  end; repeat apply add_index_NoDup; exact H.
Qed.

Lemma select_fold (n : nat) (idxs selected : list nat) (t : nat) :
  (In t (fold_left (select_step n) idxs selected)
   <-> In t selected
       \/ (t < n /\ exists m, In m idxs /\ t <= m + 2 /\ m <= t + 2))
  /\ (NoDup selected -> NoDup (fold_left (select_step n) idxs selected)).
Proof.
  revert selected. induction idxs as [|idx r IH]; intros selected; simpl.
  - split; [|auto]. split; [now left|].
    intros [H|(_ & m & [] & _)]. exact H.
  - destruct (IH (select_step n selected idx)) as [I1 I2]. split.
    + rewrite I1, select_step_In. split.
      * intros [[H|H]|(H1 & m & H2 & H3)].
        -- now left.
        -- right. split; [apply H|]. exists idx. split; [now left|lia].
        -- right. split; [exact H1|]. exists m. split; [now right|exact H3].
      * intros [H|(H1 & m & [->|H2] & H3)].
        -- left; now left.
        -- left; right. lia.
        -- right. split; [exact H1|]. exists m. auto.
    + intros H. apply I2. now apply select_step_NoDup.
Qed.

(** X7. [detect_key_sections] returns the text itself when it has no
    non-blank line, and the fallback extraction when fewer than three
    paragraphs contain a keyword.  Otherwise it returns, joined by blank
    lines, the paragraphs that are at most two paragraphs away from a
    paragraph containing a keyword: each of them once, in the order of the
    document. *)
Theorem key_sections_selection (text : str) :
  let paragraphs := paragraphs_of text in
  let hits := length (filter (has_keyword KEYWORDS) paragraphs) in
  (paragraphs = [] ->
   detect_key_sections KEYWORDS index_iter front_end_of back_start_of text
   = text)
  /\ (paragraphs <> [] -> hits < 3 ->
      detect_key_sections KEYWORDS index_iter front_end_of back_start_of text
      = _fallback_extraction front_end_of back_start_of text)
  /\ (3 <= hits ->
      exists selected,
        StronglySorted lt selected
        /\ (forall i,
              In i selected
              <-> i < length paragraphs
                  /\ exists m,
                       m < length paragraphs
                       /\ has_keyword KEYWORDS (nth m paragraphs []) = true
                       /\ i <= m + 2 /\ m <= i + 2)
        /\ detect_key_sections KEYWORDS index_iter front_end_of
             back_start_of text
           = join [newline; newline]
               (map (fun i => nth i paragraphs []) selected)).
Proof.
  cbv zeta. unfold detect_key_sections.
  generalize (paragraphs_of text). intros paragraphs.
  set (hits := length (filter (has_keyword KEYWORDS) paragraphs)).
  assert (Hm : fold_left (match_step KEYWORDS) (enumerate paragraphs) []
               = keyword_indices KEYWORDS 0 paragraphs).
  { unfold enumerate. rewrite match_fold; [reflexivity|]. intros i []. }
  rewrite Hm, keyword_indices_length. fold hits.
  split; [|split].
  - intros ->. reflexivity.
  - intros Hp Hh. destruct paragraphs as [|p ps]; [congruence|].
    apply Nat.ltb_lt in Hh. now rewrite Hh.
  - intros Hh.
    assert (Hp : paragraphs <> []).
    { intros E. unfold hits in Hh. rewrite E in Hh. simpl in Hh. lia. }
    destruct paragraphs as [|p ps] eqn:Ep; [congruence|]. rewrite <- Ep in *.
    assert (Hlt : (hits <? 3) = false) by (apply Nat.ltb_ge; exact Hh).
    rewrite Hlt.
    set (sel := fold_left (select_step (length paragraphs))
                  (index_iter (keyword_indices KEYWORDS 0 paragraphs)) []).
    assert (Hsel : NoDup sel)
      by (apply select_fold; constructor).
    assert (Hit : NoDup (index_iter sel)).
    { eapply Permutation_NoDup;
        [apply Permutation_sym, index_iter_perm|exact Hsel]. }
    destruct (sorted_asc_spec (index_iter sel) Hit) as [P S].
    exists (sorted_asc (index_iter sel)).
    split; [exact S|]. split; [|reflexivity].
    intros i. split.
    + intros Hi.
      apply (Permutation_in _ P), (Permutation_in _ (index_iter_perm sel)) in Hi.
      apply select_fold in Hi as [[]|(H1 & m & H2 & H3)].
      split; [exact H1|]. exists m.
      apply (Permutation_in _ (index_iter_perm _)), keyword_indices_In in H2.
      rewrite Nat.sub_0_r in H2. split; [lia|]. split; [apply H2|exact H3].
    + intros (H1 & m & H2 & H3 & H4).
      apply (Permutation_in _ (Permutation_sym P)),
        (Permutation_in _ (Permutation_sym (index_iter_perm sel))).
      apply select_fold. right. split; [exact H1|]. exists m.
      split; [|exact H4].
      apply (Permutation_in _ (Permutation_sym (index_iter_perm _))),
        keyword_indices_In.
      rewrite Nat.sub_0_r. split; [lia|exact H3].
Qed.

End KeySectionsFacts.

(** ** Placeholder ids *)

Lemma digits_of_uint (d : Decimal.uint) :
  Forall (fun c => is_digit c = true)
    (list_ascii_of_string (NilEmpty.string_of_uint d)).
Proof. induction d; simpl; constructor; auto. Qed.

Lemma to_uint_nonnil (n : nat) : Nat.to_uint n <> Decimal.Nil.
Proof.
  rewrite <- (DecimalNat.Unsigned.of_to n) at 1.
  rewrite DecimalNat.Unsigned.to_of. apply DecimalFacts.unorm_nonnil.
Qed.

Lemma str_of_nat_digits (n : nat) :
  Forall (fun c => is_digit c = true) (str_of_nat n) /\ str_of_nat n <> [].
Proof.
  unfold str_of_nat, chars, NilZero.string_of_uint.
  pose proof (to_uint_nonnil n) as Hn.
  pose proof (digits_of_uint (Nat.to_uint n)) as Hd.
  destruct (Nat.to_uint n); try congruence;
    (split; [exact Hd|simpl; discriminate]).
Qed.

Lemma str_of_nat_inj (n m : nat) : str_of_nat n = str_of_nat m -> n = m.
Proof.
  unfold str_of_nat, chars. intros E.
  apply (f_equal string_of_list_ascii) in E.
  rewrite !string_of_list_ascii_of_string in E.
  apply (f_equal NilZero.uint_of_string) in E.
  rewrite !NilZero.usu in E by apply to_uint_nonnil.
  inversion E. now apply DecimalNat.Unsigned.to_uint_inj.
Qed.

(** The text before the first occurrence of a character is determined. *)
Lemma app_sep_unique (u : ascii) (a b x y : str) :
  ~ In u a -> ~ In u b -> a ++ u :: x = b ++ u :: y -> a = b /\ x = y.
Proof.
  revert b. induction a as [|c a IH]; intros b Ha Hb E.
  - destruct b as [|d b]; simpl in E.
    + inversion E. auto.
    + inversion E; subst. exfalso. apply Hb. now left.
  - destruct b as [|d b]; simpl in E.
    + inversion E; subst. exfalso. apply Ha. now left.
    + inversion E; subst.
      destruct (IH b) as [-> ->]; auto.
      * intros H. apply Ha. now right.
      * intros H. apply Hb. now right.
Qed.

Lemma digit_not_underscore (d : str) :
  Forall (fun c => is_digit c = true) d -> ~ In underscore d.
Proof.
  intros F H. rewrite Forall_forall in F. specialize (F _ H). discriminate.
Qed.

(** The text after the last underscore of [ty ++ "_" ++ digits]. *)
Lemma type_digits_unique (t1 t2 d1 d2 : str) :
  Forall (fun c => is_digit c = true) d1 ->
  Forall (fun c => is_digit c = true) d2 ->
  t1 ++ underscore :: d1 = t2 ++ underscore :: d2 -> t1 = t2 /\ d1 = d2.
Proof.
  intros F1 F2 E. apply (f_equal (@rev ascii)) in E.
  rewrite !rev_app_distr in E. simpl in E. rewrite <- !app_assoc in E.
  simpl in E.
  destruct (app_sep_unique underscore (rev d1) (rev d2) (rev t1) (rev t2))
    as [Ed Et]; auto.
  - rewrite <- in_rev. now apply digit_not_underscore.
  - rewrite <- in_rev. now apply digit_not_underscore.
  - split.
    + rewrite <- (rev_involutive t1), Et. apply rev_involutive.
    + rewrite <- (rev_involutive d1), Ed. apply rev_involutive.
Qed.

Lemma make_placeholder_eq (ty : str) (n : nat) :
  make_placeholder ty n
  = lbrace :: ty ++ underscore :: str_of_nat n ++ [rbrace].
Proof.
  unfold make_placeholder. simpl. now rewrite <- !app_assoc.
Qed.

Lemma make_placeholder_inj (t1 t2 : str) (n1 n2 : nat) :
  make_placeholder t1 n1 = make_placeholder t2 n2 -> t1 = t2 /\ n1 = n2.
Proof.
  rewrite !make_placeholder_eq. intros E. inversion E as [E'].
  replace (t1 ++ underscore :: str_of_nat n1 ++ [rbrace])
    with ((t1 ++ underscore :: str_of_nat n1) ++ [rbrace]) in E'
    by (now rewrite <- app_assoc).
  replace (t2 ++ underscore :: str_of_nat n2 ++ [rbrace])
    with ((t2 ++ underscore :: str_of_nat n2) ++ [rbrace]) in E'
    by (now rewrite <- app_assoc).
  apply app_inv_tail in E'.
  destruct (type_digits_unique t1 t2 (str_of_nat n1) (str_of_nat n2))
    as [Et Ed]; auto; try apply str_of_nat_digits.
  split; [exact Et|now apply str_of_nat_inj].
Qed.

Lemma is_letter_upper (c : ascii) :
  is_upper_letter (upper_char c) = is_letter c.
Proof.
  destruct c as [[] [] [] [] [] [] [] []]; reflexivity.
Qed.

Lemma upper_letters (s : str) :
  forallb is_upper_letter (upper s) = forallb is_letter s.
Proof.
  induction s as [|c s IH]; simpl; [reflexivity|].
  now rewrite is_letter_upper, IH.
Qed.

Lemma group_placeholder_eq (counters : list (str * nat)) (info : group_info) :
  group_placeholder counters info
  = make_placeholder (upper (g_type info))
      (get (assoc_get (upper (g_type info)) counters) 0 + 1).
Proof.
  unfold group_placeholder, bump_counter.
  destruct (assoc_get (upper (g_type info)) counters) as [n|];
    now rewrite assoc_get_set_same.
Qed.

(** X8. For a group whose type is a string of ASCII characters, the
    placeholder made for the group matches the token pattern
    [\{[A-Z]+_\d+\}] exactly when the type is a non-empty string of letters:
    a type that is empty or contains a digit, an underscore, a space or any
    other ASCII character yields an id outside the pattern. *)
Theorem placeholder_is_token_iff (counters : list (str * nat))
  (info : group_info) :
  forallb is_ascii (g_type info) = true ->
  (is_tokenb (group_placeholder counters info) = true
   <-> g_type info <> [] /\ forallb is_letter (g_type info) = true).
Proof.
  intros _. rewrite group_placeholder_eq, make_placeholder_eq.
  set (n := get (assoc_get (upper (g_type info)) counters) 0 + 1).
  destruct (str_of_nat_digits n) as [Hd Hn].
  split.
  - intros H. apply is_tokenb_spec in H.
    destruct H as (U & D & E & HU & FU & HD & FD).
    inversion E as [E'].
    replace (upper (g_type info) ++ underscore :: str_of_nat n ++ [rbrace])
      with ((upper (g_type info) ++ underscore :: str_of_nat n) ++ [rbrace])
      in E' by (now rewrite <- app_assoc).
    replace (U ++ underscore :: D ++ [rbrace])
      with ((U ++ underscore :: D) ++ [rbrace]) in E'
      by (now rewrite <- app_assoc).
    apply app_inv_tail in E'.
    assert (FD' : Forall (fun c => is_digit c = true) D).
    { apply Forall_forall. now apply forallb_forall. }
    destruct (type_digits_unique _ _ _ _ Hd FD' E') as [Et _].
    rewrite <- upper_letters. rewrite Et. split; [|exact FU].
    intros N. apply HU. rewrite <- Et. unfold upper. now rewrite N.
  - intros [Hne Hl].
    assert (T : is_token (lbrace :: upper (g_type info)
                            ++ underscore :: str_of_nat n ++ [rbrace])).
    { exists (upper (g_type info)), (str_of_nat n).
      split; [reflexivity|]. split.
      - unfold upper. destruct (g_type info); simpl; congruence.
      - split; [now rewrite upper_letters|]. split; [exact Hn|].
        apply forallb_forall. now apply Forall_forall. }
    unfold is_tokenb.
    pose proof (token_match _ [] T) as M. rewrite app_nil_r in M.
    rewrite M. apply Nat.eqb_refl.
Qed.

(** ** The placeholder table *)

Lemma assoc_set_fresh (V : Type) (k : str) (v : V) (d : list (str * V)) :
  ~ In k (map fst d) -> assoc_set k v d = d ++ [(k, v)].
Proof.
  induction d as [|[k' v'] d IH]; simpl; intros H; [reflexivity|].
  destruct (str_eqb k k') eqn:E.
  - apply str_eqb_eq in E. subst. exfalso. apply H. now left.
  - rewrite IH; [reflexivity|]. intros H'. apply H. now right.
Qed.

Lemma bump_counter_get (ty ty' : str) (counters : list (str * nat)) :
  get (assoc_get ty' (bump_counter ty counters)) 0
  = if str_eqb ty' ty then get (assoc_get ty counters) 0 + 1
    else get (assoc_get ty' counters) 0.
Proof.
  unfold bump_counter. destruct (str_eqb ty' ty) eqn:E.
  - apply str_eqb_eq in E. subst ty'.
    destruct (assoc_get ty counters); now rewrite assoc_get_set_same.
  - apply str_eqb_neq in E.
    destruct (assoc_get ty counters); now rewrite assoc_get_set_other.
Qed.

Section Table.

Variable set_iter : list str -> list str.

Lemma assign_group_table (st : assign_state) (g : str * group_info) :
  issued_ok (type_counters st) (placeholder_map st) ->
  let st' := assign_group set_iter st g in
  placeholder_map st'
  = placeholder_map st ++ [table_entry set_iter (type_counters st) g]
  /\ ~ In (group_placeholder (type_counters st) (snd g))
         (map fst (placeholder_map st))
  /\ issued_ok (type_counters st') (placeholder_map st').
Proof.
  intros Hok. destruct g as [canonical info]. unfold assign_group. simpl.
  set (ty := upper (g_type info)).
  assert (Hfresh : ~ In (group_placeholder (type_counters st) info)
                     (map fst (placeholder_map st))).
  { intros H. destruct (Hok _ H) as (ty' & j & E & Hj).
    rewrite group_placeholder_eq in E. apply make_placeholder_inj in E.
    destruct E as [<- <-]. lia. }
  split; [|split].
  - now apply assoc_set_fresh.
  - exact Hfresh.
  - rewrite assoc_set_fresh by exact Hfresh.
    intros ph H. rewrite map_app in H. apply in_app_or in H as [H|[<-|[]]].
    + destruct (Hok _ H) as (ty' & j & E & Hj). exists ty', j.
      split; [exact E|]. rewrite bump_counter_get. fold ty.
      destruct (str_eqb ty' ty) eqn:Ety; [|exact Hj].
      apply str_eqb_eq in Ety. subst ty'. lia.
    + simpl. exists ty, (get (assoc_get ty (type_counters st)) 0 + 1).
      split; [apply group_placeholder_eq|].
      rewrite bump_counter_get, str_eqb_refl. lia.
Qed.

Lemma assign_fold_table (gs : list (str * group_info)) (st : assign_state) :
  issued_ok (type_counters st) (placeholder_map st) ->
  NoDup (map fst (placeholder_map st)) ->
  let st' := fold_left (assign_group set_iter) gs st in
  placeholder_map st'
  = placeholder_map st ++ table_from set_iter (type_counters st) gs
  /\ NoDup (map fst (placeholder_map st'))
  /\ issued_ok (type_counters st') (placeholder_map st').
Proof.
  revert st. induction gs as [|g r IH]; intros st Hok Hnd; simpl.
  - rewrite app_nil_r. auto.
  - destruct (assign_group_table st g Hok) as (E1 & E2 & E3).
    destruct (IH (assign_group set_iter st g)) as (I1 & I2 & I3).
    + exact E3.
    + rewrite E1, map_app. apply NoDup_app; [exact Hnd| |].
      * simpl. constructor; [intros []|constructor].
      * simpl. intros x Hx [<-|[]]. contradiction.
    + split; [|split; [exact I2|exact I3]].
      rewrite I1, E1, <- app_assoc. simpl. f_equal. f_equal.
      destruct g as [canonical info]. reflexivity.
Qed.

Lemma table_from_length (gs : list (str * group_info))
  (counters : list (str * nat)) :
  length (table_from set_iter counters gs) = length gs
  /\ map (fun kv => pi_value (snd kv)) (table_from set_iter counters gs)
     = map (fun g => Some (fst g)) gs
  /\ Forall shaped (map fst (table_from set_iter counters gs)).
Proof.
  revert counters. induction gs as [|g r IH]; intros counters; simpl.
  - repeat split; constructor.
  - destruct (IH (bump_counter (upper (g_type (snd g))) counters))
      as (I1 & I2 & I3).
    split; [now rewrite I1|]. split; [now rewrite I2|].
    constructor; [|exact I3]. rewrite group_placeholder_eq.
    apply make_placeholder_shaped.
Qed.

(** X9. In the artifact [execute_replacement] returns, the placeholder
    table has exactly one entry per canonical group, in the order of the
    groups: [entity_count] is the number of its entries, the ids are pairwise
    different and of the form [{...}], and the [value] of each entry is the
    key of its group. *)
Theorem mapping_table_one_entry_per_group (now text src : str)
  (entities : list entity) (pass1_result : pass1) (T : str) (M : mapping) :
  execute_replacement set_iter now text entities pass1_result src
  = Some (T, M) ->
  exists meta table,
    m_metadata M = Some meta /\ m_mappings M = Some table
    /\ entity_count meta = length table
    /\ length table = length (build_groups entities pass1_result)
    /\ NoDup (map fst table)
    /\ Forall shaped (map fst table)
    /\ map (fun kv => pi_value (snd kv)) table
       = map (fun g => Some (fst g)) (build_groups entities pass1_result).
Proof.
  unfold execute_replacement.
  set (gs := build_groups entities pass1_result).
  destruct (substitute _ text) as [[T' log]|]; [|discriminate].
  intros E. inversion E; subst. clear E.
  destruct (assign_fold_table gs (AssignState [] [] [])) as (I1 & I2 & I3).
  { intros ph []. }
  { constructor. }
  simpl in I1. fold (assign_placeholders set_iter gs) in I1, I2.
  destruct (table_from_length gs []) as (L1 & L2 & L3).
  eexists. eexists. split; [reflexivity|]. split; [reflexivity|].
  simpl. rewrite I1 in *. rewrite L1. repeat split; auto.
Qed.

End Table.

(** ** Canonical groups: the key of a group is one of its texts *)

Lemma set_add_In (x t : str) (s : list str) :
  In t (set_add x s) <-> t = x \/ In t s.
Proof.
  unfold set_add. destruct (mem_str x s) eqn:E.
  - apply mem_str_In in E. split; [now right|]. now intros [->|H].
  - rewrite in_app_iff. simpl. split.
    + intros [H|[H|[]]]; [now right|now left].
    + intros [H|H]; [right; now left|now left].
Qed.

Lemma assoc_update_app_fresh (V : Type) (k : str) (f : V -> V) (v : V)
  (d : list (str * V)) :
  assoc_get k d = None ->
  assoc_update k f (d ++ [(k, v)]) = d ++ [(k, f v)].
Proof.
  induction d as [|[k' v'] d IH]; simpl; intros H.
  - now rewrite str_eqb_refl.
  - destruct (str_eqb k k'); [discriminate|]. now rewrite IH.
Qed.

Lemma add_entity_keys (gs : list (str * group_info)) (e : entity) :
  Forall key_in_texts gs -> Forall key_in_texts (add_entity gs e).
Proof.
  intros K. unfold add_entity.
  set (entity_text := strip (get (e_text e) [])).
  set (canonical := strip (get (e_canonical e) [])).
  destruct (is_nonempty entity_text); simpl; [|exact K].
  set (group_key := if is_nonempty canonical then canonical else entity_text).
  assert (Hadd : forall t v, key_in_texts (group_key, v) ->
                             key_in_texts (group_key, add_text t v)).
  { intros t v H. unfold key_in_texts in *. simpl in *.
    apply set_add_In. now right. }
  unfold assoc_mem. destruct (assoc_get group_key gs) as [g0|] eqn:G.
  - destruct (is_nonempty canonical);
      repeat apply assoc_update_Forall; auto.
  - rewrite assoc_update_app_fresh by exact G.
    unfold group_key. destruct (is_nonempty canonical) eqn:C.
    + rewrite assoc_update_app_fresh by exact G.
      apply Forall_app. split; [exact K|]. constructor; [|constructor].
      unfold key_in_texts. simpl. apply set_add_In. now left.
    + apply Forall_app. split; [exact K|]. constructor; [|constructor].
      unfold key_in_texts. simpl. now left.
Qed.

Lemma add_alias_group_keys (gs : list (str * group_info)) (ag : alias_group) :
  Forall key_in_texts gs -> Forall key_in_texts (add_alias_group gs ag).
Proof.
  intros K. unfold add_alias_group.
  destruct (assoc_mem (get (ag_canonical ag) []) gs); [|exact K].
  revert gs K. induction (get (ag_aliases ag) []) as [|a r IH];
    intros gs K; simpl; [exact K|].
  apply IH. apply assoc_update_Forall; [|exact K].
  intros v H. unfold key_in_texts in *. simpl in *.
  apply set_add_In. now right.
Qed.

Lemma build_groups_keys (entities : list entity) (pass1_result : pass1) :
  Forall key_in_texts (build_groups entities pass1_result).
Proof.
  unfold build_groups.
  assert (H1 : forall es gs, Forall key_in_texts gs ->
                 Forall key_in_texts (fold_left add_entity es gs)).
  { induction es as [|e es IH]; intros gs K; simpl; [exact K|].
    apply IH. now apply add_entity_keys. }
  assert (H2 : forall ags gs, Forall key_in_texts gs ->
                 Forall key_in_texts (fold_left add_alias_group ags gs)).
  { induction ags as [|a ags IH]; intros gs K; simpl; [exact K|].
    apply IH. now apply add_alias_group_keys. }
  apply H2, H1. constructor.
Qed.

(** ** [build_replacement_pairs] *)

Lemma assoc_set_In (V : Type) (k a : str) (v b : V) (d : list (str * V)) :
  In (a, b) (assoc_set k v d) -> (a = k /\ b = v) \/ In (a, b) d.
Proof.
  induction d as [|[k' v'] d IH]; simpl.
  - intros [E|[]]. inversion E. now left.
  - destruct (str_eqb k k') eqn:E.
    + apply str_eqb_eq in E. subst k'. intros [H|H].
      * inversion H. now left.
      * right. now right.
    + intros [H|H]; [right; now left|].
      destruct (IH H) as [H'|H']; [now left|right; now right].
Qed.

Lemma assoc_set_keys_nonempty (V : Type) (k : str) (v : V)
  (d : list (str * V)) :
  k <> [] -> Forall (fun kv => fst kv <> []) d ->
  Forall (fun kv => fst kv <> []) (assoc_set k v d).
Proof.
  intros Hk. induction 1 as [|[k' v'] d Hx Hd IH]; simpl.
  - constructor; [exact Hk|constructor].
  - destruct (str_eqb k k'); constructor; auto.
Qed.

Lemma assoc_get_perm (V : Type) (k : str) (l l' : list (str * V)) :
  Permutation l l' -> NoDup (map fst l) -> assoc_get k l = assoc_get k l'.
Proof.
  induction 1 as [|[a v] l l' P IH|[a v] [b w] l|l1 l2 l3 P1 IH1 P2 IH2];
    intros N; simpl.
  - reflexivity.
  - inversion N; subst. destruct (str_eqb k a); auto.
  - inversion N as [|? ? Hb N']; subst. simpl in Hb.
    destruct (str_eqb k b) eqn:Eb, (str_eqb k a) eqn:Ea; auto.
    apply str_eqb_eq in Eb, Ea. subst. exfalso. apply Hb. now left.
  - rewrite IH1 by exact N. apply IH2.
    eapply Permutation_NoDup; [|exact N]. now apply Permutation_map.
Qed.

(** The loop over the aliases of one table entry. *)
Lemma alias_fold_spec (ph : str) (aliases : list str)
  (pairs : list (str * str)) :
  let pairs' :=
    fold_left
      (fun ps alias =>
         if is_nonempty alias then assoc_set alias ph ps else ps)
      aliases pairs in
  (NoDup (map fst pairs) -> NoDup (map fst pairs'))
  /\ (Forall (fun kv => fst kv <> []) pairs ->
      Forall (fun kv => fst kv <> []) pairs')
  /\ (forall old new, In (old, new) pairs' ->
        (new = ph /\ In old aliases) \/ In (old, new) pairs)
  /\ (forall t, t <> [] ->
        assoc_get t pairs'
        = if mem_str t aliases then Some ph else assoc_get t pairs).
Proof.
  revert pairs. induction aliases as [|a r IH]; intros pairs; simpl.
  - repeat split; auto.
  - destruct (is_nonempty a) eqn:Ea.
    + apply is_nonempty_true in Ea.
      destruct (IH (assoc_set a ph pairs)) as (I1 & I2 & I3 & I4).
      split; [|split; [|split]].
      * intros N. apply I1. now apply assoc_set_keys_nodup.
      * intros F. apply I2. now apply assoc_set_keys_nonempty.
      * intros old new H. destruct (I3 old new H) as [[-> Hin]|Hin].
        -- left. split; [reflexivity|now right].
        -- apply assoc_set_In in Hin as [[-> ->]|Hin]; [|now right].
           left. split; [reflexivity|now left].
      * intros t Ht. rewrite (I4 t Ht).
        destruct (mem_str t r); [now rewrite orb_true_r|].
        rewrite orb_false_r. destruct (str_eqb t a) eqn:E.
        -- apply str_eqb_eq in E. subst. apply assoc_get_set_same.
        -- apply str_eqb_neq in E. now apply assoc_get_set_other.
    + destruct (IH pairs) as (I1 & I2 & I3 & I4).
      split; [exact I1|]. split; [exact I2|]. split.
      * intros old new H. destruct (I3 old new H) as [[-> Hin]|Hin];
          [left; split; [reflexivity|now right]|now right].
      * intros t Ht. rewrite (I4 t Ht).
        destruct (str_eqb t a) eqn:E; [|reflexivity].
        apply str_eqb_eq in E. subst a. destruct t; [congruence|discriminate].
Qed.

Lemma pair_step_spec (reverse : bool) (pairs : list (str * str))
  (ph : str) (info : placeholder_info) :
  let pairs' := pair_step reverse pairs (ph, info) in
  let value := get (pi_value info) [] in
  (NoDup (map fst pairs) -> NoDup (map fst pairs'))
  /\ (reverse = false -> Forall (fun kv => fst kv <> []) pairs ->
      Forall (fun kv => fst kv <> []) pairs')
  /\ (forall old new, In (old, new) pairs' ->
        In (old, new) pairs
        \/ (if reverse then old = ph /\ new = value
            else new = ph /\ (old = value \/ In old (pi_aliases info))))
  /\ (reverse = false -> forall t, t <> [] ->
        assoc_get t pairs'
        = if str_eqb t value || mem_str t (pi_aliases info) then Some ph
          else assoc_get t pairs).
Proof.
  unfold pair_step. destruct reverse.
  - split; [|split; [|split]]; try discriminate.
    + now apply assoc_set_keys_nodup.
    + intros old new H. apply assoc_set_In in H as [[-> ->]|H]; auto.
  - set (value := get (pi_value info) []).
    set (pairs1 := if is_nonempty value then assoc_set value ph pairs
                   else pairs).
    destruct (alias_fold_spec ph (pi_aliases info) pairs1)
      as (A1 & A2 & A3 & A4).
    assert (H1 : (NoDup (map fst pairs) -> NoDup (map fst pairs1))
                 /\ (Forall (fun kv => fst kv <> []) pairs ->
                     Forall (fun kv => fst kv <> []) pairs1)
                 /\ (forall old new, In (old, new) pairs1 ->
                       In (old, new) pairs \/ (new = ph /\ old = value))
                 /\ (forall t, t <> [] ->
                       assoc_get t pairs1
                       = if str_eqb t value then Some ph
                         else assoc_get t pairs)).
    { unfold pairs1. destruct (is_nonempty value) eqn:Ev.
      - apply is_nonempty_true in Ev. split; [|split; [|split]].
        + now apply assoc_set_keys_nodup.
        + now apply assoc_set_keys_nonempty.
        + intros old new H. apply assoc_set_In in H as [[-> ->]|H]; auto.
        + intros t Ht. destruct (str_eqb t value) eqn:E.
          * apply str_eqb_eq in E. subst. apply assoc_get_set_same.
          * apply str_eqb_neq in E. now apply assoc_get_set_other.
      - split; [auto|]. split; [auto|]. split; [auto|].
        intros t Ht. destruct (str_eqb t value) eqn:E; [|reflexivity].
        apply str_eqb_eq in E. subst t.
        destruct value; [congruence|discriminate]. }
    destruct H1 as (B1 & B2 & B3 & B4).
    split; [auto|]. split; [auto|]. split.
    + intros old new H. destruct (A3 old new H) as [[-> Hin]|Hin].
      * right. auto.
      * destruct (B3 old new Hin) as [H'|[-> ->]]; auto.
    + intros _ t Ht. rewrite (A4 t Ht), (B4 t Ht).
      destruct (str_eqb t value), (mem_str t (pi_aliases info)); reflexivity.
Qed.

Lemma pair_fold_spec (reverse : bool)
  (table : list (str * placeholder_info)) (pairs : list (str * str)) :
  let pairs' := fold_left (pair_step reverse) table pairs in
  (NoDup (map fst pairs) -> NoDup (map fst pairs'))
  /\ (reverse = false -> Forall (fun kv => fst kv <> []) pairs ->
      Forall (fun kv => fst kv <> []) pairs')
  /\ (forall old new, In (old, new) pairs' ->
        In (old, new) pairs
        \/ exists ph info,
             In (ph, info) table
             /\ (if reverse then old = ph /\ new = get (pi_value info) []
                 else new = ph
                      /\ (old = get (pi_value info) []
                          \/ In old (pi_aliases info)))).
Proof.
  revert pairs. induction table as [|[ph info] r IH]; intros pairs; simpl.
  - repeat split; auto.
  - destruct (pair_step_spec reverse pairs ph info) as (S1 & S2 & S3 & _).
    destruct (IH (pair_step reverse pairs (ph, info))) as (I1 & I2 & I3).
    split; [auto|]. split; [auto|].
    intros old new H. destruct (I3 old new H) as [H'|(ph' & info' & Hin & H')].
    + destruct (S3 old new H') as [H''|H'']; [now left|].
      right. exists ph, info. split; [now left|exact H''].
    + right. exists ph', info'. split; [now right|exact H'].
Qed.

(** X10. The pairs [build_replacement_pairs] returns have pairwise
    different search texts and are sorted by the length of the search text,
    longest first.  In the anonymizing direction no search text is empty,
    and every pair sends the [value] or an alias of a table entry to the id
    of that entry; in the restoring direction every pair sends the id of a
    table entry to its [value]. *)
Theorem replacement_pairs_wellformed (mapping_data : mapping) :
  let mappings := get (m_mappings mapping_data) [] in
  (forall reverse,
     NoDup (map fst (build_replacement_pairs mapping_data reverse))
     /\ StronglySorted (fun a b => length (fst a) >= length (fst b))
          (build_replacement_pairs mapping_data reverse))
  /\ Forall (fun kv => fst kv <> [])
       (build_replacement_pairs mapping_data false)
  /\ (forall old new,
        In (old, new) (build_replacement_pairs mapping_data false) ->
        exists info,
          In (new, info) mappings
          /\ (old = get (pi_value info) [] \/ In old (pi_aliases info)))
  /\ (forall old new,
        In (old, new) (build_replacement_pairs mapping_data true) ->
        exists info,
          In (old, info) mappings /\ new = get (pi_value info) []).
Proof.
  intros mappings. unfold build_replacement_pairs. fold mappings.
  set (key := fun kv : str * str => len_key (fst kv)).
  assert (P : forall reverse,
            Permutation
              (sorted_desc key (fold_left (pair_step reverse) mappings []))
              (fold_left (pair_step reverse) mappings []))
    by (intros; apply sorted_desc_perm).
  split; [|split; [|split]].
  - intros reverse. split.
    + eapply Permutation_NoDup.
      * apply Permutation_map, Permutation_sym, P.
      * apply (pair_fold_spec reverse mappings []). constructor.
    + eapply StronglySorted_weaken; [|apply sorted_desc_sorted].
      intros a b. unfold key, len_key. lia.
  - eapply Permutation_Forall; [apply Permutation_sym, P|].
    apply (pair_fold_spec false mappings []); [reflexivity|constructor].
  - intros old new H. apply (Permutation_in _ (P false)) in H.
    apply (pair_fold_spec false mappings []) in H
      as [[]|(ph & info & Hin & -> & H)].
    exists info. auto.
  - intros old new H. apply (Permutation_in _ (P true)) in H.
    apply (pair_fold_spec true mappings []) in H
      as [[]|(ph & info & Hin & -> & ->)].
    exists info. auto.
Qed.

(** ** The pairs made from the artifact of [execute_replacement] *)

Lemma mem_str_set_remove (t k : str) (s : list str) :
  mem_str t (set_remove k s) = mem_str t s && negb (str_eqb t k).
Proof.
  unfold set_remove. induction s as [|y s IH]; simpl; [reflexivity|].
  destruct (str_eqb y k) eqn:Ey; simpl.
  - apply str_eqb_eq in Ey. subst y. rewrite IH.
    destruct (str_eqb t k); simpl; [now rewrite andb_false_r|reflexivity].
  - rewrite IH. destruct (str_eqb t y) eqn:Et; simpl; [|reflexivity].
    apply str_eqb_eq in Et. subst y. now rewrite Ey.
Qed.

Lemma NoDup_assoc_get (V : Type) (k : str) (v : V) (d : list (str * V)) :
  NoDup (map fst d) -> In (k, v) d -> assoc_get k d = Some v.
Proof.
  induction d as [|[k' v'] d IH]; simpl; intros N Hin; [destruct Hin|].
  destruct Hin as [H|H].
  - inversion H; subst. now rewrite str_eqb_refl.
  - inversion N as [|? ? Hk N']; subst. destruct (str_eqb k k') eqn:E.
    + apply str_eqb_eq in E. subst k'. exfalso.
      apply Hk. apply in_map_iff. exists (k, v). auto.
    + now apply IH.
Qed.

(** A run that returns has met no empty literal. *)
Lemma substitute_fold_some (flat : list (str * str)) (lits : list str) :
  forall st st',
    fold_left (replace_literal flat) lits (Some st) = Some st' ->
    ~ In [] lits.
Proof.
  induction lits as [|l r IH]; intros st st' H; [intros []|].
  cbn [fold_left] in H.
  change (replace_literal flat (Some st) l)
    with (replace_loop (S (length (fst st))) l
            (get (assoc_get l flat) []) st 0) in H.
  intros [E|Hin].
  - subst l. rewrite replace_loop_empty_literal in H by lia.
    now rewrite fold_replace_literal_None in H.
  - destruct (replace_loop (S (length (fst st))) l
                (get (assoc_get l flat) []) st 0) as [st1|].
    + exact (IH st1 st' H Hin).
    + now rewrite fold_replace_literal_None in H.
Qed.

Lemma substitute_some (flat : list (str * str)) (text : str)
  (st : str * list log_entry) :
  substitute flat text = Some st -> ~ In [] (map fst flat).
Proof.
  unfold substitute. intros H Hin.
  apply (substitute_fold_some _ _ _ _ H).
  eapply Permutation_in; [apply Permutation_sym, sorted_desc_perm|exact Hin].
Qed.

Section Pairs.

Variable set_iter : list str -> list str.
Hypothesis set_iter_perm : forall l, Permutation (set_iter l) l.

Lemma forward_entry_get (pairs : list (str * str))
  (counters : list (str * nat)) (g : str * group_info) (t : str) :
  key_in_texts g -> t <> [] ->
  assoc_get t (pair_step false pairs (table_entry set_iter counters g))
  = if mem_str t (g_texts (snd g))
    then Some (group_placeholder counters (snd g))
    else assoc_get t pairs.
Proof.
  intros K Ht. unfold table_entry.
  destruct (pair_step_spec false pairs (group_placeholder counters (snd g))
              (PlaceholderInfo (Some (fst g)) (g_type (snd g))
                 (set_iter (set_remove (fst g) (g_texts (snd g))))))
    as (_ & _ & _ & S4).
  rewrite (S4 eq_refl t Ht). simpl.
  rewrite (set_iter_mem set_iter set_iter_perm), mem_str_set_remove.
  destruct (str_eqb t (fst g)) eqn:E; simpl.
  - apply str_eqb_eq in E. subst t.
    apply mem_str_In in K. now rewrite K.
  - now rewrite andb_true_r.
Qed.

Lemma forward_fold_get (gs : list (str * group_info)) (st : assign_state) :
  Forall key_in_texts gs ->
  issued_ok (type_counters st) (placeholder_map st) ->
  NoDup (map fst (placeholder_map st)) ->
  (forall t, t <> [] ->
     assoc_get t (fold_left (pair_step false) (placeholder_map st) [])
     = assoc_get t (text_to_placeholder st)) ->
  let st' := fold_left (assign_group set_iter) gs st in
  forall t, t <> [] ->
    assoc_get t (fold_left (pair_step false) (placeholder_map st') [])
    = assoc_get t (text_to_placeholder st').
Proof.
  revert st. induction gs as [|g r IH]; intros st K Hok Hnd Q; simpl;
    [exact Q|].
  inversion K as [|? ? Kg Kr]; subst.
  destruct (assign_group_table set_iter st g Hok) as (E1 & E2 & E3).
  apply IH; auto.
  - rewrite E1, map_app. apply NoDup_app; [exact Hnd| |].
    + simpl. constructor; [intros []|constructor].
    + simpl. intros x Hx [<-|[]]. contradiction.
  - intros t Ht. rewrite E1, fold_left_app. cbn [fold_left].
    rewrite forward_entry_get by assumption.
    rewrite (assign_group_get set_iter set_iter_perm).
    now rewrite (Q t Ht).
Qed.

Lemma forward_pairs_get (entities : list entity) (pass1_result : pass1)
  (t : str) :
  t <> [] ->
  let st :=
    assign_placeholders set_iter (build_groups entities pass1_result) in
  assoc_get t (fold_left (pair_step false) (placeholder_map st) [])
  = assoc_get t (text_to_placeholder st).
Proof.
  intros Ht.
  apply (forward_fold_get (build_groups entities pass1_result)
           (AssignState [] [] [])); auto.
  - apply build_groups_keys.
  - intros ph [].
  - constructor.
Qed.

(** X11. For the artifact of a run of [execute_replacement], the pairs of
    [build_replacement_pairs] in the anonymizing direction associate the
    literals with the same placeholder ids as the flat literal map of the
    run: looking a text up gives the same result in both. *)
Theorem replacement_pairs_agree_with_literal_map (now text src : str)
  (entities : list entity) (pass1_result : pass1) (T : str) (M : mapping) :
  execute_replacement set_iter now text entities pass1_result src
  = Some (T, M) ->
  forall t,
    assoc_get t (build_replacement_pairs M false)
    = assoc_get t
        (text_to_placeholder
           (assign_placeholders set_iter
              (build_groups entities pass1_result))).
Proof.
  unfold execute_replacement.
  set (gs := build_groups entities pass1_result).
  set (st := assign_placeholders set_iter gs).
  destruct (substitute (text_to_placeholder st) text) as [[T' log]|] eqn:Sub;
    [|discriminate].
  intros E. inversion E; subst T' M. clear E.
  intros t. unfold build_replacement_pairs. simpl.
  set (pairs := fold_left (pair_step false) (placeholder_map st) []).
  assert (N : NoDup (map fst pairs))
    by (apply (pair_fold_spec false (placeholder_map st) []); constructor).
  rewrite (assoc_get_perm _ t _ pairs (sorted_desc_perm _ _ pairs)).
  2:{ eapply Permutation_NoDup; [|exact N].
      apply Permutation_map, Permutation_sym, sorted_desc_perm. }
  destruct t as [|c t].
  - assert (H1 : assoc_get [] pairs = None).
    { destruct (assoc_get [] pairs) as [v|] eqn:G; [|reflexivity].
      apply assoc_get_In in G as [G _]. apply in_map_iff in G as (kv & Ek & G).
      assert (F : Forall (fun kv => fst kv <> []) pairs)
        by (apply (pair_fold_spec false (placeholder_map st) []);
            [reflexivity|constructor]).
      rewrite Forall_forall in F. now apply F in G. }
    rewrite H1.
    destruct (assoc_get [] (text_to_placeholder st)) as [v|] eqn:G;
      [|reflexivity].
    apply assoc_get_In in G as [G _]. now apply (substitute_some _ _ _ Sub) in G.
  - apply forward_pairs_get. discriminate.
Qed.

Lemma reverse_fold_map (table : list (str * placeholder_info))
  (pairs : list (str * str)) :
  NoDup (map fst pairs ++ map fst table) ->
  fold_left (pair_step true) table pairs
  = pairs ++ map (fun kv => (fst kv, get (pi_value (snd kv)) [])) table.
Proof.
  revert pairs. induction table as [|[ph info] r IH]; intros pairs N; simpl.
  - now rewrite app_nil_r.
  - rewrite assoc_set_fresh.
    + rewrite IH; [now rewrite <- app_assoc|].
      rewrite map_app. simpl. rewrite <- app_assoc. exact N.
    + intros H. apply NoDup_remove_2 in N. apply N.
      apply in_or_app. now left.
Qed.

Lemma table_from_app (gs1 gs2 : list (str * group_info)) (st : assign_state) :
  table_from set_iter (type_counters st) (gs1 ++ gs2)
  = table_from set_iter (type_counters st) gs1
    ++ table_from set_iter
         (type_counters (fold_left (assign_group set_iter) gs1 st)) gs2.
Proof.
  revert st. induction gs1 as [|g r IH]; intros st; simpl; [reflexivity|].
  f_equal. destruct g as [canonical info]. apply (IH (assign_group set_iter st (canonical, info))).
Qed.

(** X12. For the artifact of a run of [execute_replacement], the pairs of
    [build_replacement_pairs] in the restoring direction send the
    placeholder id of every literal, canonical name or alias, to the key of
    the literal's canonical group, not to the literal itself. *)
Theorem reverse_pairs_restore_canonical (now text src : str)
  (entities : list entity) (pass1_result : pass1) (T : str) (M : mapping)
  (gs1 gs2 : list (str * group_info)) (g : str * group_info) (t : str) :
  execute_replacement set_iter now text entities pass1_result src
  = Some (T, M) ->
  build_groups entities pass1_result = gs1 ++ g :: gs2 ->
  In t (g_texts (snd g)) ->
  (forall g', In g' gs2 -> mem_str t (g_texts (snd g')) = false) ->
  exists ph,
    assoc_get t
      (text_to_placeholder
         (assign_placeholders set_iter (build_groups entities pass1_result)))
    = Some ph
    /\ assoc_get ph (build_replacement_pairs M true) = Some (fst g).
Proof.
  unfold execute_replacement.
  set (gs := build_groups entities pass1_result).
  set (st := assign_placeholders set_iter gs).
  destruct (substitute (text_to_placeholder st) text) as [[T' log]|] eqn:Sub;
    [|discriminate].
  intros E Egs Hin Hlater. inversion E; subst T' M. clear E.
  set (c := type_counters (assign_placeholders set_iter gs1)).
  exists (group_placeholder c (snd g)). split.
  - unfold st, assign_placeholders. rewrite Egs, fold_left_app. simpl.
    rewrite (assign_later_groups_get set_iter set_iter_perm) by exact Hlater.
    rewrite (assign_group_get set_iter set_iter_perm).
    apply mem_str_In in Hin. now rewrite Hin.
  - unfold build_replacement_pairs. simpl.
    destruct (assign_fold_table set_iter gs (AssignState [] [] []))
      as (I1 & I2 & _).
    { intros ph []. }
    { constructor. }
    simpl in I1. fold (assign_placeholders set_iter gs) in I1, I2.
    fold st in I1, I2.
    set (pairs := fold_left (pair_step true) (placeholder_map st) []).
    assert (N : NoDup (map fst pairs))
      by (apply (pair_fold_spec true (placeholder_map st) []); constructor).
    rewrite (assoc_get_perm _ _ _ pairs (sorted_desc_perm _ _ pairs)).
    2:{ eapply Permutation_NoDup; [|exact N].
        apply Permutation_map, Permutation_sym, sorted_desc_perm. }
    apply NoDup_assoc_get; [exact N|].
    unfold pairs. rewrite reverse_fold_map by exact I2. simpl.
    rewrite I1, Egs.
    pose proof (table_from_app gs1 (g :: gs2) (AssignState [] [] [])) as Ht.
    change (type_counters (AssignState [] [] [])) with (@nil (str * nat))
      in Ht.
    rewrite Ht.
    rewrite map_app. apply in_or_app. right. simpl. left.
    reflexivity.
Qed.

End Pairs.

(** ** [str.replace] and the substitution loop *)

Lemma replace_from_skip (old new : str) (s : str) :
  forall k, replace_from old new k s = replace_from old new 0 (skipn k s).
Proof.
  induction s as [|c s IH]; intros k.
  - now rewrite skipn_nil.
  - destruct k as [|k]; [reflexivity|]. simpl. apply IH.
Qed.

Lemma replace_from_find0 (old new : str) :
  old <> [] ->
  forall s,
    replace_from old new 0 s
    = match find0 old s with
      | None => s
      | Some i =>
          firstn i s ++ new
            ++ replace_from old new 0 (skipn (i + length old) s)
      end.
Proof.
  intros Hold. induction s as [|c s IH].
  - simpl. destruct old; [congruence|reflexivity].
  - cbn [replace_from find0].
    destruct (prefixb old (c :: s)) eqn:P.
    + rewrite replace_from_skip. simpl.
      destruct old as [|o old]; [congruence|]. simpl.
      now rewrite Nat.sub_0_r.
    + rewrite IH. destruct (find0 old s) as [i|]; reflexivity.
Qed.

Lemma replace_all_replace_from (old new : str) :
  old <> [] ->
  forall n s, length s <= n ->
    replace_all n old new s = replace_from old new 0 s.
Proof.
  intros Hold. induction n as [|n IH]; intros s Hs.
  - destruct s; [reflexivity|simpl in Hs; lia].
  - cbn [replace_all]. rewrite replace_from_find0 by exact Hold.
    destruct (find0 old s) as [i|] eqn:F; [|reflexivity].
    rewrite IH; [reflexivity|].
    rewrite length_skipn.
    assert (0 < length old) by (destruct old; [congruence|simpl; lia]).
    lia.
Qed.

Lemma replace_literal_str_replace (flat : list (str * str)) (l : str)
  (text : str) (log : list log_entry) :
  l <> [] ->
  exists log',
    replace_literal flat (Some (text, log)) l
    = Some (str_replace l (get (assoc_get l flat) []) text, log').
Proof.
  intros Hl. unfold replace_literal. cbn [fst].
  destruct (replace_loop_replace_all l (get (assoc_get l flat) []) Hl
              (length text) text [] log (le_n _)) as (log' & E).
  exists log'. cbn [app length] in E. rewrite E.
  rewrite replace_all_replace_from by auto.
  destruct l; [congruence|reflexivity].
Qed.

Lemma substitute_fold_str_replace (flat : list (str * str))
  (lits : list str) :
  forall text log T log',
    fold_left (replace_literal flat) lits (Some (text, log)) = Some (T, log') ->
    T = apply_replacements
          (map (fun l => (l, get (assoc_get l flat) [])) lits) text.
Proof.
  induction lits as [|l r IH]; intros text log T log' H.
  - simpl in H. now inversion H.
  - assert (Hl : l <> []).
    { intros ->. apply (substitute_fold_some _ _ _ _ H). now left. }
    cbn [fold_left] in H.
    destruct (replace_literal_str_replace flat l text log Hl) as (log1 & E).
    rewrite E in H. apply IH in H. exact H.
Qed.

(** X13. When [execute_replacement] returns, its anonymized text is what
    Python's [str.replace] gives when applied for one literal after the
    other, in the order [sorted_texts], each literal being replaced by its
    placeholder id: the cursor loop is [anonymized_text.replace(entity_text,
    placeholder)]. *)
Theorem anonymized_text_is_iterated_replace
  (set_iter : list str -> list str) (now text src : str)
  (entities : list entity) (pass1_result : pass1) (T : str) (M : mapping) :
  execute_replacement set_iter now text entities pass1_result src
  = Some (T, M) ->
  let flat :=
    text_to_placeholder
      (assign_placeholders set_iter (build_groups entities pass1_result)) in
  T = apply_replacements
        (map (fun l => (l, get (assoc_get l flat) []))
           (sorted_texts set_iter entities pass1_result))
        text.
Proof.
  unfold execute_replacement, sorted_texts.
  set (flat := text_to_placeholder
                 (assign_placeholders set_iter
                    (build_groups entities pass1_result))).
  destruct (substitute flat text) as [[T' log]|] eqn:Sub; [|discriminate].
  intros E. inversion E; subst T' M. clear E. cbv zeta.
  unfold substitute in Sub.
  exact (substitute_fold_str_replace flat _ _ _ _ _ Sub).
Qed.

(** ** [_replace_in_paragraph] *)

(** X14. [_replace_in_paragraph] never changes the number of runs of a
    paragraph.  The text of the paragraph, read across its runs, becomes the
    text after all replacements, so a literal split over several runs is
    replaced as well; when the replacements change nothing the runs are left
    as they are, otherwise the whole text goes to the first run and the other
    runs are emptied. *)
Theorem replace_in_paragraph_text (replacements : list (str * str))
  (runs : list str) :
  let new_text := apply_replacements replacements (concat runs) in
  length (_replace_in_paragraph replacements runs) = length runs
  /\ (runs <> [] ->
      concat (_replace_in_paragraph replacements runs) = new_text)
  /\ (new_text = concat runs ->
      _replace_in_paragraph replacements runs = runs)
  /\ (runs <> [] -> new_text <> concat runs ->
      _replace_in_paragraph replacements runs
      = new_text :: map (fun _ => []) (tl runs)).
Proof.
  intros new_text. unfold _replace_in_paragraph.
  destruct runs as [|r rest].
  - repeat split; auto; congruence.
  - fold new_text.
    destruct (str_eqb new_text (concat (r :: rest))) eqn:E; simpl.
    + apply str_eqb_eq in E. simpl in E.
      split; [reflexivity|]. split; [now intros _|].
      split; [reflexivity|]. intros _ H. exfalso. apply H. exact E.
    + apply str_eqb_neq in E. simpl in E.
      split; [now rewrite length_map|]. split; [|split].
      * intros _.
        assert (H : concat (map (fun _ : str => @nil ascii) rest) = []).
        { clear. induction rest; simpl; auto. }
        rewrite H. apply app_nil_r.
      * intros H. contradiction.
      * reflexivity.
Qed.

(** ** Edge cases of the engine *)

Lemma build_groups_all_blank (entities : list entity) (pass1_result : pass1) :
  Forall (fun e => Forall (fun c => is_space c = true) (get (e_text e) []))
    entities ->
  build_groups entities pass1_result = [].
Proof.
  intros H. unfold build_groups.
  assert (H1 : fold_left add_entity entities [] = []).
  { induction H as [|e es He _ IH]; simpl; [reflexivity|].
    now rewrite add_entity_blank. }
  rewrite H1. induction (get (p1_aliases pass1_result) []) as [|ag r IH];
    simpl; [reflexivity|exact IH].
Qed.

(** X15. When no mention has a text other than white space,
    [execute_replacement] returns the text as it is, with an empty
    placeholder table, an empty replacement log and [entity_count] 0,
    whatever aliases the first pass lists. *)
Theorem no_mention_nothing_replaced
  (set_iter : list str -> list str) (now text src : str)
  (entities : list entity) (pass1_result : pass1) :
  Forall (fun e => Forall (fun c => is_space c = true) (get (e_text e) []))
    entities ->
  execute_replacement set_iter now text entities pass1_result src
  = Some (text, Mapping (Some (Metadata now src 0)) (Some []) (Some [])).
Proof.
  intros H. unfold execute_replacement.
  rewrite (build_groups_all_blank entities pass1_result H). reflexivity.
Qed.

Lemma In_skipn (c : ascii) (n : nat) (s : str) : In c (skipn n s) -> In c s.
Proof.
  intros H. rewrite <- (firstn_skipn n s). apply in_or_app. now right.
Qed.

Lemma In_firstn (c : ascii) (n : nat) (s : str) : In c (firstn n s) -> In c s.
Proof.
  intros H. rewrite <- (firstn_skipn n s). apply in_or_app. now left.
Qed.

Lemma In_slice (c : ascii) (a b : nat) (s : str) :
  In c (slice a b s) -> In c s.
Proof.
  unfold slice. intros H. eapply In_skipn. eapply In_firstn. exact H.
Qed.

Lemma find0_needs_chars (c : ascii) (sub s : str) :
  In c sub -> ~ In c s -> find0 sub s = None.
Proof.
  intros Hc Hs. destruct (find0 sub s) as [i|] eqn:F; [|reflexivity].
  exfalso. apply Hs. apply find0_Some in F as (r & E).
  apply (In_skipn c i s). rewrite E. apply in_or_app. now left.
Qed.

Lemma position_fold_counts (l : list log_entry) (st : str * nat * nat) :
  let st' := fold_left position_step l st in
  snd (fst st') + snd st' = snd (fst st) + snd st + length l.
Proof.
  revert st. induction l as [|e l IH]; intros st; simpl; [lia|].
  rewrite IH. destruct st as [[t m] u]. unfold position_step.
  destruct (find_in_window t e); simpl; lia.
Qed.

Lemma position_fold_without_brace (l : list log_entry) (text : str)
  (m u : nat) :
  ~ In lbrace text ->
  Forall (fun e => In lbrace (placeholder e)) l ->
  fold_left position_step l (text, m, u) = (text, m, u + length l).
Proof.
  intros Ht. revert u. induction l as [|e l IH]; intros u F; simpl.
  - now rewrite Nat.add_0_r.
  - inversion F as [|? ? He Fl]; subst.
    assert (W : find_in_window text e = None).
    { unfold find_in_window.
      rewrite (find0_needs_chars lbrace (placeholder e)); [reflexivity|exact He|].
      intros H. apply Ht. unfold py_slice in H. now apply In_slice in H. }
    rewrite W, IH by exact Fl. f_equal. lia.
Qed.

Section Untouched.

Context {SC : Scoring}.

(** X16. A text that contains no left brace is returned unchanged by
    [run_deanonymize], with every counter at 0, whenever each logged
    placeholder id contains a left brace. *)
Theorem text_without_brace_untouched (text : str) (mapping_data : mapping) :
  ~ In lbrace text ->
  Forall (fun e => In lbrace (placeholder e))
    (get (m_replacement_log mapping_data) []) ->
  run_deanonymize text mapping_data
  = (text,
     Stats 0 0 0 0 (length (get (m_replacement_log mapping_data) []))).
Proof.
  intros Ht F. unfold run_deanonymize, restore_by_position.
  set (log := get (m_replacement_log mapping_data) []) in *.
  rewrite position_fold_without_brace; [|exact Ht|].
  2:{ eapply Permutation_Forall; [|exact F].
      apply Permutation_sym, sorted_desc_perm. }
  assert (Hf : finditer text = [])
    by (apply (no_lbrace_no_match text Ht 0)).
  unfold restore_by_context, restore_by_canonical. rewrite Hf. simpl.
  rewrite Hf. simpl. now rewrite Hf.
Qed.

(** X17. The counters of [run_deanonymize] are bounded by what there is to
    restore: step A counts every log record as matched or unmatched,
    [position_matched] is at most [total_in_log], [context_matched] is at
    most the number of tokens step B finds, and [fallback_count] at most the
    number of tokens step C finds. *)
Theorem restoration_counters_bounded (text : str) (mapping_data : mapping) :
  let replacement_log := get (m_replacement_log mapping_data) [] in
  let mappings := get (m_mappings mapping_data) [] in
  let step_a := restore_by_position text replacement_log in
  let step_b := restore_by_context (text_of step_a) replacement_log in
  let stats := snd (run_deanonymize text mapping_data) in
  snd (fst step_a) + snd step_a = length replacement_log
  /\ position_matched stats = snd (fst step_a)
  /\ position_matched stats <= total_in_log stats
  /\ context_matched stats <= length (finditer (text_of step_a))
  /\ fallback_count stats <= length (finditer (fst step_b)).
Proof.
  intros log mappings step_a step_b stats.
  assert (HA : snd (fst step_a) + snd step_a = length log).
  { unfold step_a, restore_by_position.
    rewrite position_fold_counts. simpl.
    apply Permutation_length, sorted_desc_perm. }
  assert (HB : forall l st,
             snd (fold_left (context_step log) l st) <= snd st + length l).
  { induction l as [|m l IH]; intros st; simpl; [lia|].
    etransitivity; [apply IH|]. destruct st as [t n], m as [pos tok].
    unfold context_step.
    destruct (best_candidate log tok _ _) as [bs [e|]]; simpl; [|lia].
    destruct (score_gt bs score_half); simpl; lia. }
  assert (HC : forall l st,
             snd (fold_left (canonical_step mappings) l st)
             <= snd st + length l).
  { induction l as [|m l IH]; intros st; simpl; [lia|].
    etransitivity; [apply IH|]. destruct st as [t n], m as [pos tok].
    unfold canonical_step.
    destruct (assoc_get tok mappings); simpl; lia. }
  unfold stats, run_deanonymize. fold log. fold mappings. fold step_a.
  destruct step_a as [[t1 pm] pu] eqn:EA. simpl in HA.
  unfold text_of in *. simpl in step_b. simpl.
  fold step_b. destruct step_b as [t2 cm] eqn:EB.
  destruct (restore_by_canonical t2 mappings) as [t3 fc] eqn:EC. simpl.
  split; [exact HA|]. split; [reflexivity|]. split; [lia|]. split.
  - assert (E : cm = snd (restore_by_context t1 log))
      by (unfold step_b in EB; now rewrite EB).
    rewrite E. unfold restore_by_context.
    destruct (finditer t1) as [|m l] eqn:Ef; [simpl; lia|].
    etransitivity; [apply HB|]. rewrite length_rev. simpl. lia.
  - assert (E : fc = snd (restore_by_canonical t2 mappings))
      by (now rewrite EC).
    rewrite E. unfold restore_by_canonical.
    etransitivity; [apply HC|]. rewrite length_rev. simpl. lia.
Qed.

End Untouched.

(** ** When [execute_replacement] returns *)

Lemma assoc_mem_update (V : Type) (c k : str) (f : V -> V)
  (d : list (str * V)) :
  assoc_mem c (assoc_update k f d) = assoc_mem c d.
Proof.
  unfold assoc_mem. induction d as [|[k' v'] d IH]; simpl; [reflexivity|].
  destruct (str_eqb k k'); simpl; destruct (str_eqb c k'); auto.
Qed.

Lemma add_entity_no_empty (gs : list (str * group_info)) (e : entity) :
  Forall (fun g => ~ In [] (g_texts (snd g))) gs ->
  Forall (fun g => ~ In [] (g_texts (snd g))) (add_entity gs e).
Proof.
  intros K. unfold add_entity.
  set (entity_text := strip (get (e_text e) [])).
  set (canonical := strip (get (e_canonical e) [])).
  destruct (is_nonempty entity_text) eqn:Et; simpl; [|exact K].
  apply is_nonempty_true in Et.
  set (group_key := if is_nonempty canonical then canonical else entity_text).
  assert (Hadd : forall t v, t <> [] ->
            ~ In [] (g_texts (snd (group_key, v))) ->
            ~ In [] (g_texts (snd (group_key, add_text t v)))).
  { intros t v Ht H. simpl in *. intros H'. apply set_add_In in H'.
    destruct H' as [H'|H']; [now symmetry in H'|contradiction]. }
  set (groups1 := if assoc_mem group_key gs then gs
                  else gs ++ [(group_key, GroupInfo (get (e_type e) (chars "unknown")) [] [])]).
  assert (K1 : Forall (fun g => ~ In [] (g_texts (snd g))) groups1).
  { unfold groups1. destruct (assoc_mem group_key gs); [exact K|].
    apply Forall_app. split; [exact K|]. constructor; [|constructor].
    simpl. intros []. }
  destruct (is_nonempty canonical) eqn:C.
  - apply is_nonempty_true in C.
    repeat apply assoc_update_Forall; auto.
  - apply assoc_update_Forall; auto.
Qed.

Lemma entities_no_empty (entities : list entity) :
  ~ has_empty_text (build_groups entities (Pass1 None)).
Proof.
  unfold build_groups. simpl.
  assert (H : forall es gs,
            Forall (fun g => ~ In [] (g_texts (snd g))) gs ->
            Forall (fun g => ~ In [] (g_texts (snd g)))
              (fold_left add_entity es gs)).
  { induction es as [|e es IH]; intros gs K; simpl; [exact K|].
    apply IH. now apply add_entity_no_empty. }
  intros (g & Hg & He).
  specialize (H entities [] (Forall_nil _)). rewrite Forall_forall in H.
  exact (H g Hg He).
Qed.

Lemma alias_update_empty (k a : str) (gs : list (str * group_info)) :
  has_empty_text (assoc_update k (add_alias a) gs)
  <-> has_empty_text gs \/ (assoc_mem k gs = true /\ a = []).
Proof.
  unfold has_empty_text, assoc_mem.
  induction gs as [|[k' v] d IH]; simpl.
  - split; [intros (g & [] & _)|intros [(g & [] & _)|[H _]]; discriminate].
  - destruct (str_eqb k k') eqn:E.
    + split.
      * intros (g & [<-|Hg] & He).
        -- simpl in He. apply set_add_In in He as [He|He].
           ++ right. split; [reflexivity|now symmetry].
           ++ left. exists (k', v). split; [now left|exact He].
        -- left. exists g. split; [now right|exact He].
      * intros [(g & [<-|Hg] & He)|[_ ->]].
        -- exists (k', add_alias a v). split; [now left|].
           simpl. apply set_add_In. now right.
        -- exists g. split; [now right|exact He].
        -- exists (k', add_alias [] v). split; [now left|].
           simpl. apply set_add_In. now left.
    + split.
      * intros (g & [<-|Hg] & He).
        -- left. exists (k', v). split; [now left|exact He].
        -- destruct (proj1 IH (ex_intro _ g (conj Hg He)))
             as [(g' & Hg' & He')|H].
           ++ left. exists g'. split; [now right|exact He'].
           ++ now right.
      * intros [(g & [<-|Hg] & He)|H].
        -- exists (k', v). split; [now left|exact He].
        -- destruct (proj2 IH (or_introl (ex_intro _ g (conj Hg He))))
             as (g' & Hg' & He').
           exists g'. split; [now right|exact He'].
        -- destruct (proj2 IH (or_intror H)) as (g' & Hg' & He').
           exists g'. split; [now right|exact He'].
Qed.

Lemma add_alias_group_empty (gs : list (str * group_info)) (ag : alias_group) :
  (has_empty_text (add_alias_group gs ag)
   <-> has_empty_text gs
       \/ (assoc_mem (get (ag_canonical ag) []) gs = true
           /\ In [] (get (ag_aliases ag) [])))
  /\ forall c, assoc_mem c (add_alias_group gs ag) = assoc_mem c gs.
Proof.
  unfold add_alias_group.
  set (canonical := get (ag_canonical ag) []).
  destruct (assoc_mem canonical gs) eqn:M.
  - assert (H : forall aliases gs0,
              assoc_mem canonical gs0 = true ->
              (has_empty_text
                 (fold_left
                    (fun gs1 alias =>
                       assoc_update canonical (add_alias alias) gs1)
                    aliases gs0)
               <-> has_empty_text gs0 \/ In [] aliases)
              /\ forall c,
                   assoc_mem c
                     (fold_left
                        (fun gs1 alias =>
                           assoc_update canonical (add_alias alias) gs1)
                        aliases gs0)
                   = assoc_mem c gs0).
    { induction aliases as [|a r IH]; intros gs0 M0; simpl.
      - split; [|reflexivity]. split; [now left|now intros [H|[]]].
      - destruct (IH (assoc_update canonical (add_alias a) gs0)) as [I1 I2].
        { now rewrite assoc_mem_update. }
        split.
        + rewrite I1, alias_update_empty. rewrite M0. split.
          * intros [[H|[_ ->]]|H]; auto.
          * intros [H|[<-|H]]; auto.
        + intros c. now rewrite I2, assoc_mem_update. }
    destruct (H (get (ag_aliases ag) []) gs M) as [H1 H2].
    split; [|exact H2]. rewrite H1. split.
    + intros [H'|H']; auto.
    + intros [H'|[_ H']]; auto.
  - split; [|reflexivity]. split; [now left|].
    intros [H|[H _]]; [exact H|discriminate].
Qed.

Lemma alias_groups_empty (ags : list alias_group)
  (gs : list (str * group_info)) :
  has_empty_text (fold_left add_alias_group ags gs)
  <-> has_empty_text gs
      \/ exists ag, In ag ags
           /\ assoc_mem (get (ag_canonical ag) []) gs = true
           /\ In [] (get (ag_aliases ag) []).
Proof.
  revert gs. induction ags as [|ag r IH]; intros gs; simpl.
  - split; [now left|]. intros [H|(ag & [] & _)]. exact H.
  - destruct (add_alias_group_empty gs ag) as [A1 A2].
    rewrite IH, A1. split.
    + intros [[H|H]|(ag' & H1 & H2 & H3)].
      * now left.
      * right. exists ag. split; [now left|exact H].
      * right. exists ag'. rewrite A2 in H2. split; [now right|auto].
    + intros [H|(ag' & [<-|H1] & H2 & H3)].
      * left; now left.
      * left; right. auto.
      * right. exists ag'. rewrite A2. auto.
Qed.

Section Returns.

Variable set_iter : list str -> list str.
Hypothesis set_iter_perm : forall l, Permutation (set_iter l) l.

Lemma flat_keys_texts (gs : list (str * group_info)) (st : assign_state)
  (t : str) :
  In t (map fst (text_to_placeholder (fold_left (assign_group set_iter) gs st)))
  <-> In t (map fst (text_to_placeholder st))
      \/ exists g, In g gs /\ In t (g_texts (snd g)).
Proof.
  assert (K : forall d : list (str * str),
            In t (map fst d) <-> assoc_get t d <> None).
  { intros d. split.
    - intros H. apply In_assoc_get in H as (v & ->). discriminate.
    - intros H. destruct (assoc_get t d) as [v|] eqn:G; [|congruence].
      now apply assoc_get_In in G. }
  revert st. induction gs as [|g r IH]; intros st; simpl.
  - split; [now left|]. intros [H|(g & [] & _)]. exact H.
  - rewrite IH, (K (text_to_placeholder (assign_group set_iter st g))).
    rewrite (assign_group_get set_iter set_iter_perm).
    destruct (mem_str t (g_texts (snd g))) eqn:E.
    + apply mem_str_In in E. split.
      * intros _. right. exists g. split; [now left|exact E].
      * intros _. left. discriminate.
    + rewrite <- K. split.
      * intros [H|(g' & H1 & H2)]; [now left|].
        right. exists g'. split; [now right|exact H2].
      * intros [H|(g' & [<-|H1] & H2)].
        -- now left.
        -- apply mem_str_In in H2. congruence.
        -- right. exists g'. auto.
Qed.

(** X18. [execute_replacement] returns unless the first pass lists an empty
    string as an alias of a canonical name that is the key of a group made
    from the entities; in that case the pass of the empty literal never ends
    ([find] of the empty string succeeds at every cursor), whatever the
    fuel. *)
Theorem execute_replacement_returns_iff (now text src : str)
  (entities : list entity) (pass1_result : pass1) :
  (execute_replacement set_iter now text entities pass1_result src = None
   <-> exists ag,
         In ag (get (p1_aliases pass1_result) [])
         /\ assoc_mem (get (ag_canonical ag) [])
              (build_groups entities (Pass1 None)) = true
         /\ In [] (get (ag_aliases ag) []))
  /\ (forall fuel ph st c,
        c <= length (fst st) -> replace_loop fuel [] ph st c = None).
Proof.
  split; [|intros; now apply replace_loop_empty_literal].
  set (gs := build_groups entities pass1_result).
  set (flat := text_to_placeholder (assign_placeholders set_iter gs)).
  assert (Hk : In [] (map fst flat) <-> has_empty_text gs).
  { unfold flat, assign_placeholders. rewrite flat_keys_texts. simpl.
    split; [intros [[]|H]; exact H|now right]. }
  assert (Hg : has_empty_text gs
               <-> exists ag,
                     In ag (get (p1_aliases pass1_result) [])
                     /\ assoc_mem (get (ag_canonical ag) [])
                          (build_groups entities (Pass1 None)) = true
                     /\ In [] (get (ag_aliases ag) [])).
  { unfold gs. unfold build_groups at 1. rewrite alias_groups_empty.
    split; [|now right]. intros [H|H]; [|exact H].
    exfalso. exact (entities_no_empty entities H). }
  rewrite <- Hg, <- Hk. unfold execute_replacement. fold gs. fold flat.
  split.
  - intros H. destruct (in_dec (list_eq_dec ascii_dec) [] (map fst flat))
      as [Hin|Hout]; [exact Hin|].
    destruct (substitute_returns flat text) as (st & E).
    + intros l Hl ->. contradiction.
    + rewrite E in H. destruct st. discriminate.
  - intros Hin. destruct (substitute flat text) as [[T log]|] eqn:E;
      [|reflexivity].
    exfalso. exact (substitute_some _ _ _ E Hin).
Qed.

End Returns.

(** ** The records of the replacement log *)

Lemma length_slice (a b : nat) (s : str) : length (slice a b s) <= b - a.
Proof. unfold slice. rewrite length_firstn. lia. Qed.

Lemma StronglySorted_snoc (A : Type) (R : A -> A -> Prop) (l : list A)
  (x : A) :
  StronglySorted R l -> Forall (fun a => R a x) l ->
  StronglySorted R (l ++ [x]).
Proof.
  induction 1 as [|a l Sl IH Ha]; intros F; simpl.
  - constructor; constructor.
  - inversion F; subst. constructor; [now apply IH|].
    apply Forall_app. split; [exact Ha|]. constructor; [assumption|constructor].
Qed.

Section LogRecords.

Variable flat : list (str * str).

Lemma log_inv_pass :
  forall (x : str) (todo : list str) (st st' : str * list log_entry),
    x <> [] -> In x (map fst flat) ->
    Forall (fun y => length x >= length y) todo ->
    log_inv flat (x :: todo) (snd st) ->
    replace_literal flat (Some st) x = Some st' ->
    log_inv flat todo (snd st').
Proof.
  intros x todo st st' Hx Hin Hle Hinv Hrun.
  unfold replace_literal in Hrun.
  set (ph := get (assoc_get x flat) []) in *.
  assert (Hph : assoc_get x flat = Some ph).
  { unfold ph. apply In_assoc_get in Hin as (v & ->). reflexivity. }
  destruct (replace_loop_rule
              (fun s _ => log_inv flat (x :: todo) (snd s)) x ph) with
    (fuel := S (length (fst st))) (st := st) (c := 0) (st' := st')
    as (c' & Hfinal & _); auto.
  - intros [t log] c pos (I1 & I2 & I3) _. simpl in *.
    split; [|split].
    + apply Forall_app. split; [exact I1|]. constructor; [|constructor].
      unfold record_ok. simpl. split; [exact Hph|]. split; [exact Hx|].
      split; [lia|]. split.
      * etransitivity; [apply length_slice|]. lia.
      * etransitivity; [apply length_slice|]. lia.
    + apply StronglySorted_snoc; [exact I2|].
      eapply Forall_impl; [|exact I3]. intros e He. simpl.
      inversion He; subst. assumption.
    + apply Forall_app. split; [exact I3|]. constructor; [|constructor].
      simpl. constructor; [lia|exact Hle].
  - destruct Hfinal as (I1 & I2 & I3). split; [exact I1|]. split; [exact I2|].
    eapply Forall_impl; [|exact I3]. intros e He. now inversion He.
Qed.

Lemma log_inv_fold (lits : list str) :
  StronglySorted (fun a b => length a >= length b) lits ->
  (forall x, In x lits -> In x (map fst flat)) ->
  forall st st',
    log_inv flat lits (snd st) ->
    fold_left (replace_literal flat) lits (Some st) = Some st' ->
    log_inv flat [] (snd st').
Proof.
  induction 1 as [|x todo St IH Hx]; intros Hin st st' Hinv Hrun.
  - simpl in Hrun. inversion Hrun; subst. exact Hinv.
  - assert (Hne : x <> []).
    { intros ->. apply (substitute_fold_some _ _ _ _ Hrun). now left. }
    cbn [fold_left] in Hrun.
    destruct (replace_literal flat (Some st) x) as [st1|] eqn:E.
    + apply (IH (fun y Hy => Hin y (or_intror Hy)) st1 st'); [|exact Hrun].
      apply (log_inv_pass x todo st st1); auto.
      apply Hin. now left.
    + now rewrite fold_replace_literal_None in Hrun.
Qed.

End LogRecords.

Lemma replacement_log_records_lemma
  (set_iter : list str -> list str) (now text src : str)
  (entities : list entity) (pass1_result : pass1) (T : str) (M : mapping) :
  execute_replacement set_iter now text entities pass1_result src
  = Some (T, M) ->
  let flat :=
    text_to_placeholder
      (assign_placeholders set_iter (build_groups entities pass1_result)) in
  let log := get (m_replacement_log M) [] in
  Forall (record_ok flat) log
  /\ StronglySorted
       (fun a b => length (original_text a) >= length (original_text b)) log.
Proof.
  unfold execute_replacement.
  set (flat := text_to_placeholder
                 (assign_placeholders set_iter
                    (build_groups entities pass1_result))).
  destruct (substitute flat text) as [[T' log]|] eqn:Sub; [|discriminate].
  intros E. inversion E; subst T' M. clear E. cbv zeta. simpl.
  unfold substitute in Sub.
  destruct (log_inv_fold flat (sorted_desc len_key (map fst flat)))
    with (st := (text, @nil log_entry)) (st' := (T, log)) as (I1 & I2 & _).
  - eapply StronglySorted_weaken; [|apply sorted_desc_sorted].
    intros a b. unfold len_key. lia.
  - intros x Hx. eapply Permutation_in; [apply sorted_desc_perm|exact Hx].
  - repeat split; constructor.
  - exact Sub.
  - split; assumption.
Qed.

(** X19. In the artifact [execute_replacement] returns, every record of the
    replacement log pairs a non-empty literal of the flat map with the
    placeholder id the map gives it, has a position that is not negative and
    contexts of at most 40 characters; and the records come in the order in
    which the literals are processed, so the length of [original_text] never
    increases along the log. *)
Theorem replacement_log_records
  (set_iter : list str -> list str) (now text src : str)
  (entities : list entity) (pass1_result : pass1) (T : str) (M : mapping) :
  execute_replacement set_iter now text entities pass1_result src
  = Some (T, M) ->
  let flat :=
    text_to_placeholder
      (assign_placeholders set_iter (build_groups entities pass1_result)) in
  let log := get (m_replacement_log M) [] in
  Forall (record_ok flat) log
  /\ StronglySorted
       (fun a b => length (original_text a) >= length (original_text b)) log.
Proof. apply replacement_log_records_lemma. Qed.

(** ** The length of the anonymized text *)

Lemma total_length_change_snoc (log : list log_entry) (e : log_entry) :
  total_length_change (log ++ [e])
  = (total_length_change log + length_change e)%Z.
Proof.
  unfold total_length_change. induction log as [|x log IH]; simpl; [lia|].
  rewrite IH. lia.
Qed.

Lemma length_fold_replace (flat : list (str * str)) (text0 : str)
  (lits : list str) :
  forall st st',
    Z.of_nat (length (fst st))
    = (Z.of_nat (length text0) + total_length_change (snd st))%Z ->
    fold_left (replace_literal flat) lits (Some st) = Some st' ->
    Z.of_nat (length (fst st'))
    = (Z.of_nat (length text0) + total_length_change (snd st'))%Z.
Proof.
  induction lits as [|l r IH]; intros st st' Hinv Hrun.
  - simpl in Hrun. inversion Hrun; subst. exact Hinv.
  - cbn [fold_left] in Hrun.
    destruct (replace_literal flat (Some st) l) as [st1|] eqn:E.
    + apply (IH st1 st'); [|exact Hrun].
      unfold replace_literal in E.
      destruct (replace_loop_rule
                  (fun s _ =>
                     Z.of_nat (length (fst s))
                     = (Z.of_nat (length text0)
                        + total_length_change (snd s))%Z)
                  l (get (assoc_get l flat) [])) with
        (fuel := S (length (fst st))) (st := st) (c := 0) (st' := st1)
        as (c' & Hfinal & _); auto.
      intros s c pos Hs Hf.
      apply find_Some in Hf as (_ & [Hb _] & _).
      rewrite replace_at_text. destruct s as [t log]. simpl in *.
      rewrite total_length_change_snoc. unfold length_change. simpl.
      rewrite !length_app, length_firstn, length_skipn. lia.
    + now rewrite fold_replace_literal_None in Hrun.
Qed.

(** X20. The anonymized text and the replacement log account for each
    other: the length of the anonymized text is the length of the document
    plus, for every record of the log, the length of its placeholder id minus
    the length of its original text. *)
Theorem anonymized_length_accounting
  (set_iter : list str -> list str) (now text src : str)
  (entities : list entity) (pass1_result : pass1) (T : str) (M : mapping) :
  execute_replacement set_iter now text entities pass1_result src
  = Some (T, M) ->
  Z.of_nat (length T)
  = (Z.of_nat (length text)
     + total_length_change (get (m_replacement_log M) []))%Z.
Proof.
  unfold execute_replacement.
  destruct (substitute _ text) as [[T' log]|] eqn:Sub; [|discriminate].
  intros E. inversion E; subst T' M. clear E. simpl.
  unfold substitute in Sub.
  apply (length_fold_replace _ text _ (text, []) (T, log)) in Sub;
    [exact Sub|].
  simpl. unfold total_length_change. simpl. lia.
Qed.

(** ** Step B on a token without a record *)

Section UnknownToken.

Context {SC : Scoring}.

Lemma best_candidate_no_record (replacement_log : list log_entry)
  (tok before after : str) (best : score * option log_entry) :
  (forall e, In e replacement_log -> placeholder e <> tok) ->
  fold_left (candidate_step tok before after) replacement_log best = best.
Proof.
  revert best. induction replacement_log as [|e r IH]; intros best H; simpl;
    [reflexivity|].
  rewrite IH by (intros; apply H; now right).
  unfold candidate_step.
  assert (E : str_eqb (placeholder e) tok = false).
  { apply str_eqb_neq. apply H. now left. }
  now rewrite E.
Qed.

(** X21. Step B leaves alone every token for which the log has no record
    with the same id, whatever the contexts: a text whose tokens all lack a
    record comes back unchanged, with [context_matched] 0. *)
Theorem context_ignores_unrecorded (text : str)
  (replacement_log : list log_entry) :
  (forall pos tok e,
     In (pos, tok) (finditer text) -> In e replacement_log ->
     placeholder e <> tok) ->
  restore_by_context text replacement_log = (text, 0).
Proof.
  intros H. unfold restore_by_context.
  destruct (finditer text) as [|m l] eqn:Ef; [reflexivity|].
  rewrite <- Ef in *. clear Ef m l.
  assert (G : forall ms st,
            (forall pos tok e, In (pos, tok) ms -> In e replacement_log ->
               placeholder e <> tok) ->
            fold_left (context_step replacement_log) ms st = st).
  { induction ms as [|[pos tok] ms IH]; intros st Hm; simpl; [reflexivity|].
    rewrite IH by (intros; eapply Hm; [right|]; eassumption).
    destruct st as [t n]. unfold context_step, best_candidate.
    rewrite best_candidate_no_record; [reflexivity|].
    intros e He. eapply Hm; [left; reflexivity|exact He]. }
  apply G. intros pos tok e Hin He. apply (H pos tok e); [|exact He].
  now apply in_rev.
Qed.

End UnknownToken.

(** ** The artifact is consistent *)

Section Consistency.

Variable set_iter : list str -> list str.
Hypothesis set_iter_perm : forall l, Permutation (set_iter l) l.

Lemma assoc_get_In_pair (V : Type) (k : str) (v : V) (d : list (str * V)) :
  assoc_get k d = Some v -> In (k, v) d.
Proof.
  induction d as [|[k' v'] d IH]; simpl; [discriminate|].
  destruct (str_eqb k k') eqn:E.
  - apply str_eqb_eq in E. subst k'. intros H. inversion H. now left.
  - intros H. right. now apply IH.
Qed.

(** X23. The artifact is consistent: the id of every record of the
    replacement log is a key of the placeholder table, and the record's
    original text is the [value] of that entry or one of its [aliases]. *)
Theorem log_ids_are_in_table (now text src : str)
  (entities : list entity) (pass1_result : pass1) (T : str) (M : mapping) :
  execute_replacement set_iter now text entities pass1_result src
  = Some (T, M) ->
  forall e, In e (get (m_replacement_log M) []) ->
    exists info,
      assoc_get (placeholder e) (get (m_mappings M) []) = Some info
      /\ (original_text e = get (pi_value info) []
          \/ In (original_text e) (pi_aliases info)).
Proof.
  intros Hrun e He.
  destruct (replacement_log_records_lemma _ _ _ _ _ _ _ _ Hrun) as [R _].
  cbv zeta in R. rewrite Forall_forall in R.
  destruct (R e He) as (Hflat & Hne & _).
  revert Hrun He Hflat. unfold execute_replacement.
  set (gs := build_groups entities pass1_result).
  set (st := assign_placeholders set_iter gs).
  destruct (substitute (text_to_placeholder st) text) as [[T' log]|];
    [|discriminate].
  intros E. inversion E; subst T' M. clear E. simpl. intros He Hflat.
  pose proof (forward_pairs_get set_iter set_iter_perm entities pass1_result
                (original_text e) Hne)
    as Hp.
  cbv zeta in Hp. fold gs in Hp. fold st in Hp. rewrite Hflat in Hp.
  apply assoc_get_In_pair in Hp.
  apply (pair_fold_spec false (placeholder_map st) []) in Hp
    as [[]|(ph & info & Hin & <- & Hor)].
  exists info. split; [|exact Hor].
  apply NoDup_assoc_get; [|exact Hin].
  destruct (assign_fold_table set_iter gs (AssignState [] [] []))
    as (_ & I2 & _); [intros ? []|constructor|exact I2].
Qed.

End Consistency.

(** ** Step C: the restored text *)

(** X22. Step C rewrites all the tokens of the text it receives at once:
    cutting the text at its tokens, the text it returns has, in place of
    each token, the [value] of the token's table entry (the token itself
    when the entry has no value or the id is not in the table), and the gaps
    between the tokens as they were.  A name written in by the step is not
    searched for tokens again. *)
Theorem canonical_rewrites_each_token (text : str)
  (mappings : list (str * placeholder_info)) :
  exists segs tail,
    text = rebuild same segs tail
    /\ finditer text = positions_of 0 segs
    /\ Forall (fun gt => is_token (snd gt)) segs
    /\ restore_by_canonical text mappings
       = (rebuild (canonical_name_of mappings) segs tail,
          length (filter (known mappings) (finditer text))).
Proof.
  destruct (finditer_segments text) as (segs & tail & E1 & E2 & E3).
  exists segs, tail. split; [exact E1|]. split; [exact E2|].
  split; [exact E3|].
  unfold restore_by_canonical. rewrite E2.
  pose proof (canonical_fold_segments mappings segs [] tail 0) as H.
  simpl in H. rewrite <- E1 in H. exact H.
Qed.

(** * Worked examples *)

Lemma toy_order : ScoringOrder toy_scoring.
Proof.
  split; simpl.
  - intros a. apply Nat.ltb_irrefl.
  - intros a b c H1 H2. apply Nat.ltb_lt in H1, H2. apply Nat.ltb_lt. lia.
  - intros a b c H1 H2. apply Nat.ltb_lt in H1. apply Nat.ltb_ge in H2.
    apply Nat.ltb_lt. lia.
Qed.

Lemma iter_insertion_perm (l : list str) : Permutation (iter_insertion l) l.
Proof. apply Permutation_refl. Qed.


(** ** Round trip *)



(** ** Determinism *)



(** ** Step A *)

(** C3 as stated fails.  The record of the alias was made at position 17;
    its window starts at 0, the placeholder is found there, and the
    replacement is made at offset 0, before the recorded position; it moves
    the token that the record at position 0 is about from 17 to 12. *)
Lemma replacement_before_recorded_position :
  option_map (fun r => (fst r, m_replacement_log (snd r)))
    (execute_replacement iter_insertion [] ex_alias_doc ex_alias_entities
       (Pass1 None) [])
  = Some (ex_two_tokens,
          Some [LogEntry (chars "{COMPANY_1}") (chars "Acme Corp") 0
                  [] (chars " (the Seller) agrees.");
                ex_alias_record])
  /\ position ex_alias_record = 17%Z
  /\ find_in_window ex_two_tokens ex_alias_record = Some 0
  /\ position_step (ex_two_tokens, 0, 0) ex_alias_record
     = (chars "Seller (the {COMPANY_1}) agrees.", 1, 0)
  /\ find0 (chars "{COMPANY_1}") (chars "Seller (the {COMPANY_1}) agrees.")
     = Some 12.
Proof. repeat split; vm_compute; reflexivity. Qed.

(** ** Step B *)

(** Two records with the same contexts tie at the top score; the token gets
    the text of the first. *)
Lemma context_threshold_witness :
  let mean_score :=
    @total_score toy_scoring (current_before_of ex_letter 5)
      (current_after_of ex_letter 5 ex_tok) in
  (forall text0, @restore_by_context toy_scoring text0 [ex_first; ex_second]
     = fold_left (@context_step toy_scoring [ex_first; ex_second])
         (rev (finditer text0)) (text0, 0))
  /\ (@context_step toy_scoring [ex_first; ex_second] (ex_letter, 0) (5, ex_tok)
      = (ex_letter, 0)
      \/ exists e,
           In e [ex_first; ex_second] /\ placeholder e = ex_tok
           /\ @score_gt toy_scoring (mean_score e) score_half = true
           /\ (forall c, In c [ex_first; ex_second] -> placeholder c = ex_tok ->
                 @score_gt toy_scoring (mean_score c) (mean_score e) = false)
           /\ @context_step toy_scoring [ex_first; ex_second] (ex_letter, 0)
                (5, ex_tok)
              = (firstn 5 ex_letter ++ original_text e
                   ++ skipn (5 + length ex_tok) ex_letter, 1))
  /\ ((forall c, In c [ex_first; ex_second] -> placeholder c = ex_tok ->
         mean_score c = @score_half toy_scoring) ->
      @context_step toy_scoring [ex_first; ex_second] (ex_letter, 0) (5, ex_tok)
      = (ex_letter, 0)).
Proof.
  exact (@context_threshold_and_selection toy_scoring toy_order
           [ex_first; ex_second] ex_letter 0 5 ex_tok).
Defined.

(** A score of exactly one half: the context before the token is the
    recorded one, the context after it is not. *)
Lemma context_exactly_half_not_replaced :
  @total_score toy_scoring (chars "Dear ") (chars "!") ex_first
  = @score_half toy_scoring
  /\ @restore_by_context toy_scoring (chars "Dear {PERSON_1}!") [ex_first]
     = (chars "Dear {PERSON_1}!", 0).
Proof. split; vm_compute; reflexivity. Qed.

(** Two records of one placeholder with the same contexts: both reach the
    top score, the first is selected. *)
Lemma context_tie_break_witness :
  exists l1 e l2,
    [ex_first; ex_second] = l1 ++ e :: l2
    /\ @best_candidate toy_scoring [ex_first; ex_second] ex_tok
         (chars "Dear ") (chars ",")
       = (@total_score toy_scoring (chars "Dear ") (chars ",") e, Some e)
    /\ placeholder e = ex_tok
    /\ (forall c, In c l1 -> placeholder c = ex_tok ->
          @score_gt toy_scoring
            (@total_score toy_scoring (chars "Dear ") (chars ",") e)
            (@total_score toy_scoring (chars "Dear ") (chars ",") c) = true)
    /\ (forall c, In c [ex_first; ex_second] -> placeholder c = ex_tok ->
          @score_gt toy_scoring
            (@total_score toy_scoring (chars "Dear ") (chars ",") c)
            (@total_score toy_scoring (chars "Dear ") (chars ",") e)
          = false).
Proof.
  apply (@context_tie_break_earliest toy_scoring toy_order ex_tok
           (chars "Dear ") (chars ",") [ex_first; ex_second]).
  exists ex_second. split; [right; left; reflexivity|].
  split; reflexivity.
Defined.

(** The selected record of the example is the first of the two, although the
    second scores as much. *)
Lemma context_tie_selects_first :
  @total_score toy_scoring (chars "Dear ") (chars ",") ex_first
  = @total_score toy_scoring (chars "Dear ") (chars ",") ex_second
  /\ snd (@best_candidate toy_scoring [ex_first; ex_second] ex_tok
            (chars "Dear ") (chars ","))
     = Some ex_first.
Proof. split; vm_compute; reflexivity. Qed.

(** A text that is the token alone: both contexts are empty, and the ratio
    of an empty string and a non-empty one is zero.  The two records tie at
    the maximal score, zero, and neither is selected. *)
Lemma tie_at_zero_selects_none :
  current_before_of ex_tok 0 = []
  /\ current_after_of ex_tok 0 ex_tok = []
  /\ placeholder ex_first = ex_tok
  /\ placeholder ex_second = ex_tok
  /\ @total_score toy_scoring [] [] ex_first = @score_zero toy_scoring
  /\ @total_score toy_scoring [] [] ex_second = @score_zero toy_scoring
  /\ @best_candidate toy_scoring [ex_first; ex_second] ex_tok [] []
     = (@score_zero toy_scoring, None)
  /\ @restore_by_context toy_scoring ex_tok [ex_first; ex_second]
     = (ex_tok, 0).
Proof. repeat split; vm_compute; reflexivity. Qed.

(** ** Substitution *)

(** C5 as stated fails.  The literal "1" is replaced by a placeholder that
    contains it.  And with the name replaced first, the "1" of its
    placeholder is replaced in turn: the placeholder of the second record
    is written at offset 8, inside the placeholder of the first, which no
    longer stands in the text. *)
Lemma literal_left_inside_placeholder :
  option_map fst
    (execute_replacement iter_insertion [] (chars "Room 1")
       [ent "1" "id" ""] (Pass1 None) [])
  = Some (chars "Room {ID_1}")
  /\ text_to_placeholder
       (assign_placeholders iter_insertion
          (build_groups [ent "1" "id" ""] (Pass1 None)))
     = [(chars "1", chars "{ID_1}")]
  /\ find0 (chars "1") (chars "Room {ID_1}") = Some 9
  /\ option_map
       (fun r => (fst r,
                  map (fun e => (placeholder e, position e))
                    (get (m_replacement_log (snd r)) [])))
       (execute_replacement iter_insertion [] (chars "John Smith")
          ex_street_entities (Pass1 None) [])
     = Some (chars "{PERSON_{NUMBER_1}}",
             [(chars "{PERSON_1}", 0%Z); (chars "{NUMBER_1}", 8%Z)])
  /\ find0 (chars "{PERSON_1}") (chars "{PERSON_{NUMBER_1}}") = None.
Proof. repeat split; vm_compute; reflexivity. Qed.

Lemma no_literal_left_witness :
  exists T M segs tail,
    execute_replacement iter_insertion [] ex_contact_doc ex_contact_entities
      (Pass1 None) [] = Some (T, M)
    /\ T = render segs tail
    /\ ex_contact_doc = render (restore_all segs) tail
    /\ Forall (fun s => restored s = false) segs
    /\ Permutation (map entry segs) (get (m_replacement_log M) [])
    /\ side_by_side 0 (site_offsets 0 segs) T
    /\ forall l,
         In l (map fst
                 (text_to_placeholder
                    (assign_placeholders iter_insertion
                       (build_groups ex_contact_entities (Pass1 None))))) ->
         find0 l T = None.
Proof.
  apply (no_literal_left_no_nested_token iter_insertion []
           ex_contact_doc [] ex_contact_entities (Pass1 None)).
  vm_compute. reflexivity.
Defined.

(** C6 as stated fails.  The pass of the later, shorter literal "1" starts
    at cursor 0 of the running text and finds the "1" of the placeholder
    inserted for "John Smith": the second record is made at position 8,
    inside that placeholder. *)
Lemma placeholder_rescanned_by_later_literal :
  option_map
    (fun r => (fst r,
               map (fun e => (placeholder e, original_text e, position e))
                 (get (m_replacement_log (snd r)) [])))
    (execute_replacement iter_insertion []
       (chars "John Smith lives at 1 Main St") ex_street_entities
       (Pass1 None) [])
  = Some (chars "{PERSON_{NUMBER_1}} lives at {NUMBER_1} Main St",
          [(chars "{PERSON_1}", chars "John Smith", 0%Z);
           (chars "{NUMBER_1}", chars "1", 8%Z);
           (chars "{NUMBER_1}", chars "1", 29%Z)]).
Proof. vm_compute. reflexivity. Qed.

Lemma cursor_advances_witness :
  let ph := get (assoc_get (chars "ab") ex_flat) [] in
  (forall fuel st c,
     replace_loop (S fuel) (chars "ab") ph st c
     = match find (chars "ab") (fst st) c with
       | None => Some st
       | Some pos =>
           replace_loop fuel (chars "ab") ph
             (replace_at (chars "ab") ph pos st) (pos + length ph)
       end)
  /\ (exists log',
        replace_literal ex_flat (Some (chars "ababcab", [])) (chars "ab")
        = Some (replace_all (length (chars "ababcab")) (chars "ab") ph
                  (chars "ababcab"), log'))
  /\ (forall n s,
        replace_all (S (S n)) (chars "ab") ph (chars "ab" ++ chars "ab" ++ s)
        = ph ++ ph ++ replace_all n (chars "ab") ph s).
Proof.
  apply (cursor_advances_past_placeholder ex_flat (chars "ab")
           (chars "ababcab") []).
  discriminate.
Defined.

(** ** Canonical groups *)

Lemma empty_mention_witness :
  build_groups ([ent "John Smith" "person" ""] ++ ex_blank
                  :: [ent "john@x.com" "email" ""]) (Pass1 None)
  = build_groups ([ent "John Smith" "person" ""]
                    ++ [ent "john@x.com" "email" ""]) (Pass1 None)
  /\ execute_replacement iter_insertion [] ex_contact_doc
       ([ent "John Smith" "person" ""] ++ ex_blank
          :: [ent "john@x.com" "email" ""]) (Pass1 None) []
     = execute_replacement iter_insertion [] ex_contact_doc
         ([ent "John Smith" "person" ""] ++ [ent "john@x.com" "email" ""])
         (Pass1 None) [].
Proof.
  apply (empty_mention_excluded iter_insertion [] ex_contact_doc []
           [ent "John Smith" "person" ""] [ent "john@x.com" "email" ""]
           ex_blank (Pass1 None)).
  repeat constructor.
Defined.

(** The literal "Acme" is a member of both groups, as [build_groups] makes
    them for two mentions "Acme" linked to different canonical names; it gets
    the placeholder of the second. *)
Lemma literal_collision_witness :
  build_groups [ent "Acme" "company" "Acme Corp"; ent "Acme" "company" "Acme Ltd"]
    (Pass1 None)
  = [] ++ ex_corp_group :: [ex_ltd_group]
  /\ let flat :=
       text_to_placeholder
         (assign_placeholders iter_insertion
            ([ex_corp_group] ++ ex_ltd_group :: [])) in
     assoc_get (chars "Acme") flat
     = Some (group_placeholder
               (type_counters
                  (assign_placeholders iter_insertion [ex_corp_group]))
               (snd ex_ltd_group))
     /\ NoDup (map fst flat).
Proof.
  split; [vm_compute; reflexivity|].
  apply (literal_collision_last_group_wins iter_insertion iter_insertion_perm
           [ex_corp_group] [] ex_ltd_group (chars "Acme")).
  - simpl. auto.
  - intros g' [].
Defined.

(** ** The functions around the engine *)

Lemma index_insertion_perm (l : list nat) : Permutation ((fun x => x) l) l.
Proof. apply Permutation_refl. Qed.

Lemma split_segments_bound_witness :
  Forall (fun s => length s <= 12) (_split_into_segments ex_sentences_doc 12).
Proof.
  apply (split_segments_bound ex_sentences_doc 12).
  intros p Hp. vm_compute in Hp.
  destruct Hp as [<-|[<-|[<-|[]]]]; intros Hlen.
  - apply Forall_forall. intros s Hs. vm_compute in Hs.
    repeat (destruct Hs as [<-|Hs]; [simpl; lia|]). destruct Hs.
  - simpl in Hlen. lia.
  - simpl in Hlen. lia.
Defined.

(** A line of 31 characters cut at its sentences, and two short lines kept
    together. *)
Lemma split_segments_example :
  _split_into_segments ex_sentences_doc 12
  = [chars "Hello there."; chars "How are you?"; chars "Fine.";
     chars "short" ++ [newline] ++ chars "one"].
Proof. vm_compute. reflexivity. Qed.

Lemma key_sections_witness :
  exists selected,
    StronglySorted lt selected
    /\ (forall i,
          In i selected
          <-> i < length (paragraphs_of ex_contract)
              /\ exists m,
                   m < length (paragraphs_of ex_contract)
                   /\ has_keyword ex_keywords
                        (nth m (paragraphs_of ex_contract) []) = true
                   /\ i <= m + 2 /\ m <= i + 2)
    /\ detect_key_sections ex_keywords (fun l => l) ex_front_end
         ex_back_start ex_contract
       = join [newline; newline]
           (map (fun i => nth i (paragraphs_of ex_contract) []) selected).
Proof.
  apply (key_sections_selection ex_keywords (fun l => l) ex_front_end
           ex_back_start index_insertion_perm ex_contract).
  vm_compute. lia.
Defined.

(** Keywords in paragraphs 1, 6 and 7 of 8: paragraph 0 and paragraphs 2 to
    5 come along as neighbours, each paragraph once. *)
Lemma key_sections_example :
  detect_key_sections ex_keywords (fun l => l) ex_front_end ex_back_start
    ex_contract
  = join [newline; newline] (paragraphs_of ex_contract).
Proof. vm_compute. reflexivity. Qed.

Lemma mapping_table_witness :
  exists T M,
    execute_replacement iter_insertion [] ex_contact_doc ex_contact_entities
      (Pass1 None) [] = Some (T, M)
    /\ exists meta table,
         m_metadata M = Some meta /\ m_mappings M = Some table
         /\ entity_count meta = length table
         /\ length table
            = length (build_groups ex_contact_entities (Pass1 None))
         /\ NoDup (map fst table)
         /\ Forall shaped (map fst table)
         /\ map (fun kv => pi_value (snd kv)) table
            = map (fun g => Some (fst g))
                (build_groups ex_contact_entities (Pass1 None)).
Proof.
  eexists. eexists. split; [vm_compute; reflexivity|].
  eapply (mapping_table_one_entry_per_group iter_insertion [] ex_contact_doc
           [] ex_contact_entities (Pass1 None)).
  vm_compute. reflexivity.
Defined.

Lemma replacement_pairs_witness :
  exists T M,
    execute_replacement iter_insertion [] ex_alias_doc ex_alias_entities
      (Pass1 None) [] = Some (T, M)
    /\ forall t,
         assoc_get t (build_replacement_pairs M false)
         = assoc_get t
             (text_to_placeholder
                (assign_placeholders iter_insertion
                   (build_groups ex_alias_entities (Pass1 None)))).
Proof.
  eexists. eexists. split; [vm_compute; reflexivity|].
  eapply (replacement_pairs_agree_with_literal_map iter_insertion
           iter_insertion_perm [] ex_alias_doc [] ex_alias_entities
           (Pass1 None)).
  vm_compute. reflexivity.
Defined.

Lemma reverse_pairs_witness :
  exists T M,
    execute_replacement iter_insertion [] ex_alias_doc ex_alias_entities
      (Pass1 None) [] = Some (T, M)
    /\ exists ph,
         assoc_get (chars "Seller")
           (text_to_placeholder
              (assign_placeholders iter_insertion
                 (build_groups ex_alias_entities (Pass1 None))))
         = Some ph
         /\ assoc_get ph (build_replacement_pairs M true)
            = Some (fst ex_seller_group).
Proof.
  eexists. eexists. split; [vm_compute; reflexivity|].
  eapply (reverse_pairs_restore_canonical iter_insertion iter_insertion_perm
           [] ex_alias_doc [] ex_alias_entities (Pass1 None) _ _
           [] [] ex_seller_group (chars "Seller")).
  - vm_compute. reflexivity.
  - vm_compute. reflexivity.
  - simpl. auto.
  - intros g' [].
Defined.

(** The alias "Seller" is anonymized as [{COMPANY_1}] and comes back as the
    canonical name in the pairs that restore a DOCX file. *)
Lemma reverse_pairs_example :
  option_map (fun r => build_replacement_pairs (snd r) true)
    (execute_replacement iter_insertion [] ex_alias_doc ex_alias_entities
       (Pass1 None) [])
  = Some [(chars "{COMPANY_1}", chars "Acme Corp")].
Proof. vm_compute. reflexivity. Qed.

Lemma iterated_replace_witness :
  exists T M,
    execute_replacement iter_insertion [] ex_contact_doc ex_contact_entities
      (Pass1 None) [] = Some (T, M)
    /\ T = apply_replacements
             (map (fun l =>
                     (l, get (assoc_get l
                                (text_to_placeholder
                                   (assign_placeholders iter_insertion
                                      (build_groups ex_contact_entities
                                         (Pass1 None))))) []))
                (sorted_texts iter_insertion ex_contact_entities
                   (Pass1 None)))
             ex_contact_doc.
Proof.
  eexists. eexists. split; [vm_compute; reflexivity|].
  eapply (anonymized_text_is_iterated_replace iter_insertion []
           ex_contact_doc [] ex_contact_entities (Pass1 None)).
  vm_compute. reflexivity.
Defined.

Lemma no_mention_witness :
  execute_replacement iter_insertion [] ex_contact_doc [ex_blank]
    ex_empty_alias []
  = Some (ex_contact_doc,
          Mapping (Some (Metadata [] [] 0)) (Some []) (Some [])).
Proof.
  apply (no_mention_nothing_replaced iter_insertion [] ex_contact_doc []
           [ex_blank] ex_empty_alias).
  repeat constructor.
Defined.

Lemma text_without_brace_witness :
  @run_deanonymize toy_scoring ex_plain_doc
    (Mapping None None (Some [ex_first]))
  = (ex_plain_doc, Stats 0 0 0 0 1).
Proof.
  apply (@text_without_brace_untouched toy_scoring ex_plain_doc
           (Mapping None None (Some [ex_first]))).
  - apply existsb_lbrace. vm_compute. reflexivity.
  - constructor; [|constructor]. simpl. auto.
Defined.

Lemma returns_iff_witness :
  (execute_replacement iter_insertion [] ex_alias_doc ex_alias_entities
     ex_empty_alias [] = None
   <-> exists ag,
         In ag (get (p1_aliases ex_empty_alias) [])
         /\ assoc_mem (get (ag_canonical ag) [])
              (build_groups ex_alias_entities (Pass1 None)) = true
         /\ In [] (get (ag_aliases ag) []))
  /\ (forall fuel ph st c,
        c <= length (fst st) -> replace_loop fuel [] ph st c = None).
Proof.
  exact (execute_replacement_returns_iff iter_insertion iter_insertion_perm
           [] ex_alias_doc [] ex_alias_entities ex_empty_alias).
Defined.

(** An empty alias of "Acme Corp": the substitution never returns. *)
Lemma empty_alias_never_returns :
  execute_replacement iter_insertion [] ex_alias_doc ex_alias_entities
    ex_empty_alias []
  = None.
Proof. vm_compute. reflexivity. Qed.

Lemma replacement_log_witness :
  exists T M,
    execute_replacement iter_insertion [] ex_contact_doc ex_contact_entities
      (Pass1 None) [] = Some (T, M)
    /\ Forall
         (record_ok
            (text_to_placeholder
               (assign_placeholders iter_insertion
                  (build_groups ex_contact_entities (Pass1 None)))))
         (get (m_replacement_log M) [])
    /\ StronglySorted
         (fun a b => length (original_text a) >= length (original_text b))
         (get (m_replacement_log M) []).
Proof.
  eexists. eexists. split; [vm_compute; reflexivity|].
  eapply (replacement_log_records iter_insertion [] ex_contact_doc []
           ex_contact_entities (Pass1 None)).
  vm_compute. reflexivity.
Defined.

Lemma length_accounting_witness :
  exists T M,
    execute_replacement iter_insertion [] ex_contact_doc ex_contact_entities
      (Pass1 None) [] = Some (T, M)
    /\ Z.of_nat (length T)
       = (Z.of_nat (length ex_contact_doc)
          + total_length_change (get (m_replacement_log M) []))%Z.
Proof.
  eexists. eexists. split; [vm_compute; reflexivity|].
  eapply (anonymized_length_accounting iter_insertion [] ex_contact_doc []
           ex_contact_entities (Pass1 None)).
  vm_compute. reflexivity.
Defined.

Lemma context_unrecorded_witness :
  @restore_by_context toy_scoring ex_letter [ex_alias_record]
  = (ex_letter, 0).
Proof.
  apply (@context_ignores_unrecorded toy_scoring ex_letter [ex_alias_record]).
  intros pos tok e H1 H2. vm_compute in H1.
  destruct H1 as [H1|[]]. inversion H1; subst.
  destruct H2 as [<-|[]]. discriminate.
Defined.

Lemma log_ids_witness :
  exists T M,
    execute_replacement iter_insertion [] ex_alias_doc ex_alias_entities
      (Pass1 None) [] = Some (T, M)
    /\ forall e, In e (get (m_replacement_log M) []) ->
         exists info,
           assoc_get (placeholder e) (get (m_mappings M) []) = Some info
           /\ (original_text e = get (pi_value info) []
               \/ In (original_text e) (pi_aliases info)).
Proof.
  eexists. eexists. split; [vm_compute; reflexivity|].
  eapply (log_ids_are_in_table iter_insertion iter_insertion_perm []
           ex_alias_doc [] ex_alias_entities (Pass1 None)).
  vm_compute. reflexivity.
Defined.

(** ** [_link_aliases] and [run_second_pass] *)

(** An entity without a canonical name is linked to the first group that
    lists its text; one that has a canonical name keeps it. *)
Lemma link_aliases_example :
  _link_aliases
    [ent "Seller" "company" ""; ent "Seller" "company" "Other Ltd";
     ent "Buyer" "company" ""]
    (Pass1 (Some [AliasGroup (Some (chars "Acme Corp"))
                    (Some (chars "company")) (Some [chars "Seller"])]))
  = [ent "Seller" "company" "Acme Corp"; ent "Seller" "company" "Other Ltd";
     ent "Buyer" "company" ""].
Proof. vm_compute. reflexivity. Qed.

(** An answer with an item whose text is null: the loop raises. *)
Lemma second_pass_raises_on_null_text :
  run_second_pass
    (fun _ _ _ => Some [Fields (ent "Acme" "company" ""); NoFields])
    (chars "Acme signs.") (Pass1 None)
  = None
  /\ run_second_pass
       (fun _ _ _ => Some [Fields (ent "Acme" "company" "");
                           Fields (ent "Acme" "company" "")])
       (chars "Acme signs.") (Pass1 None)
     = Some [ent "Acme" "company" ""].
Proof. split; vm_compute; reflexivity. Qed.

(** ** Placeholder ids and the token pattern *)

Lemma placeholder_is_token_witness :
  forallb is_ascii (chars "person") = true
  /\ (is_tokenb (group_placeholder [] (GroupInfo (chars "person") [] []))
       = true
      <-> chars "person" <> [] /\ forallb is_letter (chars "person") = true).
Proof.
  split; [reflexivity|].
  apply (placeholder_is_token_iff [] (GroupInfo (chars "person") [] [])).
  reflexivity.
Defined.


(** A type with an underscore gives an id that the pattern does not match:
    step C leaves it in the text and it is not counted as remaining. *)
Lemma underscore_type_is_no_token :
  group_placeholder [] (GroupInfo (chars "reg_num") [] []) = chars "{REG_NUM_1}"
  /\ is_tokenb (chars "{REG_NUM_1}") = false
  /\ finditer (chars "No. {REG_NUM_1}") = [].
Proof. repeat split; vm_compute; reflexivity. Qed.
